(** * DETR set criterion and position encodings: a shallow embedding

    Source files embedded here:
    - [models/DETR/model/criterion.py]          ([SetCriterion])
    - [models/DETR/model/position_encoding.py]  ([PositionEmbeddingSine],
      [PositionEmbeddingLearned], [build_position_encoding])

    Conventions.
    - Tensor elements and Python floats are values of an abstract scalar
      type [F] with the operations of the tensor substrate ([Arith],
      [Transc]); rounding is not modelled.  Three carriers are used: the
      rationals (exact arithmetic), a term algebra (every operation stays
      visible in the result) and, for reading off IEEE special values,
      single precision [spec_float].
    - A Python exception is [None] in the option monad; the builder, whose
      error is part of its contract, returns the exception raised.
    - Index tensors hold [Z] (int64); negative indices wrap as in Python.
    - A loss term is the scalar its tensor holds.
    - The criterion works on sequences and is modelled on lists; the position
      encodings reshape and broadcast, and are modelled on tensors given by a
      shape and an index function. *)

From Stdlib Require Import ZArith QArith Qabs Lqa SpecFloat.
From stdpp Require Import gmap strings list pretty.

Local Open Scope string_scope.
Local Open Scope list_scope.
Local Open Scope Z_scope.

(** ** Scalars *)

(** Arithmetic of the tensor substrate. [of_Z] converts a Python int,
    [of_Q] a decimal float literal, [fpi] is [math.pi]. *)
Class Arith (F : Type) := {
  of_Z : Z → F;
  of_Q : Q → F;
  fpi : F;
  fadd : F → F → F;
  fsub : F → F → F;
  fmul : F → F → F;
  fdiv : F → F → F;
  fabs : F → F;
  fneg : F → F;
}.

(** Elementary functions of the tensor substrate. *)
Class Transc (F : Type) := {
  ffloordiv : F → F → F;
  fpow : F → F → F;
  fsin : F → F;
  fcos : F → F;
  fexp : F → F;
  flog : F → F;
}.

(** [Tensor.sum()]: accumulation from the left, starting at zero. *)
Definition fsum `{Arith F} (l : list F) : F := foldl fadd (of_Z 0) l.

(** ** Python and torch primitives on sequences *)

(** [l[i]] for an int64 index: [-len <= i < len], negative counts from the
    end; anything else is an IndexError. *)
Definition py_index {A} (l : list A) (i : Z) : option A :=
  let n := Z.of_nat (length l) in
  if bool_decide (0 ≤ i < n) then l !! Z.to_nat i
  else if bool_decide (- n ≤ i < 0) then l !! Z.to_nat (n + i)
  else None.

(** [t[J]] with [J] an index tensor. *)
Definition index_select {A} (l : list A) (J : list Z) : option (list A) :=
  mapM (py_index l) J.

(** [torch.cat] along dimension 0 of a Python list of tensors; an empty
    Python list raises. *)
Definition torch_cat {A} (ts : list (list A)) : option (list A) :=
  match ts with
  | [] => None
  | _ => Some (concat ts)
  end.

(** [t[(bi, si)]]: advanced indexing of a [B, Q, ...] tensor by two index
    tensors of the same length. *)
Definition index2 {A} (t : list (list A)) (bi si : list Z) : option (list A) :=
  mapM (λ '(b, s), row ← py_index t b; py_index row s) (zip bi si).

(** One write [t[b][s] = v]. *)
Definition put2 {A} (t : list (list A)) (b s : Z) (v : A) : option (list (list A)) :=
  row ← py_index t b;
  _ ← py_index row s;
  let bn := Z.to_nat (if bool_decide (0 ≤ b) then b else Z.of_nat (length t) + b) in
  let sn := Z.to_nat (if bool_decide (0 ≤ s) then s else Z.of_nat (length row) + s) in
  Some (<[bn := <[sn := v]> row]> t).

(** The writes of an indexed assignment, here in sequence; torch leaves the
    result open when an index occurs twice, and the statements about the
    result assume indices without duplicates. *)
Fixpoint put2_all {A} (t : list (list A)) (ws : list (Z * Z * A)) : option (list (list A)) :=
  match ws with
  | [] => Some t
  | (b, s, v) :: ws' => t' ← put2 t b s v; put2_all t' ws'
  end.

(** [t[(bi, si)] = values]: the values have the length of the index
    tensors, or length one and are broadcast. *)
Definition index_put2 {A} (t : list (list A)) (bi si : list Z) (values : list A)
  : option (list (list A)) :=
  let n := length (zip bi si) in
  if bool_decide (length values = n) then put2_all t (zip (zip bi si) values)
  else match values with
       | [v] => put2_all t (zip (zip bi si) (replicate n v))
       | _ => None
       end.

(** [torch.diag] of a matrix: the entries [(i, i)]. *)
Definition torch_diag {A} (m : list (list A)) : list A :=
  omap id (imap (λ i row, row !! i) m).

(** ** models/DETR/model/criterion.py *)

Module Criterion.

Record box (F : Type) := Box { bx0 : F; bx1 : F; bx2 : F; bx3 : F }.
Arguments Box {F}.
Arguments bx0 {F}. Arguments bx1 {F}. Arguments bx2 {F}. Arguments bx3 {F}.

Definition coords {F} (b : box F) : list F := [bx0 b; bx1 b; bx2 b; bx3 b].

(** [utils.utils] is not part of the sources; its two functions are taken
    per box, as the geometry contract gives them. *)
Class Geometry (F : Type) := {
  to_corners : box F → box F;
  giou : box F → box F → F;
}.

(** One layer's predictions: the entries ['pred_logits'] ([B, Q, C+1]) and
    ['pred_boxes'] ([B, Q, 4]) of a prediction dict; [None] is a missing key. *)
Record layer_outputs (F : Type) := LayerOutputs {
  pred_logits : option (list (list (list F)));
  pred_boxes : option (list (list (box F)));
}.
Arguments LayerOutputs {F}.
Arguments pred_logits {F}. Arguments pred_boxes {F}.

(** The prediction dict given to [forward]: the final layer's entries, the
    optional ['aux_outputs'] list, and the one fact about the order of its
    keys that the code reads (a dict keeps its insertion order): whether
    ['aux_outputs'] is the key listed first. *)
Record outputs (F : Type) := Outputs {
  out_final : layer_outputs F;
  aux_outputs : option (list (layer_outputs F));
  aux_first : bool;
}.
Arguments Outputs {F}.
Arguments out_final {F}. Arguments aux_outputs {F}. Arguments aux_first {F}.

(** A value of the prediction dict: a tensor (['pred_logits'],
    ['pred_boxes']) or the list of the auxiliary layers. *)
Inductive dict_value := TensorValue | ListValue.

(** [next(iter(outputs.values()))]: the first value of the dict; an empty
    dict raises StopIteration. *)
Definition first_value {F} (outputs : outputs F) : option dict_value :=
  let final := out_final outputs in
  let tensors := bool_decide (is_Some (pred_logits final) ∨ is_Some (pred_boxes final)) in
  match aux_outputs outputs with
  | Some _ => if aux_first outputs || negb tensors then Some ListValue else Some TensorValue
  | None => if tensors then Some TensorValue else None
  end.

(** [value.device]: a tensor has a device, a list has no such attribute. *)
Definition device (value : dict_value) : option unit :=
  match value with
  | TensorValue => Some ()
  | ListValue => None
  end.

Record target (F : Type) := Target {
  labels : list Z;
  boxes : list (box F);
}.
Arguments Target {F}.
Arguments labels {F}. Arguments boxes {F}.

(** A per-image assignment: matched query indices, matched target indices. *)
Definition assignment : Type := list Z * list Z.

Record SetCriterion (F : Type) := {
  num_classes : nat;
  matcher : layer_outputs F → list (target F) → option (list assignment);
  weight_dict : gmap string F;
  eos_coef : F;
  empty_weight : list F;
}.
Arguments num_classes {F}. Arguments matcher {F}. Arguments weight_dict {F}.
Arguments eos_coef {F}. Arguments empty_weight {F}.

Section criterion.
Context {F : Type} `{!Arith F, !Transc F, !Geometry F}.

(** [SetCriterion.__init__] *)
Definition init (num_classes : nat)
    (matcher : layer_outputs F → list (target F) → option (list assignment))
    (weight_dict : gmap string F) (eos_coef : F) : SetCriterion F :=
  let empty_weight := replicate (num_classes + 1) (of_Q 1) in
  let empty_weight := <[num_classes := eos_coef]> empty_weight in
  {| num_classes := num_classes; matcher := matcher; weight_dict := weight_dict;
     eos_coef := eos_coef; empty_weight := empty_weight |}.

(** [F.cross_entropy(input, target, weight)], mean reduction, on the logits
    per slot ([input] is the [B, C, Q] transpose of these): slots whose
    target is the ignore index -100 are skipped, a target outside
    [0, C) raises, and so does a weight vector whose length is not the number
    of logits. *)
Definition log_softmax_at (x : list F) (y : nat) : option F :=
  xy ← x !! y;
  Some (fsub xy (flog (fsum (fexp <$> x)))).

Definition ce_slot (weight : list F) (x : list F) (y : Z) : option (list (F * F)) :=
  if bool_decide (length x = length weight) then
    if bool_decide (y = -100) then Some []
    else if bool_decide (0 ≤ y) then
      w ← weight !! Z.to_nat y;
      l ← log_softmax_at x (Z.to_nat y);
      Some [(fmul w (fneg l), w)]
    else None
  else None.

Definition cross_entropy (input : list (list (list F))) (tgt : list (list Z))
    (weight : list F) : option F :=
  if bool_decide (length <$> input = length <$> tgt) then
    terms ← mapM (λ '(x, y), ce_slot weight x y) (zip (concat input) (concat tgt));
    let terms := concat terms in
    Some (fdiv (fsum (fst <$> terms)) (fsum (snd <$> terms)))
  else None.

(** [F.l1_loss(input, target, reduction='none')] on [n, 4] and [m, 4]:
    the two are broadcast against each other. *)
Definition l1_row (a b : box F) : list F :=
  zip_with (λ x y, fabs (fsub x y)) (coords a) (coords b).

Definition l1_loss_none (input tgt : list (box F)) : option (list (list F)) :=
  if bool_decide (length input = length tgt) then Some (zip_with l1_row input tgt)
  else match input, tgt with
       | [a], _ => Some ((λ b, l1_row a b) <$> tgt)
       | _, [b] => Some ((λ a, l1_row a b) <$> input)
       | _, _ => None
       end.

(** Modelled from the spec: [utils.cxcywh_to_xyxy] is missing; it converts
    every box of a [N, 4] tensor to corner form. *)
Definition cxcywh_to_xyxy (bs : list (box F)) : list (box F) := to_corners <$> bs.

(** Modelled from the spec: [utils.generalized_box_iou] is missing; it
    returns the pairwise matrix of generalized IoU values. *)
Definition generalized_box_iou (bs1 bs2 : list (box F)) : list (list F) :=
  (λ a, giou a <$> bs2) <$> bs1.

(** [SetCriterion._get_src_permutation_idx] *)
Definition _get_src_permutation_idx (indices : list assignment) : option (list Z * list Z) :=
  batch_idx ← torch_cat (imap (λ i '(src, _), replicate (length src) (Z.of_nat i)) indices);
  src_idx ← torch_cat ((λ '(src, _), src) <$> indices);
  Some (batch_idx, src_idx).

(** [SetCriterion._get_tgt_permutation_idx] *)
Definition _get_tgt_permutation_idx (indices : list assignment) : option (list Z * list Z) :=
  batch_idx ← torch_cat (imap (λ i '(_, tgt), replicate (length tgt) (Z.of_nat i)) indices);
  tgt_idx ← torch_cat ((λ '(_, tgt), tgt) <$> indices);
  Some (batch_idx, tgt_idx).

(** [SetCriterion.loss_labels] *)
Definition loss_labels (self : SetCriterion F) (outputs : layer_outputs F)
    (targets : list (target F)) (indices : list assignment) (num_boxes : F)
  : option (gmap string F) :=
  src_logits ← pred_logits outputs;
  idx ← _get_src_permutation_idx indices;
  parts ← mapM (λ '(t, (_, J)), index_select (labels t) J) (zip targets indices);
  target_classes_o ← torch_cat parts;
  let target_classes :=
    (λ row, replicate (length row) (Z.of_nat (num_classes self))) <$> src_logits in
  target_classes ← index_put2 target_classes idx.1 idx.2 target_classes_o;
  loss_ce ← cross_entropy src_logits target_classes (empty_weight self);
  let losses : gmap string F := {[ "loss_ce" := loss_ce ]} in
  Some losses.

(** [SetCriterion.loss_boxes] *)
Definition loss_boxes (self : SetCriterion F) (outputs : layer_outputs F)
    (targets : list (target F)) (indices : list assignment) (num_boxes : F)
  : option (gmap string F) :=
  all_boxes ← pred_boxes outputs;
  idx ← _get_src_permutation_idx indices;
  src_boxes ← index2 all_boxes idx.1 idx.2;
  parts ← mapM (λ '(t, (_, i)), index_select (boxes t) i) (zip targets indices);
  target_boxes ← torch_cat parts;
  loss_bbox ← l1_loss_none src_boxes target_boxes;
  let loss_giou :=
    (λ g, fsub (of_Z 1) g) <$>
      torch_diag (generalized_box_iou (cxcywh_to_xyxy src_boxes)
                                      (cxcywh_to_xyxy target_boxes)) in
  let losses : gmap string F := ∅ in
  let losses := <["loss_bbox" := fdiv (fsum (concat loss_bbox)) num_boxes]> losses in
  let losses := <["loss_giou" := fdiv (fsum loss_giou) num_boxes]> losses in
  Some losses.

(** [dict.update]: the entries of [new] replace those of [d]. *)
Definition dict_update (d new : gmap string F) : gmap string F := new ∪ d.

(** [{k + f'_{i}': v for k, v in l_dict.items()}] *)
Definition suffix_keys (i : nat) (l_dict : gmap string F) : gmap string F :=
  kmap (λ k : string, k +:+ "_" +:+ pretty i) l_dict.

(** Line 119: the total target count of the batch. *)
Definition count_boxes (targets : list (target F)) : Z :=
  foldl Z.add 0 ((λ t, Z.of_nat (length (labels t))) <$> targets).

(** The loop over [enumerate(outputs['aux_outputs'])], from index [i] on. *)
Fixpoint aux_loop (self : SetCriterion F) (targets : list (target F)) (num_boxes : F)
    (i : nat) (auxs : list (layer_outputs F)) (losses : gmap string F)
  : option (gmap string F) :=
  match auxs with
  | [] => Some losses
  | aux_outputs :: rest =>
      indices_aux ← matcher self aux_outputs targets;
      l_dict ← loss_labels self aux_outputs targets indices_aux num_boxes;
      l_boxes ← loss_boxes self aux_outputs targets indices_aux num_boxes;
      let l_dict := dict_update l_dict l_boxes in
      let l_dict := suffix_keys i l_dict in
      aux_loop self targets num_boxes (S i) rest (dict_update losses l_dict)
  end.

(** [SetCriterion.forward]. The normalizer tensor takes the device of the
    first value of the prediction dict; the lookup raises when that value
    is the list of auxiliary layers. *)
Definition forward (self : SetCriterion F) (outputs : outputs F)
    (targets : list (target F)) : option (gmap string F) :=
  let outputs_without_aux := out_final outputs in
  indices ← matcher self outputs_without_aux targets;
  let num_boxes := count_boxes targets in
  _ ← first_value outputs ≫= device;
  let num_boxes := of_Z num_boxes in
  let losses : gmap string F := ∅ in
  l ← loss_labels self (out_final outputs) targets indices num_boxes;
  let losses := dict_update losses l in
  l ← loss_boxes self (out_final outputs) targets indices num_boxes;
  let losses := dict_update losses l in
  match aux_outputs outputs with
  | Some auxs => aux_loop self targets num_boxes 0 auxs losses
  | None => Some losses
  end.

End criterion.
End Criterion.

(** ** Tensors with a shape *)

Module Tensor.

(** A tensor is its shape and its element at every index; only indices
    within the shape are meaningful. *)
Record tensor (A : Type) := T { shape : list nat; elem : list nat → A }.
Arguments T {A}.
Arguments shape {A}.
Arguments elem {A}.

Definition tmap {A B} (f : A → B) (t : tensor A) : tensor B :=
  T (shape t) (λ idx, f (elem t idx)).

Definition product (s : list nat) : nat := foldr Nat.mul 1%nat s.

(** A dimension argument, negative counting from the last. *)
Definition wrap_dim (rank : nat) (d : Z) : option nat :=
  if bool_decide (0 ≤ d < Z.of_nat rank) then Some (Z.to_nat d)
  else if bool_decide (- Z.of_nat rank ≤ d < 0) then Some (Z.to_nat (Z.of_nat rank + d))
  else None.

(** [torch.arange(n)] *)
Definition arange {A} (conv : Z → A) (n : Z) : option (tensor A) :=
  if bool_decide (0 ≤ n) then
    Some (T [Z.to_nat n] (λ idx, conv (Z.of_nat (idx !!! 0%nat))))
  else None.

(** [t.cumsum(d)] *)
Definition cumsum `{Arith F} (d : Z) (t : tensor F) : option (tensor F) :=
  d ← wrap_dim (length (shape t)) d;
  Some (T (shape t)
          (λ idx, fsum ((λ k, elem t (<[d := k]> idx)) <$> seq 0 (S (idx !!! d))))).

(** The slice [start::step] of a dimension of size [n], [step > 0]: first
    position and number of positions. *)
Definition slice_start (n : nat) (start : Z) : nat :=
  Z.to_nat (if bool_decide (start < 0) then Z.max (Z.of_nat n + start) 0
            else Z.min start (Z.of_nat n)).

Definition slice_len (n : nat) (start : Z) (step : nat) : nat :=
  ((n - slice_start n start + step - 1) / step)%nat.

(** [t[:, ..., start::step]] with the slice in dimension [d] and full
    slices before it. *)
Definition slice {A} (d : nat) (start : Z) (step : nat) (t : tensor A) : option (tensor A) :=
  n ← shape t !! d;
  Some (T (<[d := slice_len n start step]> (shape t))
          (λ idx, elem t (<[d := (slice_start n start + step * (idx !!! d))%nat]> idx))).

(** Broadcasting of two shapes, aligned at the last dimension. *)
Fixpoint broadcast_rev (s1 s2 : list nat) : option (list nat) :=
  match s1, s2 with
  | [], s | s, [] => Some s
  | a :: s1', b :: s2' =>
      rest ← broadcast_rev s1' s2';
      if bool_decide (a = b) then Some (a :: rest)
      else if bool_decide (a = 1%nat) then Some (b :: rest)
      else if bool_decide (b = 1%nat) then Some (a :: rest)
      else None
  end.

Definition broadcast_shapes (s1 s2 : list nat) : option (list nat) :=
  reverse <$> broadcast_rev (reverse s1) (reverse s2).

(** The index into an operand of shape [s] for the index [idx] of the
    broadcast result. *)
Definition bidx (s idx : list nat) : list nat :=
  zip_with (λ n i, if bool_decide (n = 1%nat) then 0%nat else i) s
           (drop (length idx - length s) idx).

(** An elementwise binary operation with broadcasting. *)
Definition binop {A B C} (f : A → B → C) (t1 : tensor A) (t2 : tensor B) : option (tensor C) :=
  s ← broadcast_shapes (shape t1) (shape t2);
  Some (T s (λ idx, f (elem t1 (bidx (shape t1) idx)) (elem t2 (bidx (shape t2) idx)))).

(** [t.unsqueeze(d)], also written [t[:, ..., None]]. *)
Definition unsqueeze {A} (d : nat) (t : tensor A) : option (tensor A) :=
  if bool_decide (d ≤ length (shape t))%nat then
    Some (T (take d (shape t) ++ 1%nat :: drop d (shape t)) (λ idx, elem t (delete d idx)))
  else None.

(** [torch.stack((t1, t2), dim=d)] *)
Definition stack2 {A} (d : nat) (t1 t2 : tensor A) : option (tensor A) :=
  if bool_decide (shape t1 = shape t2 ∧ (d ≤ length (shape t1))%nat) then
    Some (T (take d (shape t1) ++ 2%nat :: drop d (shape t1))
            (λ idx, elem (if bool_decide (idx !!! d = 0%nat) then t1 else t2) (delete d idx)))
  else None.

(** The row-major multi-index of position [k] in shape [s]. *)
Fixpoint unravel (s : list nat) (k : nat) : list nat :=
  match s with
  | [] => []
  | _ :: s' => (k / product s')%nat :: unravel s' (k mod product s')%nat
  end.

(** [t.flatten(d)]: dimensions [d] to the last become one. *)
Definition flatten {A} (d : nat) (t : tensor A) : option (tensor A) :=
  if bool_decide (d < length (shape t))%nat then
    Some (T (take d (shape t) ++ [product (drop d (shape t))])
            (λ idx, elem t (take d idx ++ unravel (drop d (shape t)) (idx !!! d))))
  else None.

(** [torch.cat((t1, t2), dim=d)] for tensors of the same rank. *)
Definition cat2 {A} (d : Z) (t1 t2 : tensor A) : option (tensor A) :=
  d ← wrap_dim (length (shape t1)) d;
  n1 ← shape t1 !! d;
  n2 ← shape t2 !! d;
  if bool_decide (<[d := 0%nat]> (shape t1) = <[d := 0%nat]> (shape t2)) then
    Some (T (<[d := (n1 + n2)%nat]> (shape t1))
            (λ idx, let i := idx !!! d in
                    if bool_decide (i < n1)%nat then elem t1 idx
                    else elem t2 (<[d := (i - n1)%nat]> idx)))
  else None.

(** The position of [k] in [perm]. *)
Fixpoint position (k : nat) (perm : list nat) : nat :=
  match perm with
  | [] => 0%nat
  | p :: perm' => if bool_decide (p = k) then 0%nat else S (position k perm')
  end.

(** [t.permute(perm...)]: dimension [j] of the result is dimension [perm[j]]
    of [t]. *)
Definition permute {A} (perm : list nat) (t : tensor A) : option (tensor A) :=
  let rank := length (shape t) in
  if bool_decide (length perm = rank ∧ Forall (λ k, k ∈ perm) (seq 0 rank)) then
    Some (T ((λ p, shape t !!! p) <$> perm)
            (λ idx, elem t ((λ k, idx !!! position k perm) <$> seq 0 rank)))
  else None.

(** [t.repeat(reps...)]: [reps] has at least the rank of [t]; missing leading
    dimensions of [t] count as 1. *)
Definition repeat {A} (reps : list nat) (t : tensor A) : option (tensor A) :=
  let extra := (length reps - length (shape t))%nat in
  if bool_decide (length (shape t) ≤ length reps)%nat then
    let s := replicate extra 1%nat ++ shape t in
    Some (T (zip_with Nat.mul reps s)
            (λ idx, elem t (drop extra (zip_with (λ i n, i mod n)%nat idx s))))
  else None.

(** All indices of a shape, in row-major order. *)
Fixpoint all_indices (s : list nat) : list (list nat) :=
  match s with
  | [] => [[]]
  | n :: s' => i ← seq 0 n; (i ::.) <$> all_indices s'
  end.

(** [nn.Embedding.forward]: the rows of the [N, C] table [weight] selected by
    an index tensor; an index outside [0, N) raises. *)
Definition embedding {A} (weight : tensor A) (idx : tensor Z) : option (tensor A) :=
  match shape weight with
  | [n; c] =>
      if bool_decide (Forall (λ i, 0 ≤ elem idx i < Z.of_nat n) (all_indices (shape idx))) then
        Some (T (shape idx ++ [c])
                (λ i, let r := length (shape idx) in
                      elem weight [Z.to_nat (elem idx (take r i)); i !!! r]))
      else None
  | _ => None
  end.

End Tensor.

(** ** models/DETR/model/position_encoding.py *)

Module PositionEncoding.
Import Tensor.

Record PositionEmbeddingSine (F : Type) := {
  num_pos_feats : Z;
  temperature : Z;
  normalize : bool;
  scale : F;
}.
Arguments num_pos_feats {F}. Arguments temperature {F}.
Arguments normalize {F}. Arguments scale {F}.

Record PositionEmbeddingLearned (F : Type) := {
  row_embed : tensor F;
  col_embed : tensor F;
}.
Arguments row_embed {F}. Arguments col_embed {F}.

Inductive position_encoding (F : Type) :=
  | Sine (m : PositionEmbeddingSine F)
  | Learned (m : PositionEmbeddingLearned F).
Arguments Sine {F}. Arguments Learned {F}.

Inductive exn :=
  | ValueError (value : string)
  | RuntimeError.

(** The argument object of [build_position_encoding]: the two attributes it
    documents, and the further position-encoding settings of the
    configuration surface. *)
Record Args (F : Type) := {
  position_embedding : string;
  hidden_dim : Z;
  args_temperature : Z;
  args_normalize : bool;
  args_scale : option F;
}.
Arguments position_embedding {F}. Arguments hidden_dim {F}.
Arguments args_temperature {F}. Arguments args_normalize {F}. Arguments args_scale {F}.

Section position_encoding.
Context {F : Type} `{!Arith F}.

(** [PositionEmbeddingSine.__init__] *)
Definition sine_init (num_pos_feats : Z) (temperature : Z) (normalize : bool)
    (scale : option F) : PositionEmbeddingSine F :=
  let scale := match scale with
               | None => fmul (of_Z 2) fpi
               | Some s => s
               end in
  {| num_pos_feats := num_pos_feats; temperature := temperature;
     normalize := normalize; scale := scale |}.

(** The defaults of [PositionEmbeddingSine.__init__]. *)
Definition default_num_pos_feats : Z := 128.
Definition default_temperature : Z := 10000.
Definition default_normalize : bool := false.
Definition default_scale : option F := None.

Definition of_bool (b : bool) : F := of_Z (if b then 1 else 0).

Definition eps : F := of_Q (1 # 1000000).

(** [y_embed[:, -1:, :] + eps] and [x_embed[:, :, -1:] + eps]: the divisors
    of the normalization (lines 37 and 38), for the cumulative counts. *)
Definition y_divisor (y_embed : tensor F) : option (tensor F) :=
  last ← slice 1 (-1) 1 y_embed;
  Some (tmap (λ v, fadd v eps) last).

Definition x_divisor (x_embed : tensor F) : option (tensor F) :=
  last ← slice 2 (-1) 1 x_embed;
  Some (tmap (λ v, fadd v eps) last).

(** Lines 30 to 38 of [PositionEmbeddingSine.forward]: the coordinates
    [(y_embed, x_embed)]. *)
Definition embed_coords (self : PositionEmbeddingSine F) (mask : tensor bool)
  : option (tensor F * tensor F) :=
  let not_mask := tmap negb mask in
  y_embed ← cumsum 1 (tmap of_bool not_mask);
  x_embed ← cumsum 2 (tmap of_bool not_mask);
  if normalize self then
    dy ← y_divisor y_embed;
    y_embed ← binop fdiv y_embed dy;
    let y_embed := tmap (λ v, fmul v (scale self)) y_embed in
    dx ← x_divisor x_embed;
    x_embed ← binop fdiv x_embed dx;
    let x_embed := tmap (λ v, fmul v (scale self)) x_embed in
    Some (y_embed, x_embed)
  else Some (y_embed, x_embed).

Context `{!Transc F}.

(** Line 42: the wavelength of frequency channel [i]. *)
Definition dim_t_at (self : PositionEmbeddingSine F) (i : F) : F :=
  fpow (of_Z (temperature self))
       (fdiv (fmul (of_Z 2) (ffloordiv i (of_Z 2))) (of_Z (num_pos_feats self))).

(** Line 49 (and 50): sine of the even channels, cosine of the odd ones,
    stacked and flattened. *)
Definition interleave (pos : tensor F) : option (tensor F) :=
  evens ← slice 3 0 2 pos;
  odds ← slice 3 1 2 pos;
  stacked ← stack2 4 (tmap fsin evens) (tmap fcos odds);
  flatten 3 stacked.

(** [PositionEmbeddingSine.forward], on the mask of the nested tensor. *)
Definition sine_forward (self : PositionEmbeddingSine F) (mask : tensor bool)
  : option (tensor F) :=
  '(y_embed, x_embed) ← embed_coords self mask;
  dim_t ← arange of_Z (num_pos_feats self);
  let dim_t := tmap (dim_t_at self) dim_t in
  x4 ← unsqueeze 3 x_embed;
  pos_x ← binop fdiv x4 dim_t;
  y4 ← unsqueeze 3 y_embed;
  pos_y ← binop fdiv y4 dim_t;
  pos_x ← interleave pos_x;
  pos_y ← interleave pos_y;
  pos ← cat2 3 pos_y pos_x;
  permute [0; 3; 1; 2]%nat pos.

(** [PositionEmbeddingLearned.__init__] with [reset_parameters]: two
    [50, num_pos_feats] tables filled with the values [rows] and [cols] drawn
    by [nn.init.uniform_]; a negative size raises. *)
Definition max_extent : nat := 50.

Definition learned_init (rows cols : nat → nat → F) (num_pos_feats : Z)
  : option (PositionEmbeddingLearned F) :=
  if bool_decide (0 ≤ num_pos_feats) then
    let table (draw : nat → nat → F) :=
      T [max_extent; Z.to_nat num_pos_feats] (λ idx, draw (idx !!! 0%nat) (idx !!! 1%nat)) in
    Some {| row_embed := table rows; col_embed := table cols |}
  else None.

(** [PositionEmbeddingLearned.forward] *)
Definition learned_forward {A} (self : PositionEmbeddingLearned F) (mask : tensor A)
  : option (tensor F) :=
  match reverse (shape mask) with
  | w :: h :: _ =>
      i ← arange id (Z.of_nat w);
      j ← arange id (Z.of_nat h);
      x_emb ← embedding (col_embed self) i;
      y_emb ← embedding (row_embed self) j;
      xs ← unsqueeze 0 x_emb ≫= repeat [h; 1; 1]%nat;
      ys ← unsqueeze 1 y_emb ≫= repeat [1; w; 1]%nat;
      pos ← cat2 (-1) xs ys;
      pos ← permute [2; 0; 1]%nat pos;
      pos ← unsqueeze 0 pos;
      repeat [shape mask !!! 0%nat; 1; 1; 1]%nat pos
  | _ => None
  end.

(** [build_position_encoding]; [rows] and [cols] are the values the learned
    tables are initialised with. The [ValueError] carries the rejected
    option value. *)
Definition build_position_encoding (rows cols : nat → nat → F) (args : Args F)
  : exn + position_encoding F :=
  let N_steps := hidden_dim args `div` 2 in
  if bool_decide (position_embedding args ∈ ["v2"; "sine"]) then
    inr (Sine (sine_init N_steps default_temperature true default_scale))
  else if bool_decide (position_embedding args ∈ ["v3"; "learned"]) then
    match learned_init rows cols N_steps with
    | Some m => inr (Learned m)
    | None => inl RuntimeError
    end
  else inl (ValueError (position_embedding args)).

End position_encoding.
End PositionEncoding.

(** ** Carriers for the scalars *)

(** Exact rational arithmetic, without rounding: it agrees with the float32
    computation where every value is exactly representable, as the
    cumulative counts (integers below [2^24]) are. [math.pi] is the double
    nearest to pi. *)
Module Rational.

Definition math_pi : Q := 884279719003555 # 281474976710656.

#[global] Instance arith : Arith Q := {|
  of_Z := inject_Z;
  of_Q := λ q, q;
  fpi := math_pi;
  fadd := Qplus;
  fsub := Qminus;
  fmul := Qmult;
  fdiv := Qdiv;
  fabs := Qabs;
  fneg := Qopp;
|}.

End Rational.

(** IEEE 754 binary32 with rounding to nearest even, as [torch.float32]
    tensors compute. The Python floats [math.pi], [2 * math.pi] and [1e-6]
    are doubles; entering an operation with a float32 tensor they are first
    rounded to float32 (doubling is exact, so [2 * math.pi] rounds to twice
    the float32 nearest to [math.pi]). *)
Module Float32.

Definition prec : Z := 24.
Definition emax : Z := 128.

Definition of_int (z : Z) : spec_float := binary_normalize prec emax z 0 false.

(** The float32 nearest to [math.pi], 0x40490FDB. *)
Definition pi32 : spec_float := S754_finite false 13176795 (-22).

(** A decimal constant [n / d] with [n] and [d] below [2^24] in absolute
    value: the correctly rounded quotient. *)
Definition of_ratio (q : Q) : spec_float :=
  SFdiv prec emax (of_int (Qnum q)) (of_int (Z.pos (Qden q))).

#[global] Instance arith : Arith spec_float := {|
  of_Z := of_int;
  of_Q := of_ratio;
  fpi := pi32;
  fadd := SFadd prec emax;
  fsub := SFsub prec emax;
  fmul := SFmul prec emax;
  fdiv := SFdiv prec emax;
  fabs := SFabs;
  fneg := SFopp;
|}.

(** The exact value of a finite float; infinities and NaN have none. *)
Definition to_Q (x : spec_float) : option Q :=
  match x with
  | S754_zero _ => Some 0%Q
  | S754_finite s m e =>
      let z := if s then Z.neg m else Z.pos m in
      Some (if bool_decide (0 ≤ e) then inject_Z (z * 2 ^ e)
            else Qmake z (Z.to_pos (2 ^ (- e))))
  | _ => None
  end.

#[global] Instance spec_float_eq_dec : EqDecision spec_float.
Proof. solve_decision. Defined.

End Float32.

(** The term algebra: every operation is a constructor, the functions of
    the missing geometry module are the symbols [EToCorners] and [EGiou]. *)
Module Sym.

Inductive expr :=
  | EInt (z : Z)
  | ELit (q : Q)
  | EVar (name : string)
  | EPi
  | EAdd (a b : expr)
  | ESub (a b : expr)
  | EMul (a b : expr)
  | EDiv (a b : expr)
  | EAbs (a : expr)
  | ENeg (a : expr)
  | EFloorDiv (a b : expr)
  | EPow (a b : expr)
  | ESin (a : expr)
  | ECos (a : expr)
  | EExp (a : expr)
  | ELog (a : expr)
  | EToCorners (k : nat) (b0 b1 b2 b3 : expr)
  | EGiou (a0 a1 a2 a3 b0 b1 b2 b3 : expr).

#[global] Instance arith : Arith expr := {|
  of_Z := EInt;
  of_Q := ELit;
  fpi := EPi;
  fadd := EAdd;
  fsub := ESub;
  fmul := EMul;
  fdiv := EDiv;
  fabs := EAbs;
  fneg := ENeg;
|}.

#[global] Instance transc : Transc expr := {|
  ffloordiv := EFloorDiv;
  fpow := EPow;
  fsin := ESin;
  fcos := ECos;
  fexp := EExp;
  flog := ELog;
|}.

#[global] Instance geometry : Criterion.Geometry expr := {|
  Criterion.to_corners := λ b,
    let c k := EToCorners k (Criterion.bx0 b) (Criterion.bx1 b) (Criterion.bx2 b) (Criterion.bx3 b) in
    Criterion.Box (c 0%nat) (c 1%nat) (c 2%nat) (c 3%nat);
  Criterion.giou := λ a b,
    EGiou (Criterion.bx0 a) (Criterion.bx1 a) (Criterion.bx2 a) (Criterion.bx3 a)
          (Criterion.bx0 b) (Criterion.bx1 b) (Criterion.bx2 b) (Criterion.bx3 b);
|}.

(** The value of a term of integers and arithmetic in IEEE 754 single
    precision (round to nearest even); [None] for the other terms. *)
Definition prec32 : Z := 24.
Definition emax32 : Z := 128.

Fixpoint eval32 (e : expr) : option spec_float :=
  match e with
  | EInt z => Some (binary_normalize prec32 emax32 z 0 false)
  | EAdd a b => x ← eval32 a; y ← eval32 b; Some (SFadd prec32 emax32 x y)
  | ESub a b => x ← eval32 a; y ← eval32 b; Some (SFsub prec32 emax32 x y)
  | EMul a b => x ← eval32 a; y ← eval32 b; Some (SFmul prec32 emax32 x y)
  | EDiv a b => x ← eval32 a; y ← eval32 b; Some (SFdiv prec32 emax32 x y)
  | EAbs a => x ← eval32 a; Some (SFabs x)
  | ENeg a => x ← eval32 a; Some (SFopp x)
  | _ => None
  end.

End Sym.

(** ** Statements in the words of the specification *)

Module Spec.
Import Criterion.

Section spec.
Context {F : Type} `{!Arith F, !Transc F, !Geometry F}.

(** An index that addresses one of [n] entries. *)
Definition valid_index (n : nat) (i : Z) : Prop := 0 ≤ i < Z.of_nat n.

(** A per-image assignment over [Q] query slots and [N] targets: equally
    many query and target indices, all of them in range. *)
Definition wf_assignment (Q N : nat) (a : assignment) : Prop :=
  length a.1 = length a.2 ∧ Forall (valid_index Q) a.1 ∧ Forall (valid_index N) a.2.

(** The number of matched pairs of the batch. *)
Definition num_matched (indices : list assignment) : nat :=
  sum_list ((λ a : assignment, length a.1) <$> indices).

(** The matched slots in batch order, and per image in the order of its
    matches: (image index, query index). *)
Definition matched_slots (indices : list assignment) : list (Z * Z) :=
  concat (imap (λ i (a : assignment), (λ q, (Z.of_nat i, q)) <$> a.1) indices).

Definition box0 : box F := Box (of_Z 0) (of_Z 0) (of_Z 0) (of_Z 0).

(** The matched (predicted box, target box) pairs of one image and of the
    batch. *)
Definition image_pairs (row : list (box F)) (t : target F) (a : assignment)
  : list (box F * box F) :=
  zip_with (λ q j, (nth (Z.to_nat q) row box0, nth (Z.to_nat j) (boxes t) box0)) a.1 a.2.

Definition matched_pairs (all_boxes : list (list (box F))) (targets : list (target F))
    (indices : list assignment) : list (box F * box F) :=
  concat (zip_with (λ row ta, image_pairs row ta.1 ta.2) all_boxes (zip targets indices)).

(** L1 distance of a pair, coordinate by coordinate. *)
Definition l1_terms (pg : box F * box F) : list F :=
  [fabs (fsub (bx0 pg.1) (bx0 pg.2)); fabs (fsub (bx1 pg.1) (bx1 pg.2));
   fabs (fsub (bx2 pg.1) (bx2 pg.2)); fabs (fsub (bx3 pg.1) (bx3 pg.2))].

Definition spec_loss_bbox (pairs : list (box F * box F)) (num_boxes : F) : F :=
  fdiv (fsum (pairs ≫= l1_terms)) num_boxes.

Definition spec_loss_giou (pairs : list (box F * box F)) (num_boxes : F) : F :=
  fdiv (fsum ((λ pg, fsub (of_Z 1) (giou (to_corners pg.1) (to_corners pg.2))) <$> pairs))
       num_boxes.

(** The dense label rows: every slot starts as the no-object class, then
    the matched slots of the image take the labels of their targets. *)
Definition dense_row (nc : nat) (Q : nat) (t : target F) (a : assignment) : list Z :=
  foldl (λ row qj, <[Z.to_nat qj.1 := nth (Z.to_nat qj.2) (labels t) 0]> row)
        (replicate Q (Z.of_nat nc)) (zip a.1 a.2).

Definition dense_labels (nc : nat) (logits : list (list (list F)))
    (targets : list (target F)) (indices : list assignment) : list (list Z) :=
  zip_with (λ row ta, dense_row nc (length row) ta.1 ta.2) logits (zip targets indices).

(** The class weights: 1.0 for a real class, [eos] for the no-object class. *)
Definition class_weight (nc : nat) (eos : F) (y : Z) : F :=
  if bool_decide (y = Z.of_nat nc) then eos else of_Q 1.

(** Negative log-likelihood of class [y] under the logits [x]. *)
Definition nll (x : list F) (y : Z) : F :=
  fneg (fsub (nth (Z.to_nat y) x (of_Z 0)) (flog (fsum (fexp <$> x)))).

(** The weighted mean of the negative log-likelihood over all slots. *)
Definition weighted_mean_ce (nc : nat) (eos : F) (logits : list (list (list F)))
    (dense : list (list Z)) : F :=
  let slots := zip (concat logits) (concat dense) in
  fdiv (fsum ((λ xy, fmul (class_weight nc eos xy.2) (nll xy.1 xy.2)) <$> slots))
       (fsum ((λ xy, class_weight nc eos xy.2) <$> slots)).

(** Steps 1 to 4 for one layer: match, then the three terms with the given
    normalizer. *)
Definition layer_terms (self : SetCriterion F) (o : layer_outputs F)
    (targets : list (target F)) (num_boxes : F) : option (gmap string F) :=
  indices ← matcher self o targets;
  lc ← loss_labels self o targets indices num_boxes;
  lb ← loss_boxes self o targets indices num_boxes;
  Some (dict_update lc lb).

(** The names of the three terms. *)
Definition term_names : list string := ["loss_ce"; "loss_bbox"; "loss_giou"].

(** The name of a term of auxiliary layer [k]. *)
Definition aux_name (name : string) (k : nat) : string := name +:+ "_" +:+ pretty k.

End spec.
End Spec.

(** ** Statements about the position encodings *)

Module SpecPos.
Import Tensor PositionEncoding.

(** The cumulative count of the valid pixels among the first [n] positions
    of a row or column; [valid k] tells whether position [k] is valid. *)
Definition valid_count {F : Type} `{!Arith F} (valid : nat → bool) (n : nat) : F :=
  fsum ((λ k, of_bool (valid k)) <$> seq 0 n).

(** The coordinate of position [i] of a row or column of [n] positions:
    its cumulative valid count, with normalization divided by the last
    count plus epsilon and multiplied by the scale. *)
Definition coord_of {F : Type} `{!Arith F} (self : PositionEmbeddingSine F)
    (valid : nat → bool) (n i : nat) : F :=
  let c := valid_count valid (S i) in
  if normalize self then fmul (fdiv c (fadd (valid_count valid n) eps)) (scale self)
  else c.

(** The number of valid (unpadded) positions among the first [n]. *)
Definition valid_pixels (valid : nat → bool) (n : nat) : nat :=
  length (filter (λ k, valid k = true) (seq 0 n)).

Definition two_pi : Q := 2 * Rational.math_pi.

(** The largest height or width for which the float32 facts below are
    checked by evaluation. *)
Definition checked_extent : nat := 4096.


(** The float32 facts about a count [k], decided by evaluation: adding 1
    or 0 to it is exact, and adding epsilon gives a positive number. *)
Definition count_exact (k : nat) : bool :=
  let c : spec_float := of_Z (Z.of_nat k) in
  bool_decide (fadd c (of_Z 1) = of_Z (Z.of_nat (S k)))
  && bool_decide (fadd c (of_Z 0) = c)
  && match Float32.to_Q (fadd c eps) with
     | Some d => negb (Qle_bool d 0)
     | None => false
     end.


(** The float32 coordinate at cumulative count [c] of a row or column with
    [K] valid positions, with the default scale, and its exact value. *)
Definition coord32 (K c : nat) : spec_float :=
  fmul (fdiv (of_Z (Z.of_nat c)) (fadd (of_Z (Z.of_nat K)) eps)) (fmul (of_Z 2) fpi).

Definition coord_value (K c : nat) : Q := default 0%Q (Float32.to_Q (coord32 K c)).

(** The largest height or width for which the range of the coordinates is
    checked by evaluation. *)
Definition range_extent : nat := 256.

(** Decided by evaluation: the coordinate is a number between 0 and the
    float32 scale, and not above the coordinate of the next count. *)
Definition coord_in_range (K c : nat) : bool :=
  match Float32.to_Q (coord32 K c), Float32.to_Q (fmul (of_Z 2) fpi) with
  | Some y, Some s =>
      Qle_bool 0 y && Qle_bool y s
      && (if bool_decide (c < K)%nat then Qle_bool y (coord_value K (S c)) else true)
  | _, _ => false
  end.

Section spec_pos.
Context {F : Type} `{!Arith F, !Transc F}.

(** The wavelength of frequency channel [i]:
    [temperature ^ (2 * floor(i / 2) / num_pos_feats)]. *)
Definition wavelength (self : PositionEmbeddingSine F) (i : nat) : F :=
  fpow (of_Z (temperature self))
       (fdiv (fmul (of_Z 2) (ffloordiv (of_Z (Z.of_nat i)) (of_Z 2)))
             (of_Z (num_pos_feats self))).

(** The value of channel [i] of one axis at a pixel with coordinate
    [coord]: sine for an even channel, cosine for an odd one. *)
Definition channel_value (self : PositionEmbeddingSine F) (coord : F) (i : nat) : F :=
  (if Nat.even i then fsin else fcos) (fdiv coord (wavelength self i)).

(** The [2 * C, H, W] map of the learned encoding: the column block, then
    the row block. *)
Definition learned_map (self : PositionEmbeddingLearned F) (C H W : nat) : tensor F :=
  T [(2 * C)%nat; H; W]
    (λ idx, let c := idx !!! 0%nat in
            if bool_decide (c < C)%nat
            then elem (col_embed self) [idx !!! 2%nat; c]
            else elem (row_embed self) [idx !!! 1%nat; (c - C)%nat]).

End spec_pos.
End SpecPos.

(** ** Concrete inputs *)

Module Examples.
Import Criterion Tensor PositionEncoding Sym.

Definition v (name : string) : expr := EVar name.

(** A batch of two images with two query slots each; the first image has
    two targets, the second one. *)
Definition ex_logits : list (list (list expr)) :=
  [[[v "a00"; v "a01"; v "a02"]; [v "a10"; v "a11"; v "a12"]];
   [[v "b00"; v "b01"; v "b02"]; [v "b10"; v "b11"; v "b12"]]].

Definition ex_boxes : list (list (box expr)) :=
  [[Box (v "p0") (v "p1") (v "p2") (v "p3"); Box (v "q0") (v "q1") (v "q2") (v "q3")];
   [Box (v "r0") (v "r1") (v "r2") (v "r3"); Box (v "s0") (v "s1") (v "s2") (v "s3")]].

Definition ex_layer : layer_outputs expr := LayerOutputs (Some ex_logits) (Some ex_boxes).

Definition ex_targets : list (target expr) :=
  [Target [1; 0] [Box (v "t0") (v "t1") (v "t2") (v "t3");
                  Box (v "u0") (v "u1") (v "u2") (v "u3")];
   Target [0] [Box (v "w0") (v "w1") (v "w2") (v "w3")]].

Definition ex_indices : list assignment := [([0; 1], [1; 0]); ([1], [0])].

Definition ex_criterion : SetCriterion expr :=
  init 2 (λ _ _, Some ex_indices) ∅ (v "eos").

(** A batch of one image without targets, one query slot. *)
Definition empty_layer : layer_outputs expr :=
  LayerOutputs (Some [[[v "a"; v "b"; v "c"]]])
               (Some [[Box (v "p0") (v "p1") (v "p2") (v "p3")]]).

Definition empty_targets : list (target expr) := [Target [] []].

Definition empty_criterion : SetCriterion expr :=
  init 2 (λ _ _, Some [([], [])]) ∅ (v "eos").

(** Masks and position encodings. *)
Definition ex_mask : tensor bool :=
  T [1; 2; 3]%nat (λ idx, bool_decide (idx !!! 2%nat = 2%nat)).

Definition ex_sine : PositionEmbeddingSine expr := sine_init 2 10000 true None.

Definition odd_sine : PositionEmbeddingSine expr := sine_init 3 10000 true None.

Definition float_sine : PositionEmbeddingSine spec_float := sine_init 2 10000 true None.

Definition ex_rows (i c : nat) : expr := v ("row" +:+ pretty i +:+ "_" +:+ pretty c).
Definition ex_cols (i c : nat) : expr := v ("col" +:+ pretty i +:+ "_" +:+ pretty c).

Definition ex_learned : PositionEmbeddingLearned expr :=
  {| row_embed := T [max_extent; 2%nat] (λ idx, ex_rows (idx !!! 0%nat) (idx !!! 1%nat));
     col_embed := T [max_extent; 2%nat] (λ idx, ex_cols (idx !!! 0%nat) (idx !!! 1%nat)) |}.

Definition ex_args (option : string) (dim : Z) : Args expr :=
  {| position_embedding := option; hidden_dim := dim;
     args_temperature := 20; args_normalize := false; args_scale := Some (EInt 1) |}.

End Examples.

(** * Proofs *)

Import Criterion Spec.

(** ** Sequences *)

Lemma py_index_valid {A} (l : list A) (i : Z) :
  valid_index (length l) i → py_index l i = l !! Z.to_nat i.
Proof.
  intros Hi. unfold py_index. rewrite bool_decide_eq_true_2; done.
Qed.

Lemma py_index_valid_nth {A} (l : list A) (i : Z) (d : A) :
  valid_index (length l) i → py_index l i = Some (nth (Z.to_nat i) l d).
Proof.
  intros Hi. rewrite py_index_valid by done.
  destruct (nth_lookup_or_length l (Z.to_nat i) d) as [->|Hge]; [done|].
  unfold valid_index in Hi. lia.
Qed.

Lemma index_select_valid {A} (l : list A) (J : list Z) (d : A) :
  Forall (valid_index (length l)) J →
  index_select l J = Some ((λ j, nth (Z.to_nat j) l d) <$> J).
Proof.
  intros HJ. unfold index_select. apply mapM_Some.
  induction HJ as [|j J Hj HJ IH]; simpl; constructor; auto.
  by apply py_index_valid_nth.
Qed.

Lemma torch_cat_Some {A} (ts : list (list A)) :
  ts ≠ [] → torch_cat ts = Some (concat ts).
Proof. by destruct ts. Qed.

Lemma Forall2_concat {A B} (P : A → B → Prop) (xs : list (list A)) (ys : list (list B)) :
  Forall2 (Forall2 P) xs ys → Forall2 P (concat xs) (concat ys).
Proof. induction 1; simpl; [constructor|]. by apply Forall2_app. Qed.

Lemma concat_fmap_bind {A B} (f : A → list B) (l : list A) :
  concat (f <$> l) = l ≫= f.
Proof. induction l as [|x l IH]; csimpl; [done|]. by rewrite IH. Qed.

(** ** _get_src_permutation_idx *)

Lemma src_idx_fmap (indices : list assignment) :
  (λ '(src, _), src) <$> indices = fst <$> indices.
Proof. apply list_fmap_ext. by intros ? [??] ?. Qed.

Lemma batch_idx_imap (indices : list assignment) :
  imap (λ i '(src, _), replicate (length src) (Z.of_nat i)) indices
  = imap (λ i (a : assignment), replicate (length a.1) (Z.of_nat i)) indices.
Proof. apply imap_ext. by intros ? [??] ?. Qed.

Lemma zip_batch_src (g : nat → Z) (indices : list assignment) :
  zip (concat (imap (λ i (a : assignment), replicate (length a.1) (g i)) indices))
      (concat (fst <$> indices))
  = concat (imap (λ i (a : assignment), (λ q, (g i, q)) <$> a.1) indices).
Proof.
  revert g. induction indices as [|[src tgt] indices IH]; intros g; simpl; [done|].
  rewrite zip_with_app by by rewrite length_replicate.
  f_equal; [|apply (IH (g ∘ S))].
  clear. induction src as [|q src IH]; simpl; by f_equal.
Qed.

Lemma get_src_permutation_idx_Some (indices : list assignment) :
  indices ≠ [] →
  _get_src_permutation_idx indices
  = Some (concat (imap (λ i (a : assignment), replicate (length a.1) (Z.of_nat i)) indices),
          concat (fst <$> indices)).
Proof.
  intros Hne. unfold _get_src_permutation_idx.
  rewrite batch_idx_imap, src_idx_fmap.
  rewrite !torch_cat_Some; [done| |].
  - by destruct indices.
  - by destruct indices.
Qed.

Lemma length_batch_idx (g : nat → Z) (indices : list assignment) :
  length (concat (imap (λ i (a : assignment), replicate (length a.1) (g i)) indices))
  = num_matched indices.
Proof.
  revert g. unfold num_matched.
  induction indices as [|a indices IH]; intros g; csimpl; [done|].
  rewrite length_app, length_replicate. f_equal. apply (IH (g ∘ S)).
Qed.

Lemma length_src_idx (indices : list assignment) :
  length (concat (fst <$> indices)) = num_matched indices.
Proof.
  unfold num_matched. induction indices as [|a indices IH]; csimpl; [done|].
  rewrite length_app. by rewrite IH.
Qed.

(** C5 (as amended): for every non-empty per-image assignment list,
    [_get_src_permutation_idx] returns a batch-index and a slot-index
    sequence of the same length, the number of matched pairs of the batch.
    The batch-index sequence repeats each image's index once per match of
    that image, the slot-index sequence holds the matched query indices;
    both keep the order of the matches within an image and follow the batch
    order, so that read in parallel they are the matched slots. *)
Theorem get_src_permutation_idx_spec (indices : list assignment) :
  indices ≠ [] →
  ∃ batch_idx src_idx,
    _get_src_permutation_idx indices = Some (batch_idx, src_idx)
    ∧ length batch_idx = length src_idx
    ∧ length src_idx = num_matched indices
    ∧ batch_idx
      = concat (imap (λ i (a : assignment), replicate (length a.1) (Z.of_nat i)) indices)
    ∧ src_idx = concat (fst <$> indices)
    ∧ zip batch_idx src_idx = matched_slots indices.
Proof.
  intros Hne. eexists _, _. split; [by apply get_src_permutation_idx_Some|].
  rewrite length_batch_idx, length_src_idx.
  repeat split. apply zip_batch_src.
Qed.

Lemma get_src_permutation_idx_spec_witness :
  _get_src_permutation_idx [([0; 1], [1; 0]); ([0], [0])] = Some ([0; 0; 1], [0; 1; 0])
  ∧ ∃ batch_idx src_idx,
      _get_src_permutation_idx [([0; 1], [1; 0]); ([0], [0])] = Some (batch_idx, src_idx)
      ∧ length batch_idx = length src_idx
      ∧ length src_idx = num_matched [([0; 1], [1; 0]); ([0], [0])]
      ∧ batch_idx
        = concat (imap (λ i (a : assignment), replicate (length a.1) (Z.of_nat i))
                       [([0; 1], [1; 0]); ([0], [0])])
      ∧ src_idx = concat (fst <$> [([0; 1], [1; 0]); ([0], [0])])
      ∧ zip batch_idx src_idx = matched_slots [([0; 1], [1; 0]); ([0], [0])].
Proof.
  split; [reflexivity|].
  apply (get_src_permutation_idx_spec [([0; 1], [1; 0]); ([0], [0])]). discriminate.
Defined.

(** C5 (as stated) fails on the empty assignment list: [torch.cat] of an
    empty list of tensors raises, no sequences are returned. *)
Lemma get_src_permutation_idx_empty :
  _get_src_permutation_idx [] = None
  ∧ ¬ ∃ batch_idx src_idx, _get_src_permutation_idx [] = Some (batch_idx, src_idx).
Proof. split; [reflexivity|]. intros (b & s & H). discriminate H. Qed.

(** ** Gathering the matched boxes *)

Section gather.
Context {F : Type} `{!Arith F, !Transc F, !Geometry F}.

Lemma index2_rows {A} (d : A) (pre rows : list (list A)) (indices : list assignment) :
  Forall2 (λ row (a : assignment), Forall (valid_index (length row)) a.1) rows indices →
  Forall2 (Forall2 (λ (bs : Z * Z) y, (row ← py_index (pre ++ rows) bs.1; py_index row bs.2) = Some y))
    (imap (λ i (a : assignment), (λ q, (Z.of_nat (length pre + i), q)) <$> a.1) indices)
    (zip_with (λ row (a : assignment), (λ q, nth (Z.to_nat q) row d) <$> a.1) rows indices).
Proof.
  intros Hwf. revert pre.
  induction Hwf as [|row a rows indices Ha _ IH]; intros pre; simpl; constructor.
  - apply Forall2_fmap, Forall_Forall2_diag.
    eapply Forall_impl; [exact Ha|]. intros q Hq. simpl.
    rewrite Nat.add_0_r, py_index_valid.
    + rewrite Nat2Z.id, list_lookup_middle by done. simpl.
      by apply py_index_valid_nth.
    + unfold valid_index. rewrite length_app. simpl. lia.
  - specialize (IH (pre ++ [row])).
    rewrite <-(assoc_L (++)) in IH. simpl in IH.
    erewrite imap_ext; [exact IH|].
    intros i x _. simpl. rewrite length_app. simpl.
    by replace (length pre + 1 + i)%nat with (length pre + S i)%nat by lia.
Qed.

Lemma index2_matched {A} (d : A) (rows : list (list A)) (indices : list assignment) :
  Forall2 (λ row (a : assignment), Forall (valid_index (length row)) a.1) rows indices →
  index2 rows
    (concat (imap (λ i (a : assignment), replicate (length a.1) (Z.of_nat i)) indices))
    (concat (fst <$> indices))
  = Some (concat (zip_with (λ row (a : assignment), (λ q, nth (Z.to_nat q) row d) <$> a.1)
                           rows indices)).
Proof.
  intros Hwf. unfold index2. rewrite zip_batch_src. apply mapM_Some.
  apply Forall2_concat.
  pose proof (index2_rows d [] rows indices Hwf) as H. simpl in H.
  eapply Forall2_impl; [exact H|]. intros l k Hlk.
  eapply Forall2_impl; [exact Hlk|]. by intros [b s] y.
Qed.

Lemma select_targets {A} (d : A) (proj : target F → list A)
    (targets : list (target F)) (indices : list assignment) :
  Forall2 (λ t (a : assignment), Forall (valid_index (length (proj t))) a.2) targets indices →
  mapM (λ '(t, (_, J)), index_select (proj t) J) (zip targets indices)
  = Some (zip_with (λ t (a : assignment), (λ j, nth (Z.to_nat j) (proj t) d) <$> a.2)
                   targets indices).
Proof.
  intros Hwf. apply mapM_Some.
  induction Hwf as [|t [src tgt] targets indices Ha _ IH]; simpl; constructor; [|done].
  by apply index_select_valid.
Qed.

Lemma diag_pairwise {A B C} (f : A → B → C) (pre : list B) (xs : list A) (ys : list B) :
  length xs = length ys →
  omap id (imap (λ i a, (f a <$> pre ++ ys) !! (length pre + i)%nat) xs) = zip_with f xs ys.
Proof.
  revert pre ys. induction xs as [|x xs IH]; intros pre [|y ys] Hlen; try done.
  simpl in *. rewrite Nat.add_0_r, list_lookup_fmap, list_lookup_middle by done. simpl.
  f_equal. specialize (IH (pre ++ [y]) ys). rewrite <-IH by lia.
  f_equal. apply imap_ext. intros i a _. simpl.
  rewrite <-(assoc_L (++)), length_app. simpl.
  by replace (length pre + 1 + i)%nat with (length pre + S i)%nat by lia.
Qed.

Lemma torch_diag_pairwise (xs ys : list (box F)) :
  length xs = length ys →
  torch_diag (generalized_box_iou xs ys) = zip_with giou xs ys.
Proof.
  intros Hlen. unfold torch_diag, generalized_box_iou.
  rewrite imap_fmap. rewrite <-(diag_pairwise giou [] xs ys Hlen). done.
Qed.

Lemma l1_loss_none_same (xs ys : list (box F)) :
  length xs = length ys →
  l1_loss_none xs ys = Some (l1_terms <$> zip xs ys).
Proof.
  intros Hlen. unfold l1_loss_none. rewrite bool_decide_eq_true_2 by done.
  f_equal. clear Hlen. revert ys.
  induction xs as [|x xs IH]; intros [|y ys]; simpl; try done. by rewrite IH.
Qed.

Lemma matched_pairs_zip (all_boxes : list (list (box F))) (targets : list (target F))
    (indices : list assignment) :
  length targets = length indices →
  Forall2 (λ t (a : assignment), length a.1 = length a.2) targets indices →
  matched_pairs all_boxes targets indices
  = zip (concat (zip_with (λ row (a : assignment), (λ q, nth (Z.to_nat q) row box0) <$> a.1)
                          all_boxes indices))
        (concat (zip_with (λ t (a : assignment), (λ j, nth (Z.to_nat j) (boxes t) box0) <$> a.2)
                          targets indices)).
Proof.
  intros _ Hlen. unfold matched_pairs. revert all_boxes.
  induction Hlen as [|t a targets indices Ha _ IH]; intros [|row all_boxes]; simpl; try done.
  rewrite zip_with_app by by rewrite !length_fmap.
  rewrite <-IH. f_equal. unfold image_pairs. simpl.
  rewrite zip_with_fmap_l, zip_with_fmap_r. done.
Qed.

End gather.

(** ** loss_boxes *)

Section loss_boxes.
Context {F : Type} `{!Arith F, !Transc F, !Geometry F}.

Lemma Forall3_Forall2_13 {A B C} (P : A → C → Prop) (R : A → B → C → Prop) xs ys zs :
  (∀ x y z, R x y z → P x z) → Forall3 R xs ys zs → Forall2 P xs zs.
Proof. intros HPR. induction 1; constructor; eauto. Qed.

Lemma Forall3_Forall2_23 {A B C} (P : B → C → Prop) (R : A → B → C → Prop) xs ys zs :
  (∀ x y z, R x y z → P y z) → Forall3 R xs ys zs → Forall2 P ys zs.
Proof. intros HPR. induction 1; constructor; eauto. Qed.

Lemma length_gathered {R A} (g : R → assignment → list A) (rows : list R)
    (indices : list assignment) (n : assignment → nat) :
  length rows = length indices →
  (∀ row a, length (g row a) = n a) →
  length (concat (zip_with g rows indices)) = sum_list (n <$> indices).
Proof.
  intros Hlen Hg. revert indices Hlen.
  induction rows as [|row rows IH]; intros [|a indices] Hlen; csimpl in *; try done.
  rewrite length_app, Hg, IH by lia. done.
Qed.

(** C2: for a non-empty batch whose assignment is well formed for the
    predictions and targets, [loss_boxes] computes both terms over the
    matched (predicted box, target box) pairs only: [loss_bbox] is the sum,
    over all matched pairs and all four coordinates, of the absolute
    differences, divided by [num_boxes]; [loss_giou] is the sum over the
    matched pairs of 1 minus the generalized IoU of the two boxes in corner
    form, divided by [num_boxes]. *)
Theorem loss_boxes_spec (self : SetCriterion F) (o : layer_outputs F)
    (targets : list (target F)) (indices : list assignment) (num_boxes : F)
    (all_boxes : list (list (box F))) :
  pred_boxes o = Some all_boxes →
  indices ≠ [] →
  Forall3 (λ row t a, wf_assignment (length row) (length (boxes t)) a)
          all_boxes targets indices →
  let pairs := matched_pairs all_boxes targets indices in
  loss_boxes self o targets indices num_boxes
  = Some (<["loss_giou" := spec_loss_giou pairs num_boxes]>
            (<["loss_bbox" := spec_loss_bbox pairs num_boxes]> ∅))
  ∧ length pairs = num_matched indices.
Proof.
  intros Hpb Hne Hwf pairs.
  assert (Hsrc : Forall2 (λ row (a : assignment), Forall (valid_index (length row)) a.1)
                         all_boxes indices).
  { eapply Forall3_Forall2_13; [|exact Hwf]. by intros ??? (?&?&?). }
  assert (Htgt : Forall2 (λ t (a : assignment), Forall (valid_index (length (boxes t))) a.2)
                         targets indices).
  { eapply Forall3_Forall2_23; [|exact Hwf]. by intros ??? (?&?&?). }
  assert (Hlen : Forall2 (λ (t : target F) (a : assignment), length a.1 = length a.2)
                         targets indices).
  { eapply Forall3_Forall2_23; [|exact Hwf]. by intros ??? (?&?&?). }
  pose proof (Forall2_length _ _ _ Hsrc) as Hl1.
  pose proof (Forall2_length _ _ _ Htgt) as Hl2.
  set (srcs := concat (zip_with
    (λ row (a : assignment), (λ q, nth (Z.to_nat q) row box0) <$> a.1) all_boxes indices)).
  set (tgts := concat (zip_with
    (λ t (a : assignment), (λ j, nth (Z.to_nat j) (boxes t) box0) <$> a.2) targets indices)).
  assert (Hpairs : pairs = zip srcs tgts) by by apply matched_pairs_zip.
  assert (Hls : length srcs = num_matched indices).
  { apply length_gathered; [done|]. intros. by rewrite length_fmap. }
  assert (Hlt : length tgts = num_matched indices).
  { unfold tgts, num_matched.
    rewrite (length_gathered _ _ _ (λ a : assignment, length a.2)).
    - f_equal. clear -Hlen. induction Hlen; csimpl; [done|]. by f_equal.
    - done.
    - intros. by rewrite length_fmap. }
  split.
  - unfold loss_boxes. rewrite Hpb. simpl.
    rewrite get_src_permutation_idx_Some by done. simpl.
    rewrite (index2_matched box0) by done. simpl.
    rewrite (select_targets box0 boxes) by done. simpl.
    rewrite torch_cat_Some.
    2:{ destruct indices, targets; done. }
    simpl. fold srcs tgts.
    rewrite l1_loss_none_same by lia. simpl.
    unfold cxcywh_to_xyxy. rewrite torch_diag_pairwise by (rewrite !length_fmap; lia).
    rewrite zip_with_fmap_l, zip_with_fmap_r, zip_with_zip, <-list_fmap_compose.
    unfold spec_loss_giou, spec_loss_bbox. rewrite Hpairs.
    rewrite concat_fmap_bind.
    do 3 f_equal. f_equal. apply list_fmap_ext. by intros ? [??] ?.
  - rewrite Hpairs, length_zip_with. lia.
Qed.

End loss_boxes.

(** ** loss_labels *)

Section loss_labels.
Context {F : Type} `{!Arith F, !Transc F, !Geometry F}.

Lemma put2_valid {A} (t : list (list A)) (row : list A) (b s : Z) (v : A) :
  0 ≤ b → t !! Z.to_nat b = Some row → valid_index (length row) s →
  put2 t b s v = Some (<[Z.to_nat b := <[Z.to_nat s := v]> row]> t).
Proof.
  intros Hb Hrow Hs. unfold put2.
  assert (valid_index (length t) b) as Hvb.
  { apply lookup_lt_Some in Hrow. unfold valid_index. lia. }
  rewrite py_index_valid, Hrow by done. simpl.
  rewrite py_index_valid by done.
  destruct (lookup_lt_is_Some_2 row (Z.to_nat s)) as [x ->].
  { unfold valid_index in Hs. lia. }
  simpl. rewrite !bool_decide_eq_true_2; [done| |done].
  unfold valid_index in Hs. lia.
Qed.

Lemma put2_all_app {A} (t : list (list A)) (ws1 ws2 : list (Z * Z * A)) :
  put2_all t (ws1 ++ ws2) = put2_all t ws1 ≫= λ t', put2_all t' ws2.
Proof.
  revert t. induction ws1 as [|[[b s] v] ws1 IH]; intros t; simpl; [done|].
  destruct (put2 t b s v) as [t'|]; simpl; [apply IH|done].
Qed.

(** The writes of one image update its row only. *)
Lemma put2_all_row {A} (pre rest : list (list A)) (row : list A) (qvs : list (Z * A)) :
  Forall (λ qv, valid_index (length row) qv.1) qvs →
  put2_all (pre ++ row :: rest) ((λ qv, (Z.of_nat (length pre), qv.1, qv.2)) <$> qvs)
  = Some (pre ++ foldl (λ r qv, <[Z.to_nat qv.1 := qv.2]> r) row qvs :: rest).
Proof.
  intros Hq. revert row Hq.
  induction qvs as [|[q v] qvs IH]; intros row Hq; simpl; [done|].
  inversion_clear Hq as [|?? Hq1 Hq2]. simpl in Hq1.
  rewrite (put2_valid _ row); [| lia | | done].
  2:{ rewrite Nat2Z.id. by apply list_lookup_middle. }
  simpl. rewrite Nat2Z.id.
  replace (length pre) with (length pre + 0)%nat at 1 by lia.
  rewrite insert_app_r. simpl. apply IH.
  eapply Forall_impl; [exact Hq2|]. intros ??. by rewrite length_insert.
Qed.

Lemma put2_all_images {A} (lab : target F → Z → A) (pre rows : list (list A))
    (targets : list (target F)) (indices : list assignment) :
  Forall2 (λ row (a : assignment), Forall (valid_index (length row)) a.1) rows indices →
  length targets = length indices →
  put2_all (pre ++ rows)
    (concat (imap (λ i (ta : target F * assignment),
                     (λ qj : Z * Z, (Z.of_nat (length pre + i), qj.1, lab ta.1 qj.2))
                       <$> zip ta.2.1 ta.2.2)
                  (zip targets indices)))
  = Some (pre ++ zip_with (λ row (ta : target F * assignment),
                             foldl (λ r (qj : Z * Z), <[Z.to_nat qj.1 := lab ta.1 qj.2]> r)
                                   row (zip ta.2.1 ta.2.2))
                          rows (zip targets indices)).
Proof.
  intros Hwf. revert pre targets.
  induction Hwf as [|row a rows indices Ha _ IH]; intros pre [|t targets] Hlen;
    simpl in *; try done.
  rewrite put2_all_app, Nat.add_0_r.
  pose proof (put2_all_row pre rows row
    ((λ qj : Z * Z, (qj.1, lab t qj.2)) <$> zip a.1 a.2)) as Hrow.
  rewrite <-list_fmap_compose in Hrow. unfold compose in Hrow. simpl in Hrow.
  rewrite Hrow; clear Hrow.
  2:{ apply Forall_fmap. apply Forall_forall. intros [q j] Hin. simpl.
      apply elem_of_zip_l in Hin. by eapply Forall_forall in Ha. }
  simpl. rewrite foldl_fmap. simpl.
  set (row' := foldl _ row _).
  specialize (IH (pre ++ [row']) targets).
  rewrite <-!(assoc_L (++)) in IH. simpl in IH.
  rewrite <-IH by lia. f_equal. f_equal. apply imap_ext. intros i x _. simpl.
  rewrite length_app. simpl.
  by replace (length pre + 1 + i)%nat with (length pre + S i)%nat by lia.
Qed.

Lemma writes_zip {A} (lab : target F → Z → A) (g : nat → Z)
    (targets : list (target F)) (indices : list assignment) :
  Forall2 (λ (t : target F) (a : assignment), length a.1 = length a.2) targets indices →
  zip (concat (imap (λ i (a : assignment), (λ q, (g i, q)) <$> a.1) indices))
      (concat (zip_with (λ t (a : assignment), lab t <$> a.2) targets indices))
  = concat (imap (λ i (ta : target F * assignment),
                    (λ qj : Z * Z, (g i, qj.1, lab ta.1 qj.2)) <$> zip ta.2.1 ta.2.2)
                 (zip targets indices)).
Proof.
  intros Hlen. revert g.
  induction Hlen as [|t a targets indices Ha _ IH]; intros g; simpl; [done|].
  rewrite zip_with_app by by rewrite !length_fmap.
  f_equal; [|apply (IH (g ∘ S))].
  rewrite zip_with_fmap_l, zip_with_fmap_r, zip_with_zip.
  apply list_fmap_ext. by intros ? [??] ?.
Qed.

Lemma foldl_insert_length {A B} (f : B → nat * A) (row : list A) (l : list B) :
  length (foldl (λ r x, <[(f x).1 := (f x).2]> r) row l) = length row.
Proof.
  revert row. induction l as [|x l IH]; intros row; simpl; [done|].
  by rewrite IH, length_insert.
Qed.

Lemma foldl_insert_Forall {A B} (P : A → Prop) (f : B → nat * A) (row : list A) (l : list B) :
  Forall P row → Forall (λ x, P (f x).2) l →
  Forall P (foldl (λ r x, <[(f x).1 := (f x).2]> r) row l).
Proof.
  intros Hrow Hl. revert row Hrow.
  induction Hl as [|x l Hx _ IH]; intros row Hrow; simpl; [done|].
  apply IH. by apply Forall_insert.
Qed.

Lemma dense_row_length (nc Q : nat) (t : target F) (a : assignment) :
  length (dense_row nc Q t a) = Q.
Proof.
  unfold dense_row.
  rewrite (foldl_insert_length (λ qj : Z * Z, (Z.to_nat qj.1, nth (Z.to_nat qj.2) (labels t) 0))).
  apply length_replicate.
Qed.

Lemma nth_label_range (nc : nat) (ls : list Z) (j : nat) :
  Forall (λ l, 0 ≤ l < Z.of_nat nc) ls → 0 ≤ nth j ls 0 ≤ Z.of_nat nc.
Proof.
  intros Hls. destruct (nth_lookup_or_length ls j 0) as [Hj|Hj].
  - eapply Forall_lookup_1 in Hj; [|exact Hls]. simpl in Hj. lia.
  - rewrite nth_overflow by lia. lia.
Qed.

Lemma dense_row_range (nc Q : nat) (t : target F) (a : assignment) :
  Forall (λ l, 0 ≤ l < Z.of_nat nc) (labels t) →
  Forall (λ y, 0 ≤ y ≤ Z.of_nat nc) (dense_row nc Q t a).
Proof.
  intros Hls. unfold dense_row.
  apply (foldl_insert_Forall _ (λ qj : Z * Z, (Z.to_nat qj.1, nth (Z.to_nat qj.2) (labels t) 0))).
  - apply Forall_replicate. lia.
  - apply Forall_forall. intros ? _. simpl. by apply nth_label_range.
Qed.

Lemma dense_labels_shape (nc : nat) (logits : list (list (list F)))
    (targets : list (target F)) (indices : list assignment) :
  length logits = length indices → length targets = length indices →
  length <$> dense_labels nc logits targets indices = length <$> logits.
Proof.
  unfold dense_labels. revert targets indices.
  induction logits as [|row logits IH]; intros [|t targets] [|a indices] ??;
    simpl in *; try done.
  rewrite dense_row_length. f_equal. apply IH; lia.
Qed.

Lemma dense_labels_range (nc : nat) (logits : list (list (list F)))
    (targets : list (target F)) (indices : list assignment) :
  Forall (λ t, Forall (λ l, 0 ≤ l < Z.of_nat nc) (labels t)) targets →
  Forall (Forall (λ y, 0 ≤ y ≤ Z.of_nat nc)) (dense_labels nc logits targets indices).
Proof.
  intros Hls. unfold dense_labels. revert logits indices.
  induction Hls as [|t targets Ht _ IH]; intros [|row logits] [|a indices];
    simpl; try constructor; try done.
  by apply dense_row_range.
Qed.

Lemma empty_weight_init (nc : nat) m wd (eos : F) :
  empty_weight (init nc m wd eos) = replicate nc (of_Q 1) ++ [eos].
Proof.
  simpl. rewrite replicate_add. simpl.
  replace nc with (length (replicate nc (of_Q 1 : F)) + 0)%nat at 1
    by (rewrite length_replicate; lia).
  by rewrite insert_app_r.
Qed.

Lemma class_weight_lookup (nc : nat) (eos : F) (y : Z) :
  0 ≤ y ≤ Z.of_nat nc →
  (replicate nc (of_Q 1) ++ [eos]) !! Z.to_nat y = Some (class_weight nc eos y).
Proof.
  intros Hy. unfold class_weight. case_bool_decide as Heq.
  - subst y. rewrite Nat2Z.id.
    rewrite lookup_app_r by (rewrite length_replicate; lia).
    by rewrite length_replicate, Nat.sub_diag.
  - rewrite lookup_app_l by (rewrite length_replicate; lia).
    apply lookup_replicate_2. lia.
Qed.

Lemma ce_slot_valid (nc : nat) (eos : F) (x : list F) (y : Z) :
  length x = (nc + 1)%nat → 0 ≤ y ≤ Z.of_nat nc →
  ce_slot (replicate nc (of_Q 1) ++ [eos]) x y
  = Some [(fmul (class_weight nc eos y) (nll x y), class_weight nc eos y)].
Proof.
  intros Hx Hy. unfold ce_slot.
  rewrite bool_decide_eq_true_2 by (rewrite length_app, length_replicate; simpl; lia).
  rewrite bool_decide_eq_false_2 by lia.
  rewrite bool_decide_eq_true_2 by lia.
  rewrite class_weight_lookup by done. simpl.
  unfold log_softmax_at.
  destruct (nth_lookup_or_length x (Z.to_nat y) (of_Z 0)) as [->|Hge]; [done|lia].
Qed.

Lemma Forall_zip_concat {A B} (P : A → Prop) (R : B → Prop)
    (xs : list (list A)) (ys : list (list B)) :
  Forall (Forall P) xs → Forall (Forall R) ys →
  Forall (λ xy, P xy.1 ∧ R xy.2) (zip (concat xs) (concat ys)).
Proof.
  intros Hx Hy. apply Forall_forall. intros [x y] Hin. simpl.
  split.
  - apply elem_of_zip_l in Hin. apply list_elem_of_In, in_concat in Hin.
    destruct Hin as (l & Hl & Hxl). apply list_elem_of_In in Hl, Hxl.
    eapply Forall_forall in Hx; [|exact Hl]. by eapply Forall_forall in Hx.
  - apply elem_of_zip_r in Hin. apply list_elem_of_In, in_concat in Hin.
    destruct Hin as (l & Hl & Hyl). apply list_elem_of_In in Hl, Hyl.
    eapply Forall_forall in Hy; [|exact Hl]. by eapply Forall_forall in Hy.
Qed.

Lemma cross_entropy_valid (nc : nat) (eos : F) (logits : list (list (list F)))
    (dense : list (list Z)) :
  length <$> logits = length <$> dense →
  Forall (Forall (λ x, length x = (nc + 1)%nat)) logits →
  Forall (Forall (λ y, 0 ≤ y ≤ Z.of_nat nc)) dense →
  cross_entropy logits dense (replicate nc (of_Q 1) ++ [eos])
  = Some (weighted_mean_ce nc eos logits dense).
Proof.
  intros Hshape Hx Hy. unfold cross_entropy.
  rewrite bool_decide_eq_true_2 by done.
  pose proof (Forall_zip_concat _ _ _ _ Hx Hy) as Hxy.
  set (slots := zip (concat logits) (concat dense)) in *.
  assert (mapM (λ '(x, y), ce_slot (replicate nc (of_Q 1) ++ [eos]) x y) slots
          = Some ((λ xy, [(fmul (class_weight nc eos xy.2) (nll xy.1 xy.2),
                           class_weight nc eos xy.2)]) <$> slots)) as ->.
  { apply mapM_Some, Forall2_fmap_r, Forall_Forall2_diag.
    eapply Forall_impl; [exact Hxy|]. intros [x y] [??]. by apply ce_slot_valid. }
  simpl. unfold weighted_mean_ce. fold slots.
  rewrite concat_fmap_bind.
  assert (∀ (l : list (list F * Z)) (f : list F * Z → F * F), l ≫= (λ xy, [f xy]) = f <$> l) as Hb.
  { intros l f. induction l as [|a l IH]; csimpl; [done|]. by rewrite IH. }
  rewrite (Hb slots (λ xy, (fmul (class_weight nc eos xy.2) (nll xy.1 xy.2),
                            class_weight nc eos xy.2))).
  by rewrite <-!list_fmap_compose.
Qed.

Lemma foldl_insert_lookup_ne {A B} (f : B → nat * A) (row : list A) (l : list B) (q : nat) :
  Forall (λ x, (f x).1 ≠ q) l →
  foldl (λ r x, <[(f x).1 := (f x).2]> r) row l !! q = row !! q.
Proof.
  intros Hl. revert row. induction Hl as [|x l Hx _ IH]; intros row; simpl; [done|].
  rewrite IH. by apply list_lookup_insert_ne.
Qed.

Lemma foldl_insert_lookup_last {A B} (f : B → nat * A) (row : list A) (l1 l2 : list B) (x : B) :
  ((f x).1 < length row)%nat →
  Forall (λ y, (f y).1 ≠ (f x).1) l2 →
  foldl (λ r y, <[(f y).1 := (f y).2]> r) row (l1 ++ x :: l2) !! (f x).1 = Some (f x).2.
Proof.
  intros Hlt Hl2. rewrite foldl_app. simpl.
  rewrite foldl_insert_lookup_ne by done.
  apply list_lookup_insert_eq. by rewrite foldl_insert_length.
Qed.

(** A slot no match of the image names keeps the no-object class. *)
Lemma dense_row_unmatched (nc Q : nat) (t : target F) (a : assignment) (q : nat) :
  (q < Q)%nat → Z.of_nat q ∉ a.1 → Forall (valid_index Q) a.1 →
  dense_row nc Q t a !! q = Some (Z.of_nat nc).
Proof.
  intros Hq Hnot Hv. unfold dense_row.
  rewrite (foldl_insert_lookup_ne
    (λ qj : Z * Z, (Z.to_nat qj.1, nth (Z.to_nat qj.2) (labels t) 0))).
  - by apply lookup_replicate_2.
  - apply Forall_forall. intros [z j] Hin. simpl. apply elem_of_zip_l in Hin.
    intros <-. apply Hnot.
    eapply Forall_forall in Hv; [|exact Hin]. unfold valid_index in Hv.
    by rewrite Z2Nat.id by lia.
Qed.

(** A matched slot holds the label of its target. *)
Lemma dense_row_matched (nc Q : nat) (t : target F) (a : assignment) (k : nat) (q j : Z) :
  NoDup a.1 → Forall (valid_index Q) a.1 →
  a.1 !! k = Some q → a.2 !! k = Some j →
  dense_row nc Q t a !! Z.to_nat q = Some (nth (Z.to_nat j) (labels t) 0).
Proof.
  intros Hnd Hv Hq Hj. unfold dense_row.
  assert (zip a.1 a.2 !! k = Some (q, j)) as Hk.
  { rewrite lookup_zip_with, Hq. simpl. by rewrite Hj. }
  rewrite <-(take_drop_middle _ _ _ Hk).
  pose proof (Forall_lookup_1 _ _ _ _ Hv Hq) as Hvq. unfold valid_index in Hvq.
  apply (foldl_insert_lookup_last
    (λ qj : Z * Z, (Z.to_nat qj.1, nth (Z.to_nat qj.2) (labels t) 0)) _ _ _ (q, j)).
  - simpl. rewrite length_replicate. lia.
  - apply Forall_forall. intros [z j'] Hin. simpl. intros Heq.
    apply list_elem_of_lookup in Hin as [i Hi].
    rewrite lookup_drop, lookup_zip_with in Hi.
    apply bind_Some in Hi as (z' & Hz & Hi).
    apply bind_Some in Hi as (y & Hy & Hi).
    injection Hi as -> _.
    pose proof (Forall_lookup_1 _ _ _ _ Hv Hz) as Hvz. unfold valid_index in Hvz.
    assert (z = q) as -> by lia.
    pose proof (NoDup_lookup _ _ _ _ Hnd Hz Hq). lia.
Qed.

Lemma dense_labels_lookup (nc : nat) (logits : list (list (list F)))
    (targets : list (target F)) (indices : list assignment) (b : nat) row t a :
  logits !! b = Some row → targets !! b = Some t → indices !! b = Some a →
  dense_labels nc logits targets indices !! b = Some (dense_row nc (length row) t a).
Proof.
  intros Hr Ht Ha. unfold dense_labels.
  rewrite lookup_zip_with, Hr. simpl. rewrite lookup_zip_with, Ht. simpl. by rewrite Ha.
Qed.

(** C3: for a non-empty batch whose assignment is well formed for the
    logits and the target labels and matches no query slot twice,
    [loss_labels] returns the single scalar
    [loss_ce]: the weighted mean, over all batch x query slots, of the
    categorical cross-entropy against a dense [batch, Q] label tensor, with
    weight 1.0 for every real class and [eos_coef] for the no-object class.
    The dense tensor starts as the no-object class [num_classes] in every
    slot and takes, per image, the labels of the matched targets at the
    matched query indices. *)
Theorem loss_labels_spec (nc : nat) m wd (eos : F) (o : layer_outputs F)
    (targets : list (target F)) (indices : list assignment) (num_boxes : F)
    (logits : list (list (list F))) :
  pred_logits o = Some logits →
  indices ≠ [] →
  Forall (Forall (λ x, length x = (nc + 1)%nat)) logits →
  Forall (λ t, Forall (λ l, 0 ≤ l < Z.of_nat nc) (labels t)) targets →
  Forall3 (λ row t a, wf_assignment (length row) (length (labels t)) a)
          logits targets indices →
  Forall (λ a : assignment, NoDup a.1) indices →
  let self := init nc m wd eos in
  let dense := dense_labels nc logits targets indices in
  loss_labels self o targets indices num_boxes
  = Some {[ "loss_ce" := weighted_mean_ce nc eos logits dense ]}
  ∧ empty_weight self = replicate nc (of_Q 1) ++ [eos]
  ∧ length <$> dense = length <$> logits
  ∧ ∀ (b : nat) row t a, logits !! b = Some row → targets !! b = Some t →
      indices !! b = Some a →
      ∃ drow, dense !! b = Some drow
        ∧ (∀ q : nat, (q < length row)%nat → Z.of_nat q ∉ a.1 →
             drow !! q = Some (Z.of_nat nc))
        ∧ (∀ (k : nat) q j, a.1 !! k = Some q → a.2 !! k = Some j →
             drow !! Z.to_nat q = Some (nth (Z.to_nat j) (labels t) 0)).
Proof.
  intros Hlog Hne Hx Hlab Hwf Hnd self dense.
  assert (Hsrc : Forall2 (λ row (a : assignment), Forall (valid_index (length row)) a.1)
                         logits indices).
  { eapply Forall3_Forall2_13; [|exact Hwf]. by intros ??? (?&?&?). }
  assert (Htgt : Forall2 (λ t (a : assignment), Forall (valid_index (length (labels t))) a.2)
                         targets indices).
  { eapply Forall3_Forall2_23; [|exact Hwf]. by intros ??? (?&?&?). }
  assert (Hlen : Forall2 (λ (t : target F) (a : assignment), length a.1 = length a.2)
                         targets indices).
  { eapply Forall3_Forall2_23; [|exact Hwf]. by intros ??? (?&?&?). }
  pose proof (Forall2_length _ _ _ Hsrc) as Hl1.
  pose proof (Forall2_length _ _ _ Htgt) as Hl2.
  assert (Hshape : length <$> dense = length <$> logits)
    by by apply dense_labels_shape.
  split; [|split; [apply empty_weight_init|split; [done|]]].
  - assert (Hew := empty_weight_init nc m wd eos). fold self in Hew.
    assert (Hnc : num_classes self = nc) by done.
    clearbody self.
    unfold loss_labels. rewrite Hlog, Hnc, Hew. simpl.
    rewrite get_src_permutation_idx_Some by done. simpl.
    rewrite (select_targets 0 labels) by done. simpl.
    rewrite torch_cat_Some.
    2:{ destruct indices, targets; done. }
    simpl. unfold index_put2.
    rewrite zip_batch_src.
    rewrite (writes_zip (λ t j, nth (Z.to_nat j) (labels t) 0)) by done.
    rewrite bool_decide_eq_true_2.
    2:{ rewrite <-(zip_batch_src Z.of_nat indices), length_zip_with.
        rewrite (length_gathered _ _ _ (λ a : assignment, length a.2)), length_src_idx;
          [|done|by intros; rewrite length_fmap].
        assert (num_matched indices = sum_list ((λ a : assignment, length a.2) <$> indices)) as <-.
        { unfold num_matched. clear -Hlen. induction Hlen; csimpl; [done|]. by f_equal. }
        rewrite length_batch_idx. lia. }
    pose proof (put2_all_images (λ t j, nth (Z.to_nat j) (labels t) 0) []
      ((λ row, replicate (length row) (Z.of_nat nc)) <$> logits) targets indices) as Hput.
    simpl in Hput. rewrite Hput; clear Hput; [|by apply Forall2_fmap_l;
      eapply Forall2_impl; [exact Hsrc|]; intros ???; simpl; rewrite length_replicate|lia].
    simpl. rewrite zip_with_fmap_l. fold (dense_labels nc logits targets indices).
    fold dense.
    rewrite cross_entropy_valid; [done|done|done|].
    by apply dense_labels_range.
  - intros b row t a Hr Ht Ha. eexists. split; [by eapply dense_labels_lookup|].
    pose proof (Forall2_lookup_lr _ _ _ _ _ _ Hsrc Hr Ha) as Hv.
    split.
    + intros q Hq Hnot. by apply dense_row_unmatched.
    + intros k q j Hq Hj. eapply dense_row_matched; [|done..].
      by eapply Forall_lookup_1 in Hnd.
Qed.

End loss_labels.

(** ** Names of the loss terms *)

Lemma string_length_app (s1 s2 : string) :
  String.length (s1 +:+ s2) = (String.length s1 + String.length s2)%nat.
Proof. induction s1 as [|c s1 IH]; simpl; [done|]. by rewrite IH. Qed.

Lemma string_app_inj_r (s s1 s2 : string) : s1 +:+ s = s2 +:+ s → s1 = s2.
Proof.
  revert s2. induction s1 as [|c1 s1 IH]; intros [|c2 s2] Heq; try done.
  - apply (f_equal String.length) in Heq.
    rewrite !string_length_app in Heq. simpl in Heq. lia.
  - apply (f_equal String.length) in Heq.
    rewrite !string_length_app in Heq. simpl in Heq. lia.
  - simpl in Heq. injection Heq as -> Heq. f_equal. by apply IH.
Qed.

#[global] Instance suffix_inj (i : nat) : Inj (=) (=) (λ k : string, k +:+ "_" +:+ pretty i).
Proof. intros s1 s2 Heq. by apply string_app_inj_r in Heq. Qed.

Lemma aux_name_inj (n1 n2 : string) (k1 k2 : nat) :
  n1 ∈ term_names → n2 ∈ term_names →
  aux_name n1 k1 = aux_name n2 k2 → n1 = n2 ∧ k1 = k2.
Proof.
  unfold term_names, aux_name. rewrite !elem_of_cons, !elem_of_nil.
  intros [->|[->|[->|[]]]] [->|[->|[->|[]]]] Heq;
    try discriminate Heq; (split; [done|]);
    do 2 apply (inj (String.app _)) in Heq; by apply (inj pretty).
Qed.

Lemma aux_name_not_term (n1 n2 : string) (k : nat) :
  n1 ∈ term_names → n2 ∈ term_names → aux_name n1 k ≠ n2.
Proof.
  unfold term_names, aux_name. rewrite !elem_of_cons, !elem_of_nil.
  intros [->|[->|[->|[]]]] [->|[->|[->|[]]]] Heq; discriminate Heq.
Qed.

(** ** forward *)

Section forward.
Context {F : Type} `{!Arith F, !Transc F, !Geometry F}.

Lemma loss_labels_keys (self : SetCriterion F) o targets indices nb l :
  loss_labels self o targets indices nb = Some l → ∃ v, l = {[ "loss_ce" := v ]}.
Proof.
  unfold loss_labels. intros H.
  repeat (apply bind_Some in H as (? & _ & H)).
  injection H as <-. eauto.
Qed.

Lemma loss_boxes_keys (self : SetCriterion F) o targets indices nb l :
  loss_boxes self o targets indices nb = Some l →
  ∃ v1 v2, l = <["loss_giou" := v2]> (<["loss_bbox" := v1]> ∅).
Proof.
  unfold loss_boxes. intros H.
  repeat (apply bind_Some in H as (? & _ & H)).
  injection H as <-. eauto.
Qed.

(** The three terms of a layer, and nothing else. *)
Lemma layer_terms_keys (self : SetCriterion F) o targets nb l :
  layer_terms self o targets nb = Some l →
  ∀ name, is_Some (l !! name) ↔ name ∈ term_names.
Proof.
  unfold layer_terms. intros H.
  apply bind_Some in H as (indices & _ & H).
  apply bind_Some in H as (lc & Hc & H).
  apply bind_Some in H as (lb & Hb & H).
  injection H as <-.
  apply loss_labels_keys in Hc as [c ->].
  apply loss_boxes_keys in Hb as (b & g & ->).
  intros name. unfold dict_update, term_names.
  rewrite lookup_union_is_Some, !elem_of_cons, elem_of_nil.
  rewrite !lookup_insert_is_Some, lookup_singleton_is_Some, lookup_empty, is_Some_alt.
  split.
  - intros [[<-|[_ [<-|[_ []]]]]|<-]; auto.
  - intros [->|[->|[->|[]]]]; auto.
Qed.

Lemma aux_loop_cons (self : SetCriterion F) targets nb i a rest losses :
  aux_loop self targets nb i (a :: rest) losses
  = l ← layer_terms self a targets nb;
    aux_loop self targets nb (S i) rest (dict_update losses (suffix_keys i l)).
Proof.
  simpl. unfold layer_terms.
  destruct (matcher self a targets) as [ind|]; simpl; [|done].
  destruct (loss_labels self a targets ind nb) as [lc|]; simpl; [|done].
  by destruct (loss_boxes self a targets ind nb) as [lb|].
Qed.

Lemma forward_layers (self : SetCriterion F) (o : outputs F) targets :
  forward self o targets
  = _ ← first_value o ≫= device;
    fin ← layer_terms self (out_final o) targets (of_Z (count_boxes targets));
    match aux_outputs o with
    | Some auxs => aux_loop self targets (of_Z (count_boxes targets)) 0 auxs fin
    | None => Some fin
    end.
Proof.
  unfold forward, layer_terms.
  destruct (matcher self (out_final o) targets) as [ind|]; simpl;
    [|by destruct (first_value o ≫= device)].
  destruct (first_value o ≫= device) as [[]|]; simpl; [|done].
  destruct (loss_labels self _ targets ind _) as [lc|]; simpl; [|done].
  destruct (loss_boxes self _ targets ind _) as [lb|]; simpl; [|done].
  unfold dict_update. by rewrite (right_id_L ∅ (∪)).
Qed.

Lemma layer_terms_logits (self : SetCriterion F) a targets nb :
  is_Some (layer_terms self a targets nb) → is_Some (pred_logits a).
Proof.
  unfold layer_terms, loss_labels. intros [l Hl].
  apply bind_Some in Hl as (ind & _ & Hl).
  apply bind_Some in Hl as (lc & Hc & _).
  apply bind_Some in Hc as (logits & -> & _). done.
Qed.

(** The device lookup of line 120 on a dict whose final layer has its
    logits: it fails exactly when ['aux_outputs'] is the first key. *)
Lemma device_lookup (o : outputs F) :
  is_Some (pred_logits (out_final o)) →
  first_value o ≫= device
  = if bool_decide (is_Some (aux_outputs o) ∧ aux_first o = true) then None else Some ().
Proof.
  intros Hlog. unfold first_value.
  rewrite (bool_decide_eq_true_2 (_ ∨ _)) by by left.
  by destruct (aux_outputs o) as [auxs|], (aux_first o).
Qed.

Lemma forward_layers_ok (self : SetCriterion F) (o : outputs F) targets :
  is_Some (aux_outputs o) ∧ aux_first o = true
  ∨ forward self o targets
    = fin ← layer_terms self (out_final o) targets (of_Z (count_boxes targets));
      match aux_outputs o with
      | Some auxs => aux_loop self targets (of_Z (count_boxes targets)) 0 auxs fin
      | None => Some fin
      end.
Proof.
  rewrite forward_layers.
  destruct (layer_terms self (out_final o) targets _) as [fin|] eqn:Hfin.
  - rewrite device_lookup by (eapply layer_terms_logits; by rewrite Hfin).
    case_bool_decide; [by left|by right].
  - right. by destruct (first_value o ≫= device).
Qed.

Lemma forward_aux_first (self : SetCriterion F) (o : outputs F) targets :
  is_Some (aux_outputs o) → aux_first o = true → forward self o targets = None.
Proof.
  intros Haux Hfirst. rewrite forward_layers.
  destruct (layer_terms self (out_final o) targets _) as [fin|] eqn:Hfin.
  - rewrite device_lookup by (eapply layer_terms_logits; by rewrite Hfin).
    by rewrite bool_decide_eq_true_2.
  - by destruct (first_value o ≫= device).
Qed.

Lemma forward_aux_not_first (self : SetCriterion F) (o : outputs F) targets :
  (is_Some (aux_outputs o) → aux_first o = false) →
  forward self o targets
  = fin ← layer_terms self (out_final o) targets (of_Z (count_boxes targets));
    match aux_outputs o with
    | Some auxs => aux_loop self targets (of_Z (count_boxes targets)) 0 auxs fin
    | None => Some fin
    end.
Proof.
  intros Hnot. destruct (forward_layers_ok self o targets) as [[Haux Hfirst]|Heq]; [|done].
  rewrite Hnot in Hfirst; done.
Qed.

Lemma forward_Some_layers (self : SetCriterion F) (o : outputs F) targets L :
  forward self o targets = Some L →
  (is_Some (aux_outputs o) → aux_first o = false)
  ∧ (fin ← layer_terms self (out_final o) targets (of_Z (count_boxes targets));
     match aux_outputs o with
     | Some auxs => aux_loop self targets (of_Z (count_boxes targets)) 0 auxs fin
     | None => Some fin
     end) = Some L.
Proof.
  intros HL. destruct (forward_layers_ok self o targets) as [[Haux Hfirst]|Heq].
  - by rewrite forward_aux_first in HL.
  - split; [|by rewrite <-Heq].
    intros Haux. destruct (aux_first o) eqn:Hfirst; [|done].
    by rewrite forward_aux_first in HL.
Qed.

Lemma suffix_keys_lookup (i : nat) (l : gmap string F) (name : string) :
  suffix_keys i l !! aux_name name i = l !! name.
Proof. unfold suffix_keys, aux_name. apply (lookup_kmap (λ k : string, k +:+ "_" +:+ pretty i)). Qed.

Lemma suffix_keys_lookup_other (i : nat) (l : gmap string F) (key : string) :
  (∀ name, is_Some (l !! name) → key ≠ aux_name name i) →
  suffix_keys i l !! key = None.
Proof.
  intros Hkey. unfold suffix_keys.
  apply (lookup_kmap_None (λ k : string, k +:+ "_" +:+ pretty i)).
  intros name ->. apply eq_None_not_Some. intros Hs. by eapply Hkey.
Qed.

Lemma aux_loop_iff_layers (self : SetCriterion F) targets nb auxs i losses :
  is_Some (aux_loop self targets nb i auxs losses)
  ↔ Forall (λ a, is_Some (layer_terms self a targets nb)) auxs.
Proof.
  revert i losses. induction auxs as [|a auxs IH]; intros i losses.
  - simpl. split; eauto.
  - rewrite aux_loop_cons, Forall_cons.
    destruct (layer_terms self a targets nb) as [l|]; simpl.
    + rewrite IH. split; [eauto|by intros [_ ?]].
    + split; [by intros [??]|by intros [[??] _]].
Qed.

Lemma aux_loop_lookup (self : SetCriterion F) targets nb auxs i losses L :
  aux_loop self targets nb i auxs losses = Some L →
  (∀ key, (∀ k name, (k < length auxs)%nat → name ∈ term_names →
                     key ≠ aux_name name (i + k)) →
          L !! key = losses !! key)
  ∧ (∀ k a name, auxs !! k = Some a → name ∈ term_names →
       L !! aux_name name (i + k) = layer_terms self a targets nb ≫= (.!! name)).
Proof.
  revert i losses. induction auxs as [|a auxs IH]; intros i losses HL.
  - simpl in HL. injection HL as <-. split; [done|]. by intros k a name Hk.
  - rewrite aux_loop_cons in HL.
    destruct (layer_terms self a targets nb) as [l|] eqn:Hl; simpl in HL; [|done].
    pose proof (layer_terms_keys _ _ _ _ _ Hl) as Hkeys.
    specialize (IH _ _ HL) as [IH1 IH2]. split.
    + intros key Hkey. rewrite IH1.
      * unfold dict_update. rewrite lookup_union_r; [done|].
        apply suffix_keys_lookup_other. intros name Hname.
        specialize (Hkey 0%nat name). rewrite Nat.add_0_r in Hkey.
        apply Hkey; [simpl; lia|by apply Hkeys].
      * intros k name Hk Hname.
        replace (S i + k)%nat with (i + S k)%nat by lia.
        apply Hkey; [simpl; lia|done].
    + intros [|k] a' name Ha' Hname; simpl in Ha'.
      * injection Ha' as <-. rewrite Nat.add_0_r, Hl. simpl.
        rewrite IH1.
        -- unfold dict_update.
           apply Hkeys in Hname as [v Hv]. rewrite Hv.
           apply lookup_union_Some_l. by rewrite suffix_keys_lookup.
        -- intros k name' Hk Hname' Heq.
           apply aux_name_inj in Heq as [_ ?]; [lia|done|done].
      * replace (i + S k)%nat with (S i + k)%nat by lia. by apply IH2.
Qed.

Lemma aux_loop_keys (self : SetCriterion F) targets nb auxs i losses L :
  aux_loop self targets nb i auxs losses = Some L →
  ∀ key, is_Some (L !! key) →
    is_Some (losses !! key)
    ∨ ∃ k name, (k < length auxs)%nat ∧ name ∈ term_names ∧ key = aux_name name (i + k).
Proof.
  revert i losses. induction auxs as [|a auxs IH]; intros i losses HL key Hkey.
  - simpl in HL. injection HL as <-. by left.
  - rewrite aux_loop_cons in HL.
    destruct (layer_terms self a targets nb) as [l|] eqn:Hl; simpl in HL; [|done].
    pose proof (layer_terms_keys _ _ _ _ _ Hl) as Hkeys.
    destruct (IH _ _ HL key Hkey) as [Hs|(k & name & Hk & Hname & ->)].
    + unfold dict_update in Hs. apply lookup_union_is_Some in Hs as [Hs|Hs]; [|by left].
      unfold suffix_keys in Hs.
      apply (lookup_kmap_is_Some (λ k : string, k +:+ "_" +:+ pretty i)) in Hs
        as (name & -> & Hname).
      right. exists 0%nat, name. rewrite Nat.add_0_r.
      split; [simpl; lia|]. split; [by apply Hkeys|done].
    + right. exists (S k), name. split; [simpl; lia|]. split; [done|].
      f_equal. lia.
Qed.

(** What [forward] returns when auxiliary outputs are present. *)
Lemma forward_aux_terms (self : SetCriterion F) final auxs first targets L :
  forward self (Outputs final (Some auxs) first) targets = Some L →
  let nb := of_Z (count_boxes targets) in
  (∀ name, name ∈ term_names →
     L !! name = layer_terms self final targets nb ≫= (.!! name) ∧ is_Some (L !! name))
  ∧ (∀ k a name, auxs !! k = Some a → name ∈ term_names →
       L !! aux_name name k = layer_terms self a targets nb ≫= (.!! name)
       ∧ is_Some (L !! aux_name name k))
  ∧ (∀ key, is_Some (L !! key) →
       key ∈ term_names
       ∨ ∃ k name, (k < length auxs)%nat ∧ name ∈ term_names ∧ key = aux_name name k).
Proof.
  intros HL nb. apply forward_Some_layers in HL as [_ HL]. simpl in HL. fold nb in HL.
  destruct (layer_terms self final targets nb) as [fin|] eqn:Hfin; simpl in HL; [|done].
  pose proof (layer_terms_keys _ _ _ _ _ Hfin) as Hkeys.
  pose proof (aux_loop_lookup _ _ _ _ _ _ _ HL) as [H1 H2].
  assert (Hall : Forall (λ a, is_Some (layer_terms self a targets nb)) auxs).
  { apply (aux_loop_iff_layers self targets nb auxs 0 fin). eauto. }
  split; [|split].
  - intros name Hname. simpl. rewrite H1.
    + split; [done|]. by apply Hkeys.
    + intros k name' _ Hname'. symmetry. by apply aux_name_not_term.
  - intros k a name Ha Hname. specialize (H2 k a name Ha Hname). simpl in H2.
    split; [done|]. rewrite H2.
    pose proof (Forall_lookup_1 _ _ _ _ Hall Ha) as [l Hl]. rewrite Hl. simpl.
    by apply (layer_terms_keys _ _ _ _ _ Hl).
  - intros key Hkey.
    destruct (aux_loop_keys _ _ _ _ _ _ _ HL key Hkey) as [Hs|Hs]; [|by right].
    left. by apply Hkeys.
Qed.

Lemma forward_aux_agree (self : SetCriterion F) final auxs first targets k a' L L' key :
  forward self (Outputs final (Some auxs) first) targets = Some L →
  forward self (Outputs final (Some (<[k := a']> auxs)) first) targets = Some L' →
  (∀ name, name ∈ term_names → key ≠ aux_name name k) →
  is_Some (L !! key) → L !! key = L' !! key.
Proof.
  intros HL HL' Hkey Hs.
  destruct (forward_aux_terms _ _ _ _ _ _ HL) as (Hf & Ha & Hd).
  destruct (forward_aux_terms _ _ _ _ _ _ HL') as (Hf' & Ha' & _).
  destruct (Hd key Hs) as [Hname|(k' & name & Hk' & Hname & ->)].
  - destruct (Hf key Hname) as [-> _]. by destruct (Hf' key Hname) as [-> _].
  - assert (k' ≠ k) as Hne by (intros ->; by eapply Hkey).
    destruct (lookup_lt_is_Some_2 auxs k' Hk') as [a Hak].
    destruct (Ha k' a name Hak Hname) as [-> _].
    assert (<[k := a']> auxs !! k' = Some a) as Hak'
      by by rewrite list_lookup_insert_ne.
    by destruct (Ha' k' a name Hak' Hname) as [-> _].
Qed.

(** C4: with auxiliary outputs present, [forward] runs steps 1 to 4 (the
    matcher, then the classification and box terms) once for the final layer
    and once, independently, for every auxiliary layer, always against the
    same targets and with the one normalizer [num_boxes] of the batch.  It
    returns exactly when every layer succeeds and ['aux_outputs'] is not the
    first key of the prediction dict: the normalizer takes its device from
    the dict's first value, and the list of auxiliary layers has none.  The
    result holds the final layer's terms under their names, layer [k]'s
    terms under the names suffixed with [_k], and nothing else.  Replacing
    only auxiliary layer [k] leaves every entry but the [_k]-suffixed ones
    unchanged. *)
Theorem forward_aux_spec (self : SetCriterion F) (final : layer_outputs F)
    (auxs : list (layer_outputs F)) (first : bool) (targets : list (target F)) :
  let nb := of_Z (count_boxes targets) in
  let run auxs := forward self (Outputs final (Some auxs) first) targets in
  (is_Some (run auxs)
   ↔ first = false
     ∧ is_Some (layer_terms self final targets nb)
     ∧ Forall (λ a, is_Some (layer_terms self a targets nb)) auxs)
  ∧ (∀ L, run auxs = Some L →
       (∀ name, name ∈ term_names →
          L !! name = layer_terms self final targets nb ≫= (.!! name)
          ∧ is_Some (L !! name))
       ∧ (∀ k a name, auxs !! k = Some a → name ∈ term_names →
            L !! aux_name name k = layer_terms self a targets nb ≫= (.!! name)
            ∧ is_Some (L !! aux_name name k))
       ∧ (∀ key, is_Some (L !! key) →
            key ∈ term_names
            ∨ ∃ k name, (k < length auxs)%nat ∧ name ∈ term_names
                        ∧ key = aux_name name k))
  ∧ (∀ k a' L L', run auxs = Some L → run (<[k := a']> auxs) = Some L' →
       ∀ key, (∀ name, name ∈ term_names → key ≠ aux_name name k) →
              L !! key = L' !! key).
Proof.
  intros nb run. split; [|split].
  - unfold run. destruct first.
    + rewrite forward_aux_first by (simpl; eauto).
      split; [by intros []|by intros [? _]].
    + rewrite forward_layers. simpl. fold nb.
      destruct (layer_terms self final targets nb) as [fin|] eqn:Hfin; simpl.
      * rewrite (device_lookup (Outputs final (Some auxs) false))
          by (simpl; eapply layer_terms_logits; by rewrite Hfin).
        simpl. rewrite aux_loop_iff_layers. split; [eauto|by intros (_ & _ & ?)].
      * split; [|by intros (_ & [??] & _)].
        destruct (first_value _ ≫= device); by intros [??].
  - intros L HL. by eapply forward_aux_terms.
  - intros k a' L L' HL HL' key Hkey.
    destruct (L !! key) as [v|] eqn:Hv.
    + rewrite <-Hv. eapply forward_aux_agree; eauto.
    + destruct (L' !! key) as [v'|] eqn:Hv'; [|done].
      assert (auxs = <[k := default a' (auxs !! k)]> (<[k := a']> auxs)) as Hback.
      { rewrite list_insert_insert_eq. symmetry.
        destruct (auxs !! k) as [a|] eqn:Ha; simpl.
        - by apply list_insert_id.
        - apply list_insert_ge. by apply lookup_ge_None. }
      unfold run in HL. rewrite Hback in HL.
      pose proof (forward_aux_agree _ _ _ _ _ _ _ _ _ key HL' HL Hkey) as Hag.
      rewrite Hv', Hv in Hag. symmetry. by apply Hag.
Qed.

End forward.

(** ** The normalizer on a batch without targets *)

Section no_targets.
Context {F : Type} `{!Arith F, !Transc F, !Geometry F}.

Lemma count_boxes_from (targets : list (target F)) (z : Z) :
  foldl Z.add z ((λ t : target F, Z.of_nat (length (labels t))) <$> targets)
  = z + Z.of_nat (sum_list ((λ t : target F, length (labels t)) <$> targets)).
Proof.
  revert z. induction targets as [|t targets IH]; intros z; csimpl; [lia|].
  rewrite IH. lia.
Qed.

(** The normalizer is the total number of target labels of the batch. *)
Lemma count_boxes_sum (targets : list (target F)) :
  count_boxes targets = Z.of_nat (sum_list ((λ t : target F, length (labels t)) <$> targets)).
Proof. unfold count_boxes. by rewrite count_boxes_from. Qed.

Lemma count_boxes_no_targets (targets : list (target F)) :
  Forall (λ t, labels t = []) targets → count_boxes targets = 0.
Proof.
  intros Hno. rewrite count_boxes_sum.
  induction Hno as [|t targets Ht _ IH]; csimpl; [done|]. rewrite Ht. simpl. lia.
Qed.

Lemma concat_all_nil {A} (xs : list (list A)) : Forall (λ x, x = []) xs → concat xs = [].
Proof. induction 1 as [|x xs -> _ IH]; simpl; done. Qed.

Lemma batch_idx_all_nil (g : nat → Z) (indices : list assignment) :
  Forall (λ a, a = ([], [])) indices →
  Forall (λ x, x = []) (imap (λ i (a : assignment), replicate (length a.1) (g i)) indices).
Proof.
  intros Hno. revert g.
  induction Hno as [|a indices -> _ IH]; intros g; simpl; constructor; [done|].
  apply (IH (g ∘ S)).
Qed.

Lemma no_matches_idx (indices : list assignment) bi si :
  Forall (λ a, a = ([], [])) indices →
  _get_src_permutation_idx indices = Some (bi, si) → bi = [] ∧ si = [].
Proof.
  intros Hno H.
  assert (indices ≠ []) as Hne by (by intros ->).
  rewrite get_src_permutation_idx_Some in H by done. injection H as <- <-.
  split.
  - apply concat_all_nil. by apply batch_idx_all_nil.
  - apply concat_all_nil, Forall_fmap. by eapply Forall_impl; [exact Hno|]; intros ? ->.
Qed.

Lemma no_matches_parts {A} (proj : target F → list A) targets (indices : list assignment) parts :
  Forall (λ a, a = ([], [])) indices →
  mapM (λ '(t, (_, J)), index_select (proj t) J) (zip targets indices) = Some parts →
  concat parts = [].
Proof.
  intros Hno Hm. apply concat_all_nil. apply mapM_Some in Hm.
  revert targets parts Hm.
  induction Hno as [|a indices -> _ IH]; intros [|t targets] parts Hm; simpl in Hm;
    inversion_clear Hm as [|???? Hx Hrest]; constructor.
  - simpl in Hx. by injection Hx as <-.
  - by eapply IH.
Qed.

(** Without matched pairs both box terms are the quotient of the empty sum
    by the normalizer. *)
Lemma loss_boxes_no_matches (self : SetCriterion F) o targets indices (nb : F) lb :
  Forall (λ a, a = ([], [])) indices →
  loss_boxes self o targets indices nb = Some lb →
  lb = <["loss_giou" := fdiv (of_Z 0) nb]> (<["loss_bbox" := fdiv (of_Z 0) nb]> ∅).
Proof.
  intros Hno. unfold loss_boxes. intros H.
  apply bind_Some in H as (all_boxes & _ & H).
  apply bind_Some in H as ([bi si] & Hidx & H).
  apply (no_matches_idx _ _ _ Hno) in Hidx as [-> ->]. simpl in H.
  apply bind_Some in H as (parts & Hparts & H).
  apply bind_Some in H as (tb & Htb & H).
  apply (no_matches_parts boxes _ _ _ Hno) in Hparts.
  assert (tb = concat parts) as -> by (destruct parts; [done|]; by injection Htb).
  rewrite Hparts in H. simpl in H. by injection H as <-.
Qed.

Lemma loss_boxes_no_matches_Some (self : SetCriterion F) o targets indices (nb : F) all_boxes :
  Forall (λ a, a = ([], [])) indices →
  pred_boxes o = Some all_boxes → indices ≠ [] → targets ≠ [] →
  is_Some (loss_boxes self o targets indices nb).
Proof.
  intros Hno Hpb Hi Ht. unfold loss_boxes. rewrite Hpb. simpl.
  rewrite get_src_permutation_idx_Some by done. simpl.
  destruct (no_matches_idx indices _ _ Hno (get_src_permutation_idx_Some _ Hi)) as [-> ->].
  simpl.
  match goal with
  | |- is_Some (?m ≫= _) =>
      assert (m = Some (replicate (length (zip targets indices)) [])) as Hm
  end.
  { apply mapM_Some. clear -Hno. revert targets.
    induction Hno as [|a indices -> _ IH]; intros [|t targets]; simpl; constructor; auto. }
  rewrite Hm. simpl.
  rewrite torch_cat_Some by (destruct targets, indices; done). simpl.
  rewrite concat_all_nil by by apply Forall_replicate. simpl. eauto.
Qed.

(** C1 (as amended): the normalizer of [forward] is the total target count
    of the batch, without a lower bound. When no image has a target (and the
    matcher accordingly matches nothing) it is 0, and the [loss_bbox] and
    [loss_giou] that [loss_boxes] and [forward] return are both the quotient
    of the empty sum 0 by the normalizer 0: a division by zero is
    performed. *)
Theorem forward_no_targets (self : SetCriterion F) (o : outputs F)
    (targets : list (target F)) (indices : list assignment) :
  Forall (λ t, labels t = []) targets →
  matcher self (out_final o) targets = Some indices →
  Forall (λ a, a = ([], [])) indices →
  let zero_by_zero : gmap string F :=
    <["loss_giou" := fdiv (of_Z 0) (of_Z 0)]> (<["loss_bbox" := fdiv (of_Z 0) (of_Z 0)]> ∅) in
  count_boxes targets = Z.of_nat (sum_list ((λ t : target F, length (labels t)) <$> targets))
  ∧ count_boxes targets = 0
  ∧ (∀ all_boxes, pred_boxes (out_final o) = Some all_boxes → indices ≠ [] → targets ≠ [] →
       loss_boxes self (out_final o) targets indices (of_Z (count_boxes targets))
       = Some zero_by_zero)
  ∧ (∀ L, forward self o targets = Some L →
       L !! "loss_bbox" = Some (fdiv (of_Z 0) (of_Z 0))
       ∧ L !! "loss_giou" = Some (fdiv (of_Z 0) (of_Z 0))).
Proof.
  intros Hno Hm Hidx zz.
  pose proof (count_boxes_no_targets _ Hno) as Hcount.
  split; [apply count_boxes_sum|].
  split; [done|]. rewrite Hcount. split.
  - intros all_boxes Hpb Hi Ht.
    destruct (loss_boxes_no_matches_Some self (out_final o) targets indices (of_Z 0)
                all_boxes Hidx Hpb Hi Ht) as [lb Hlb].
    rewrite Hlb. f_equal. by eapply loss_boxes_no_matches.
  - intros L HL. apply forward_Some_layers in HL as [_ HL]. rewrite Hcount in HL.
    apply bind_Some in HL as (fin & Hfin & HL).
    assert (Hbox : fin !! "loss_bbox" = Some (fdiv (of_Z 0) (of_Z 0))
                   ∧ fin !! "loss_giou" = Some (fdiv (of_Z 0) (of_Z 0))).
    { unfold layer_terms in Hfin. rewrite Hm in Hfin. simpl in Hfin.
      apply bind_Some in Hfin as (lc & Hc & Hfin).
      apply bind_Some in Hfin as (lb & Hb & Hfin). injection Hfin as <-.
      apply loss_boxes_no_matches in Hb; [|done]. subst lb.
      unfold dict_update. split; by apply lookup_union_Some_l. }
    destruct (aux_outputs o) as [auxs|]; [|by injection HL as <-].
    apply aux_loop_lookup in HL as [H1 _].
    rewrite !H1; [done| |].
    + intros k name _ Hname. symmetry. apply aux_name_not_term; [done|].
      unfold term_names. rewrite !elem_of_cons. auto.
    + intros k name _ Hname. symmetry. apply aux_name_not_term; [done|].
      unfold term_names. rewrite !elem_of_cons. auto.
Qed.

End no_targets.


(** ** The criterion on concrete batches *)

Import Examples.

(** C1 (as stated) fails: on a batch whose only image has no targets the
    normalizer of [forward] is 0, not at least 1, and both box terms are the
    quotient 0/0, which is NaN in IEEE single precision. *)
Lemma forward_divides_by_zero :
  count_boxes empty_targets = 0
  ∧ ¬ (1 ≤ count_boxes empty_targets)
  ∧ (forward empty_criterion (Outputs empty_layer None false) empty_targets ≫= (.!! "loss_bbox"))
    = Some (Sym.EDiv (Sym.EInt 0) (Sym.EInt 0))
  ∧ (forward empty_criterion (Outputs empty_layer None false) empty_targets ≫= (.!! "loss_giou"))
    = Some (Sym.EDiv (Sym.EInt 0) (Sym.EInt 0))
  ∧ Sym.eval32 (Sym.EDiv (Sym.EInt 0) (Sym.EInt 0)) = Some S754_nan.
Proof.
  split; [reflexivity|]. split; [by vm_compute|].
  split; [by vm_compute|]. split; by vm_compute.
Qed.

Lemma forward_no_targets_witness :
  count_boxes empty_targets
  = Z.of_nat (sum_list ((λ t : target Sym.expr, length (labels t)) <$> empty_targets))
  ∧ count_boxes empty_targets = 0
  ∧ (∀ all_boxes, pred_boxes empty_layer = Some all_boxes →
       [([], [])] ≠ ([] : list assignment) → empty_targets ≠ [] →
       loss_boxes empty_criterion empty_layer empty_targets [([], [])]
                  (of_Z (count_boxes empty_targets))
       = Some (<["loss_giou" := fdiv (of_Z 0) (of_Z 0)]>
                 (<["loss_bbox" := fdiv (of_Z 0) (of_Z 0)]> ∅)))
  ∧ (∀ L, forward empty_criterion (Outputs empty_layer None false) empty_targets = Some L →
       L !! "loss_bbox" = Some (fdiv (of_Z 0) (of_Z 0))
       ∧ L !! "loss_giou" = Some (fdiv (of_Z 0) (of_Z 0))).
Proof.
  apply (forward_no_targets empty_criterion (Outputs empty_layer None false) empty_targets
           [([], [])]).
  - repeat constructor.
  - reflexivity.
  - repeat constructor.
Defined.

Lemma loss_boxes_spec_witness :
  let pairs := matched_pairs ex_boxes ex_targets ex_indices in
  loss_boxes ex_criterion ex_layer ex_targets ex_indices (v "n")
  = Some (<["loss_giou" := spec_loss_giou pairs (v "n")]>
            (<["loss_bbox" := spec_loss_bbox pairs (v "n")]> ∅))
  ∧ length pairs = num_matched ex_indices.
Proof.
  apply (loss_boxes_spec ex_criterion ex_layer ex_targets ex_indices (v "n") ex_boxes).
  - reflexivity.
  - discriminate.
  - repeat constructor; unfold valid_index; simpl; lia.
Defined.

Lemma loss_labels_spec_witness :
  let self := init 2 (λ _ _, Some ex_indices) ∅ (v "eos") in
  let dense := dense_labels 2 ex_logits ex_targets ex_indices in
  loss_labels self ex_layer ex_targets ex_indices (v "n")
  = Some {[ "loss_ce" := weighted_mean_ce 2 (v "eos") ex_logits dense ]}
  ∧ empty_weight self = replicate 2 (of_Q 1) ++ [v "eos"]
  ∧ length <$> dense = length <$> ex_logits
  ∧ ∀ (b : nat) row t a, ex_logits !! b = Some row → ex_targets !! b = Some t →
      ex_indices !! b = Some a →
      ∃ drow, dense !! b = Some drow
        ∧ (∀ q : nat, (q < length row)%nat → Z.of_nat q ∉ a.1 →
             drow !! q = Some (Z.of_nat 2))
        ∧ (∀ (k : nat) q j, a.1 !! k = Some q → a.2 !! k = Some j →
             drow !! Z.to_nat q = Some (nth (Z.to_nat j) (labels t) 0)).
Proof.
  apply (loss_labels_spec 2 (λ _ _, Some ex_indices) ∅ (v "eos") ex_layer ex_targets
           ex_indices (v "n") ex_logits).
  - reflexivity.
  - discriminate.
  - repeat constructor.
  - repeat constructor; lia.
  - repeat constructor; unfold valid_index; simpl; lia.
  - by apply (bool_decide_unpack (Forall (λ a : assignment, NoDup a.1) ex_indices)).
Defined.

(** The dense labels of the example batch: slot 1 of the second image is
    matched, slot 0 keeps the no-object class 2. *)
Example dense_labels_example :
  dense_labels 2 ex_logits ex_targets ex_indices = [[0; 1]; [2; 0]].
Proof. reflexivity. Qed.

(** The keys [forward] returns for the example batch with two auxiliary
    layers. *)
Example forward_keys_example :
  (λ L : gmap string Sym.expr, (map_to_list L).*1)
    <$> forward ex_criterion (Outputs ex_layer (Some [ex_layer; ex_layer]) false) ex_targets
  = Some ["loss_giou_1"; "loss_giou_0"; "loss_giou"; "loss_ce_1"; "loss_ce_0"; "loss_ce";
          "loss_bbox_1"; "loss_bbox_0"; "loss_bbox"].
Proof. by vm_compute. Qed.

(** The key order of the prediction dict: with ['aux_outputs'] listed
    first the device lookup raises, listed after the tensors it does not. *)
Example forward_aux_first_example :
  forward ex_criterion (Outputs ex_layer (Some [ex_layer]) true) ex_targets = None
  ∧ size <$> forward ex_criterion (Outputs ex_layer (Some [ex_layer]) false) ex_targets
    = Some 6%nat.
Proof. split; by vm_compute. Qed.

(** ** build_position_encoding *)

Import Tensor PositionEncoding.

Section builder.
Context {F : Type} `{!Arith F}.

Lemma build_sine (rows cols : nat → nat → F) (args : Args F) :
  position_embedding args ∈ ["v2"; "sine"] →
  build_position_encoding rows cols args
  = inr (Sine {| num_pos_feats := hidden_dim args `div` 2; temperature := 10000;
                 normalize := true; scale := fmul (of_Z 2) fpi |}).
Proof. intros Hopt. unfold build_position_encoding. by rewrite bool_decide_eq_true_2. Qed.

(** C8: the option values [sine] and [v2] build a sine embedding, [learned]
    and [v3] a learned embedding (two [50, num_pos_feats] tables), in both
    cases with [num_pos_feats = hidden_dim // 2], which is half of an even
    [hidden_dim]; every other option value fails with the configuration
    error. *)
Theorem build_position_encoding_spec (rows cols : nat → nat → F) (args : Args F) :
  0 ≤ hidden_dim args →
  let N := hidden_dim args `div` 2 in
  (position_embedding args ∈ ["sine"; "v2"] →
     ∃ m, build_position_encoding rows cols args = inr (Sine m) ∧ num_pos_feats m = N)
  ∧ (position_embedding args ∈ ["learned"; "v3"] →
       ∃ m, build_position_encoding rows cols args = inr (Learned m)
            ∧ shape (row_embed m) = [50%nat; Z.to_nat N]
            ∧ shape (col_embed m) = [50%nat; Z.to_nat N])
  ∧ (position_embedding args ∉ ["sine"; "v2"; "learned"; "v3"] →
       build_position_encoding rows cols args = inl (ValueError (position_embedding args)))
  ∧ (Z.even (hidden_dim args) = true → 2 * N = hidden_dim args).
Proof.
  intros Hdim N. split; [|split; [|split]].
  - intros Hopt. eexists. split; [apply build_sine|done].
    revert Hopt. rewrite !elem_of_cons. tauto.
  - intros Hopt. unfold build_position_encoding.
    rewrite bool_decide_eq_false_2.
    2:{ revert Hopt. rewrite !elem_of_cons, !elem_of_nil.
        intros [->|[->|[]]] [?|[?|[]]]; discriminate. }
    rewrite bool_decide_eq_true_2 by (revert Hopt; rewrite !elem_of_cons; tauto).
    unfold learned_init. fold N.
    rewrite bool_decide_eq_true_2 by (subst N; by apply Z.div_pos).
    eexists. split; [done|]. done.
  - intros Hopt. unfold build_position_encoding.
    rewrite !bool_decide_eq_false_2; [done| |];
      intros Hin; apply Hopt; revert Hin; rewrite !elem_of_cons; tauto.
  - intros Heven. subst N. apply Zeven_bool_iff, Zeven_div2 in Heven.
    rewrite Z.div2_div in Heven. lia.
Qed.

(** C10: for a sine-type option, [build_position_encoding] constructs the
    sine embedding with [normalize = True], the default temperature 10000
    and the default scale [2 * math.pi]; the result depends on the option
    value and [hidden_dim] only, whatever the other attributes of the
    argument object are. *)
Theorem build_sine_settings (rows cols : nat → nat → F) (args : Args F) :
  position_embedding args ∈ ["sine"; "v2"] →
  (∃ m, build_position_encoding rows cols args = inr (Sine m)
        ∧ normalize m = true
        ∧ temperature m = 10000 ∧ temperature m = default_temperature
        ∧ scale m = fmul (of_Z 2) fpi
        ∧ m = sine_init (hidden_dim args `div` 2) default_temperature true default_scale)
  ∧ ∀ rows' cols' (args' : Args F),
      position_embedding args' = position_embedding args →
      hidden_dim args' = hidden_dim args →
      build_position_encoding rows' cols' args' = build_position_encoding rows cols args.
Proof.
  intros Hopt.
  assert (position_embedding args ∈ ["v2"; "sine"]) as Hopt'
    by (revert Hopt; rewrite !elem_of_cons; tauto).
  split.
  - eexists. split; [by apply build_sine|]. done.
  - intros rows' cols' args' Ho Hd.
    rewrite !build_sine; [by rewrite Hd|done|by rewrite Ho].
Qed.

End builder.

Lemma build_position_encoding_spec_witness :
  let args := ex_args "learned" 8 in
  let N := 8 `div` 2 in
  (position_embedding args ∈ ["sine"; "v2"] →
     ∃ m, build_position_encoding ex_rows ex_cols args = inr (Sine m) ∧ num_pos_feats m = N)
  ∧ (position_embedding args ∈ ["learned"; "v3"] →
       ∃ m, build_position_encoding ex_rows ex_cols args = inr (Learned m)
            ∧ shape (row_embed m) = [50%nat; Z.to_nat N]
            ∧ shape (col_embed m) = [50%nat; Z.to_nat N])
  ∧ (position_embedding args ∉ ["sine"; "v2"; "learned"; "v3"] →
       build_position_encoding ex_rows ex_cols args
       = inl (ValueError (position_embedding args)))
  ∧ (Z.even (hidden_dim args) = true → 2 * N = hidden_dim args).
Proof.
  apply (build_position_encoding_spec ex_rows ex_cols (ex_args "learned" 8)).
  simpl. lia.
Defined.

Lemma build_sine_settings_witness :
  let args := ex_args "sine" 256 in
  (∃ m, build_position_encoding ex_rows ex_cols args = inr (Sine m)
        ∧ normalize m = true
        ∧ temperature m = 10000 ∧ temperature m = default_temperature
        ∧ scale m = fmul (of_Z 2) fpi
        ∧ m = sine_init (hidden_dim args `div` 2) default_temperature true default_scale)
  ∧ ∀ rows' cols' (args' : Args Sym.expr),
      position_embedding args' = position_embedding args →
      hidden_dim args' = hidden_dim args →
      build_position_encoding rows' cols' args'
      = build_position_encoding ex_rows ex_cols args.
Proof.
  apply (build_sine_settings ex_rows ex_cols (ex_args "sine" 256)).
  simpl. rewrite !elem_of_cons. by left.
Defined.

(** The builder on the example arguments: their temperature 20, normalize
    flag and scale are not used; an unknown option is rejected. *)
Example build_example :
  build_position_encoding ex_rows ex_cols (ex_args "v2" 256)
  = inr (Sine {| num_pos_feats := 128; temperature := 10000; normalize := true;
                 scale := Sym.EMul (Sym.EInt 2) Sym.EPi |})
  ∧ build_position_encoding ex_rows ex_cols (ex_args "sin" 256) = inl (ValueError "sin").
Proof. split; reflexivity. Qed.


(** ** Tensors *)

Import SpecPos.

Lemma all_indices_1 (n : nat) : all_indices [n] = (λ i, [i]) <$> seq 0 n.
Proof.
  simpl. induction (seq 0 n) as [|i l IH]; csimpl; [done|]. by rewrite IH.
Qed.

Lemma arange_indices_ok (k n : nat) :
  (k ≤ n)%nat →
  Forall (λ i : list nat, 0 ≤ Z.of_nat (i !!! 0%nat) < Z.of_nat n) (all_indices [k]).
Proof.
  intros Hk. rewrite all_indices_1. apply Forall_fmap, Forall_forall.
  intros i Hi. apply elem_of_seq in Hi. simpl. lia.
Qed.

(** Decide the first test of the goal in favour of the proposition tested. *)
Ltac decide_test tac :=
  match goal with
  | |- context [bool_decide ?P] => rewrite (bool_decide_eq_true_2 P) by tac
  end.

(** ** PositionEmbeddingLearned.forward *)

Section learned.
Context {F : Type} `{!Arith F}.

(** C9: for a [B, H, W] mask within the table size, the output of
    [PositionEmbeddingLearned.forward] has shape [B, 2 * C, H, W] and is,
    at every batch index, the one [2 * C, H, W] map [learned_map], which is
    determined by the tables and (H, W) alone: its first [C] channels are
    the column embedding of the pixel's column, the next [C] the row
    embedding of its row. A mask of another batch size (and any content)
    yields the same map at each of its batch indices. *)
Theorem learned_forward_spec {A} (self : PositionEmbeddingLearned F) (mask : tensor A)
    (B H W C : nat) :
  shape mask = [B; H; W] →
  shape (row_embed self) = [max_extent; C] → shape (col_embed self) = [max_extent; C] →
  (H ≤ max_extent)%nat → (W ≤ max_extent)%nat →
  ∃ out, learned_forward self mask = Some out
    ∧ shape out = [B; (2 * C)%nat; H; W]
    ∧ (∀ b c i j, (b < B)%nat → (c < 2 * C)%nat → (i < H)%nat → (j < W)%nat →
         elem out [b; c; i; j] = elem (learned_map self C H W) [c; i; j]
         ∧ (c < C → elem out [b; c; i; j] = elem (col_embed self) [j; c])%nat
         ∧ (C ≤ c → elem out [b; c; i; j] = elem (row_embed self) [i; c - C])%nat)
    ∧ (∀ A' (mask' : tensor A') (B' : nat), shape mask' = [B'; H; W] →
         ∃ out', learned_forward self mask' = Some out'
           ∧ shape out' = [B'; (2 * C)%nat; H; W]
           ∧ ∀ b b' c i j, (b < B)%nat → (b' < B')%nat → (c < 2 * C)%nat →
               (i < H)%nat → (j < W)%nat →
               elem out' [b'; c; i; j] = elem out [b; c; i; j]).
Proof.
  intros Hm Hr Hc HH HW. unfold max_extent in *.
  assert (Hgen : ∀ A' (mask' : tensor A') (B' : nat), shape mask' = [B'; H; W] →
    ∃ out', learned_forward self mask' = Some out'
      ∧ shape out' = [B'; (2 * C)%nat; H; W]
      ∧ ∀ b c i j, (b < B')%nat → (c < 2 * C)%nat → (i < H)%nat → (j < W)%nat →
          elem out' [b; c; i; j] = elem (learned_map self C H W) [c; i; j]).
  { clear Hm. intros A' mask' B' Hm.
    unfold learned_forward. rewrite Hm. simpl.
    unfold arange. rewrite !bool_decide_eq_true_2 by lia. simpl.
    unfold embedding. rewrite Hr, Hc. simpl shape. rewrite !Nat2Z.id.
    do 2 decide_test ltac:(by apply arange_indices_ok). simpl.
    unfold Tensor.repeat, unsqueeze, cat2, permute. simpl.
    rewrite !Nat.mul_1_r, !Nat.add_0_r.
    decide_test ltac:(done). simpl.
    eexists. split; [reflexivity|]. simpl. split.
    { f_equal; [lia|]. f_equal; [lia|]. f_equal; [lia|]. f_equal; lia. }
    intros b c i j Hb Hc' Hi Hj. rewrite !Nat2Z.id.
    rewrite (Nat.mod_small c), (Nat.mod_small j), (Nat.mod_small i) by lia.
    case_bool_decide; by rewrite !Nat.mod_small by lia. }
  destruct (Hgen A mask B Hm) as (out & Hout & Hshape & Hval).
  exists out. split; [done|]. split; [done|]. split.
  - intros b c i j Hb Hc' Hi Hj. rewrite Hval by done. simpl.
    split; [done|]. split; intros Hlt.
    + by rewrite bool_decide_eq_true_2.
    + by rewrite bool_decide_eq_false_2 by lia.
  - intros A' mask' B' Hm'.
    destruct (Hgen A' mask' B' Hm') as (out' & Hout' & Hshape' & Hval').
    exists out'. split; [done|]. split; [done|].
    intros b b' c i j ? ? ? ? ?. by rewrite Hval, Hval'.
Qed.

End learned.

(** ** Slices and broadcasting *)

Lemma slice_start_last (n : nat) : slice_start n (-1) = (n - 1)%nat.
Proof. unfold slice_start. rewrite bool_decide_eq_true_2 by lia. lia. Qed.

Lemma slice_len_last (n : nat) : slice_len n (-1) 1 = (1 `min` n)%nat.
Proof.
  unfold slice_len. rewrite slice_start_last, Nat.div_1_r. lia.
Qed.

Lemma slice_start_0 (n : nat) : slice_start n 0 = 0%nat.
Proof. unfold slice_start. rewrite bool_decide_eq_false_2 by lia. lia. Qed.

Lemma slice_start_1 (n : nat) : slice_start n 1 = (1 `min` n)%nat.
Proof. unfold slice_start. rewrite bool_decide_eq_false_2 by lia. lia. Qed.

Lemma even_halves (n : nat) : Nat.even n = true → (n = 2 * (n / 2))%nat.
Proof.
  intros He. apply Nat.even_spec in He as [m ->].
  by rewrite (Nat.mul_comm 2 m), Nat.div_mul, (Nat.mul_comm m 2).
Qed.

Lemma slice_len_evens (n : nat) : Nat.even n = true → slice_len n 0 2 = (n / 2)%nat.
Proof.
  intros He. unfold slice_len. rewrite slice_start_0.
  apply even_halves in He. set (m := (n / 2)%nat) in *. rewrite He.
  replace (2 * m - 0 + 2 - 1)%nat with (1 + m * 2)%nat by lia.
  rewrite Nat.div_add by lia. simpl. lia.
Qed.

Lemma slice_len_odds (n : nat) : Nat.even n = true → slice_len n 1 2 = (n / 2)%nat.
Proof.
  intros He. unfold slice_len. rewrite slice_start_1.
  apply even_halves in He. set (m := (n / 2)%nat) in *. rewrite He.
  destruct m as [|m]; [done|].
  replace (2 * S m - 1 `min` (2 * S m) + 2 - 1)%nat with (S m * 2)%nat by lia.
  by rewrite Nat.div_mul.
Qed.

Lemma broadcast_mid (B H W : nat) :
  broadcast_shapes [B; H; W] [B; (1 `min` H)%nat; W] = Some [B; H; W].
Proof.
  unfold broadcast_shapes. simpl.
  rewrite (bool_decide_eq_true_2 (B = B)) by done. simpl.
  destruct H as [|[|H]]; simpl; by rewrite ?bool_decide_eq_true_2.
Qed.

Lemma broadcast_last (B H W : nat) :
  broadcast_shapes [B; H; W] [B; H; (1 `min` W)%nat] = Some [B; H; W].
Proof.
  unfold broadcast_shapes. simpl.
  rewrite (bool_decide_eq_true_2 (B = B)), (bool_decide_eq_true_2 (H = H)) by done. simpl.
  destruct W as [|[|W]]; simpl; by rewrite ?bool_decide_eq_true_2.
Qed.

Lemma broadcast_channels (B H W n : nat) :
  broadcast_shapes [B; H; W; 1%nat] [n] = Some [B; H; W; n].
Proof.
  unfold broadcast_shapes. simpl. case_bool_decide as H1; [by subst|done].
Qed.

Lemma even_to_nat (z : Z) : 0 ≤ z → Z.even z = true → Nat.even (Z.to_nat z) = true.
Proof.
  intros Hz He. apply Z.even_spec in He as [m ->]. apply Nat.even_spec.
  exists (Z.to_nat m). lia.
Qed.

Lemma bidx_entry (n i : nat) :
  (i < n)%nat → (if bool_decide (n = 1%nat) then 0%nat else i) = i.
Proof. intros Hi. case_bool_decide; lia. Qed.

Lemma even_mod2 (c : nat) : Nat.even c = true → (c `mod` 2 = 0)%nat.
Proof.
  intros He. apply Nat.even_spec in He as [m ->].
  by rewrite Nat.mul_comm, Nat.Div0.mod_mul.
Qed.

Lemma odd_mod2 (c : nat) : Nat.even c = false → (c `mod` 2 = 1)%nat.
Proof.
  intros He. pose proof (Nat.mod_upper_bound c 2).
  destruct (c `mod` 2)%nat as [|[|k]] eqn:Hk; [|done|lia].
  apply Nat.Div0.mod_divides in Hk as [m ->].
  assert (Nat.even (2 * m) = true) as He' by (apply Nat.even_spec; by exists m).
  congruence.
Qed.

#[local] Arguments broadcast_shapes : simpl never.
#[local] Arguments slice_len : simpl never.
#[local] Arguments slice_start : simpl never.
#[local] Arguments Nat.div : simpl never.
#[local] Arguments Nat.modulo : simpl never.

Section sine.
Context {F : Type} `{!Arith F, !Transc F}.

Lemma embed_coords_shape (self : PositionEmbeddingSine F) (mask : tensor bool) (B H W : nat) :
  shape mask = [B; H; W] →
  ∃ y x, embed_coords self mask = Some (y, x)
         ∧ shape y = [B; H; W] ∧ shape x = [B; H; W].
Proof.
  intros Hm. unfold embed_coords, cumsum, y_divisor, x_divisor, slice, binop.
  simpl. rewrite Hm. simpl.
  destruct (normalize self); simpl; [|by eexists _, _].
  rewrite !slice_len_last, broadcast_mid, broadcast_last. simpl.
  by eexists _, _.
Qed.

Lemma interleave_spec (pos : tensor F) (B H W n : nat) :
  shape pos = [B; H; W; n] → Nat.even n = true →
  ∃ out, interleave pos = Some out
    ∧ shape out = [B; H; W; n]
    ∧ ∀ b h w c, (c < n)%nat →
        elem out [b; h; w; c]
        = (if Nat.even c then fsin else fcos) (elem pos [b; h; w; c]).
Proof.
  intros Hp He. unfold interleave, slice, stack2, flatten. rewrite Hp. simpl.
  rewrite slice_len_evens, slice_len_odds by done.
  decide_test ltac:(split; [done|simpl; lia]). simpl.
  eexists. split; [reflexivity|]. simpl. split.
  { do 4 f_equal. rewrite (even_halves n) at 2 by done. lia. }
  intros b h w c Hc. rewrite slice_start_0, slice_start_1, Nat.div_1_r.
  pose proof (Nat.div_mod_eq c 2) as Hdm.
  destruct (Nat.even c) eqn:Hec.
  - rewrite even_mod2 in * by done. simpl.
    by replace (c `div` 2 + (c `div` 2 + 0))%nat with c by lia.
  - rewrite odd_mod2 in * by done.
    replace (1 `min` n)%nat with 1%nat by lia. simpl.
    by replace (S (c `div` 2 + (c `div` 2 + 0)))%nat with c by lia.
Qed.


(** C6 (as amended): for a [B, H, W] mask and an even, non-negative
    [num_pos_feats = n], [PositionEmbeddingSine.forward] returns a tensor of
    shape exactly [B, 2 * n, H, W]. Its first [n] channels encode the
    y-coordinate of the pixel, the next [n] its x-coordinate; within a
    block, channel [i] is the coordinate divided by the wavelength
    [temperature ^ (2 * floor(i / 2) / n)], under the sine for even [i] and
    the cosine for odd [i], in the original channel order. *)
Theorem sine_forward_spec (self : PositionEmbeddingSine F) (mask : tensor bool) (B H W : nat) :
  shape mask = [B; H; W] →
  0 ≤ num_pos_feats self → Z.even (num_pos_feats self) = true →
  let n := Z.to_nat (num_pos_feats self) in
  ∃ y x out,
    embed_coords self mask = Some (y, x)
    ∧ sine_forward self mask = Some out
    ∧ shape out = [B; (2 * n)%nat; H; W]
    ∧ ∀ b c h w, (b < B)%nat → (c < 2 * n)%nat → (h < H)%nat → (w < W)%nat →
        elem out [b; c; h; w]
        = if bool_decide (c < n)%nat
          then channel_value self (elem y [b; h; w]) c
          else channel_value self (elem x [b; h; w]) (c - n).
Proof.
  intros Hm Hn0 Hev n.
  assert (Nat.even n = true) as Hevn by by apply even_to_nat.
  destruct (embed_coords_shape self mask B H W Hm) as (y & x & Hyx & Hy & Hx).
  exists y, x. unfold sine_forward. rewrite Hyx. simpl.
  unfold arange. decide_test ltac:(done). simpl. fold n.
  unfold unsqueeze, binop. rewrite Hx, Hy. simpl.
  rewrite broadcast_channels. simpl.
  lazymatch goal with
  | |- context [interleave ?t ≫= _] =>
      destruct (interleave_spec t B H W n eq_refl Hevn) as (ox & Hox & Hsx & Hvx)
  end.
  rewrite Hox. simpl.
  lazymatch goal with
  | |- context [interleave ?t ≫= _] =>
      destruct (interleave_spec t B H W n eq_refl Hevn) as (oy & Hoy & Hsy & Hvy)
  end.
  rewrite Hoy. simpl.
  unfold cat2, permute. rewrite Hsx, Hsy. simpl.
  decide_test ltac:(done). simpl.
  eexists. split; [done|]. split; [reflexivity|]. simpl.
  split; [f_equal; f_equal; lia|].
  intros b c h w Hb Hc Hh Hw.
  unfold channel_value, wavelength.
  case_bool_decide.
  - rewrite Hvy by done. unfold bidx. simpl.
    by rewrite !bidx_entry by done.
  - rewrite Hvx by lia. unfold bidx. simpl.
    by rewrite !bidx_entry by lia.
Qed.
End sine.

(** ** Normalized coordinates *)

Lemma fsum_snoc `{Arith F} (l : list F) (x : F) : fsum (l ++ [x]) = fadd (fsum l) x.
Proof. unfold fsum. by rewrite foldl_app. Qed.

Lemma count_S (f : nat → bool) (n : nat) :
  valid_count (F:=Q) f (S n) = (valid_count (F:=Q) f n + inject_Z (if f n then 1 else 0))%Q.
Proof. unfold valid_count. rewrite seq_S, fmap_app. simpl. by rewrite fsum_snoc. Qed.

Lemma count_all (f : nat → bool) (n : nat) :
  (∀ k, (k < n)%nat → f k = true) → (valid_count (F:=Q) f n == inject_Z (Z.of_nat n))%Q.
Proof.
  intros Hall. induction n as [|n IH]; [done|].
  rewrite count_S. rewrite Hall by lia. rewrite IH by (intros; apply Hall; lia).
  rewrite Nat2Z.inj_succ. unfold Z.succ. by rewrite inject_Z_plus.
Qed.

#[local] Arguments seq : simpl never.

Section coords.
Context {F : Type} `{!Arith F}.

Lemma valid_count_S (f : nat → bool) (n : nat) :
  valid_count (F:=F) f (S n) = fadd (valid_count f n) (of_bool (f n)).
Proof. unfold valid_count. rewrite seq_S, fmap_app. simpl. by rewrite fsum_snoc. Qed.

Lemma embed_coords_normalized (self : PositionEmbeddingSine F) (mask : tensor bool)
    (B H W : nat) :
  shape mask = [B; H; W] → normalize self = true →
  ∃ cy cx dy dx y x,
    cumsum 1 (tmap of_bool (tmap negb mask)) = Some cy
    ∧ cumsum 2 (tmap of_bool (tmap negb mask)) = Some cx
    ∧ y_divisor cy = Some dy ∧ x_divisor cx = Some dx
    ∧ embed_coords self mask = Some (y, x)
    ∧ ∀ b h w, (b < B)%nat → (h < H)%nat → (w < W)%nat →
        elem cy [b; h; w] = valid_count (λ k, negb (elem mask [b; k; w])) (S h)
        ∧ elem cx [b; h; w] = valid_count (λ k, negb (elem mask [b; h; k])) (S w)
        ∧ elem dy [b; 0; w]%nat = fadd (elem cy [b; (H - 1)%nat; w]) eps
        ∧ elem dx [b; h; 0]%nat = fadd (elem cx [b; h; (W - 1)%nat]) eps
        ∧ elem y [b; h; w]
          = fmul (fdiv (elem cy [b; h; w]) (elem dy [b; 0; w]%nat)) (scale self)
        ∧ elem x [b; h; w]
          = fmul (fdiv (elem cx [b; h; w]) (elem dx [b; h; 0]%nat)) (scale self).
Proof.
  intros Hm Hn. unfold valid_count.
  unfold embed_coords, cumsum, y_divisor, x_divisor, slice, binop.
  simpl. rewrite Hm, Hn. simpl.
  rewrite !slice_len_last, broadcast_mid, broadcast_last. simpl.
  do 6 eexists. do 5 (split; [reflexivity|]).
  intros b h w Hb Hh Hw. simpl. rewrite !slice_start_last. unfold bidx. simpl.
  rewrite ?Nat.add_0_r.
  rewrite ?(bidx_entry B b), ?(bidx_entry W w), ?(bidx_entry H h) by done.
  replace (match H with 0%nat => 0%nat | S _ => 1%nat end) with 1%nat by (destruct H; [lia|done]).
  replace (match W with 0%nat => 0%nat | S _ => 1%nat end) with 1%nat by (destruct W; [lia|done]).
  simpl. rewrite ?Nat.add_0_r. done.
Qed.

End coords.

(** *** Counting the valid positions *)

Lemma valid_pixels_S (f : nat → bool) (n : nat) :
  valid_pixels f (S n) = (valid_pixels f n + (if f n then 1 else 0))%nat.
Proof.
  unfold valid_pixels. rewrite seq_S, filter_app, length_app. f_equal. simpl.
  destruct (f n) eqn:Hf.
  - by rewrite filter_cons_True.
  - rewrite filter_cons_False; [done|]. by rewrite Hf.
Qed.

Lemma valid_pixels_le (f : nat → bool) (n : nat) : (valid_pixels f n ≤ n)%nat.
Proof.
  induction n as [|n IH]; [done|]. rewrite valid_pixels_S. destruct (f n); lia.
Qed.



(** *** The float32 facts *)

Lemma forallb_seq (P : nat → bool) (n k : nat) :
  forallb P (seq 0 n) = true → (k < n)%nat → P k = true.
Proof.
  intros Hall Hk. rewrite forallb_forall in Hall. apply Hall, in_seq. lia.
Qed.

Lemma counts_checked : forallb count_exact (seq 0 (S checked_extent)) = true.
Proof. vm_compute. reflexivity. Qed.


Lemma count_exact_spec (k : nat) :
  (k ≤ checked_extent)%nat →
  fadd (of_Z (Z.of_nat k) : spec_float) (of_Z 1) = of_Z (Z.of_nat (S k))
  ∧ fadd (of_Z (Z.of_nat k) : spec_float) (of_Z 0) = of_Z (Z.of_nat k)
  ∧ ∃ d, Float32.to_Q (fadd (of_Z (Z.of_nat k)) eps) = Some d ∧ (0 < d)%Q.
Proof.
  intros Hk.
  pose proof (forallb_seq _ _ k counts_checked ltac:(lia)) as Hc.
  unfold count_exact in Hc.
  apply andb_prop in Hc as [Hc Hd]. apply andb_prop in Hc as [H1 H0].
  apply bool_decide_eq_true_1 in H1, H0.
  split; [exact H1|]. split; [exact H0|].
  destruct (Float32.to_Q _) as [d|]; [|discriminate Hd].
  exists d. split; [reflexivity|].
  apply negb_true_iff in Hd. apply Qnot_le_lt. intros Hle.
  apply Qle_bool_iff in Hle. congruence.
Qed.

(** Counting in float32 is exact up to the checked extent. *)
Lemma float_count (f : nat → bool) (n : nat) :
  (n ≤ checked_extent)%nat →
  valid_count (F:=spec_float) f n = of_Z (Z.of_nat (valid_pixels f n)).
Proof.
  induction n as [|n IH]; intros Hn; [reflexivity|].
  rewrite valid_count_S, IH, valid_pixels_S by lia.
  pose proof (valid_pixels_le f n) as Hle.
  destruct (count_exact_spec (valid_pixels f n) ltac:(lia)) as (H1 & H0 & _).
  unfold of_bool. destruct (f n).
  - rewrite H1. by rewrite Nat.add_1_r.
  - rewrite H0. by rewrite Nat.add_0_r.
Qed.





(** ** The position encodings on concrete masks *)

(** C6 (as stated) fails for an odd [num_pos_feats]: with three frequency
    channels the even-indexed slice has two channels and the odd-indexed one
    has one, [torch.stack] rejects them, and no tensor is returned. *)
Lemma sine_forward_odd_fails :
  shape ex_mask = [1; 2; 3]%nat
  ∧ num_pos_feats odd_sine = 3
  ∧ sine_forward odd_sine ex_mask = None.
Proof. repeat split. Qed.

Lemma sine_forward_spec_witness :
  ∃ y x out,
    embed_coords ex_sine ex_mask = Some (y, x)
    ∧ sine_forward ex_sine ex_mask = Some out
    ∧ shape out = [1; 2 * Z.to_nat (num_pos_feats ex_sine); 2; 3]%nat
    ∧ ∀ b c h w, (b < 1)%nat → (c < 2 * Z.to_nat (num_pos_feats ex_sine))%nat →
        (h < 2)%nat → (w < 3)%nat →
        elem out [b; c; h; w]
        = if bool_decide (c < Z.to_nat (num_pos_feats ex_sine))%nat
          then channel_value ex_sine (elem y [b; h; w]) c
          else channel_value ex_sine (elem x [b; h; w])
                             (c - Z.to_nat (num_pos_feats ex_sine)).
Proof.
  apply (sine_forward_spec ex_sine ex_mask 1 2 3).
  - reflexivity.
  - simpl. lia.
  - reflexivity.
Defined.

(** One entry of the encoding of the example mask: channel 1 is the cosine
    of the normalized row coordinate over the first wavelength. *)
Example sine_forward_example :
  (λ out, (shape out, elem out [0; 1; 1; 2]%nat)) <$> sine_forward ex_sine ex_mask
  = Some ([1; 4; 2; 3]%nat,
          Sym.ECos (Sym.EDiv
            (Sym.EMul
               (Sym.EDiv (Sym.EAdd (Sym.EAdd (Sym.EInt 0) (Sym.EInt 0)) (Sym.EInt 0))
                         (Sym.EAdd (Sym.EAdd (Sym.EAdd (Sym.EInt 0) (Sym.EInt 0)) (Sym.EInt 0))
                                   (Sym.ELit (1 # 1000000))))
               (Sym.EMul (Sym.EInt 2) Sym.EPi))
            (Sym.EPow (Sym.EInt 10000)
               (Sym.EDiv (Sym.EMul (Sym.EInt 2)
                                   (Sym.EFloorDiv (Sym.EInt 1) (Sym.EInt 2)))
                         (Sym.EInt 2))))).
Proof. reflexivity. Qed.


(** The normalized row coordinate of the example mask in float32: in its
    unpadded first column of two pixels the last coordinate is
    6.283182621002197, below the scale; in its padded last column it is 0.
    In an unpadded column of 32 pixels the last coordinate is the float32
    scale 6.2831854820251465, above [2 * math.pi]. *)
Example normalize_example :
  (λ yx : tensor spec_float * tensor spec_float,
     (elem yx.1 [0; 1; 0]%nat, elem yx.1 [0; 1; 2]%nat))
    <$> embed_coords float_sine ex_mask
  = Some (S754_finite false 13176789 (-21), S754_zero false)
  ∧ (λ yx : tensor spec_float * tensor spec_float, elem yx.1 [0; 31; 0]%nat)
      <$> embed_coords float_sine (T [1; 32; 1]%nat (λ _, false))
    = Some (S754_finite false 13176795 (-21))
  ∧ Float32.to_Q (S754_finite false 13176795 (-21)) = Some (13176795 # 2097152)
  ∧ (two_pi < 13176795 # 2097152)%Q.
Proof. repeat split; by vm_compute. Qed.

Lemma learned_forward_spec_witness :
  ∃ out, learned_forward ex_learned ex_mask = Some out
    ∧ shape out = [1; 2 * 2; 2; 3]%nat
    ∧ (∀ b c i j, (b < 1)%nat → (c < 2 * 2)%nat → (i < 2)%nat → (j < 3)%nat →
         elem out [b; c; i; j] = elem (learned_map ex_learned 2 2 3) [c; i; j]
         ∧ (c < 2 → elem out [b; c; i; j] = elem (col_embed ex_learned) [j; c])%nat
         ∧ (2 ≤ c → elem out [b; c; i; j] = elem (row_embed ex_learned) [i; c - 2])%nat)
    ∧ (∀ A' (mask' : tensor A') (B' : nat), shape mask' = [B'; 2; 3]%nat →
         ∃ out', learned_forward ex_learned mask' = Some out'
           ∧ shape out' = [B'; 2 * 2; 2; 3]%nat
           ∧ ∀ b b' c i j, (b < 1)%nat → (b' < B')%nat → (c < 2 * 2)%nat →
               (i < 2)%nat → (j < 3)%nat →
               elem out' [b'; c; i; j] = elem out [b; c; i; j]).
Proof.
  apply (learned_forward_spec ex_learned ex_mask 1 2 3 2).
  - reflexivity.
  - reflexivity.
  - reflexivity.
  - unfold max_extent. lia.
  - unfold max_extent. lia.
Defined.

(** The tables of [ex_learned] are those the constructor builds, and the
    encoding of the example mask reads the column table first. *)
Example learned_forward_example :
  learned_init ex_rows ex_cols 2 = Some ex_learned
  ∧ (λ out, (shape out, elem out [0; 1; 1; 2]%nat, elem out [0; 2; 1; 2]%nat))
      <$> learned_forward ex_learned ex_mask
    = Some ([1; 4; 2; 3]%nat, Sym.EVar "col2_1", Sym.EVar "row1_0").
Proof. split; reflexivity. Qed.

(** * Further properties of the code *)

(** ** _get_tgt_permutation_idx *)

Lemma get_tgt_as_src (indices : list assignment) :
  _get_tgt_permutation_idx indices
  = _get_src_permutation_idx ((λ a : assignment, (a.2, a.1)) <$> indices).
Proof.
  unfold _get_tgt_permutation_idx, _get_src_permutation_idx.
  rewrite imap_fmap, <-list_fmap_compose.
  assert (imap (λ i '(_, tgt), replicate (length tgt) (Z.of_nat i)) indices
          = imap (λ n, (λ '(src, _), replicate (length src) (Z.of_nat n))
                       ∘ (λ a : assignment, (a.2, a.1))) indices) as ->.
  { apply imap_ext. by intros ? [??] ?. }
  assert ((λ '(_, tgt), tgt) <$> indices
          = (λ '(src, _), src) ∘ (λ a : assignment, (a.2, a.1)) <$> indices) as ->.
  { apply list_fmap_ext. by intros ? [??] ?. }
  done.
Qed.

(** X1: [_get_tgt_permutation_idx] raises on the empty assignment list; on
    a non-empty one it returns the image index repeated once per matched
    target index, and the matched target indices in batch order. When every
    image has as many target as query indices, its batch-index sequence is
    the one [_get_src_permutation_idx] returns, so the two results address
    the same matched pairs position by position. *)
Theorem get_tgt_permutation_idx_spec (indices : list assignment) :
  (indices = [] → _get_tgt_permutation_idx indices = None)
  ∧ (indices ≠ [] →
       ∃ batch_idx tgt_idx,
         _get_tgt_permutation_idx indices = Some (batch_idx, tgt_idx)
         ∧ batch_idx
           = concat (imap (λ i (a : assignment), replicate (length a.2) (Z.of_nat i)) indices)
         ∧ tgt_idx = concat (snd <$> indices)
         ∧ length batch_idx = length tgt_idx
         ∧ (Forall (λ a : assignment, length a.1 = length a.2) indices →
              ∃ src_idx, _get_src_permutation_idx indices = Some (batch_idx, src_idx)
                         ∧ length src_idx = length tgt_idx)).
Proof.
  split; [by intros ->|]. intros Hne.
  rewrite get_tgt_as_src.
  set (swapped := (λ a : assignment, (a.2, a.1)) <$> indices).
  assert (swapped ≠ []) as Hne' by (subst swapped; by destruct indices).
  rewrite (get_src_permutation_idx_Some swapped Hne').
  assert (Hb : concat (imap (λ i (a : assignment), replicate (length a.1) (Z.of_nat i)) swapped)
               = concat (imap (λ i (a : assignment), replicate (length a.2) (Z.of_nat i))
                              indices)).
  { subst swapped. by rewrite imap_fmap. }
  assert (Ht : concat (fst <$> swapped) = concat (snd <$> indices)).
  { subst swapped. by rewrite <-list_fmap_compose. }
  assert (Hlen : length (concat (imap (λ i (a : assignment),
                                         replicate (length a.1) (Z.of_nat i)) swapped))
                 = length (concat (fst <$> swapped))).
  { by rewrite length_batch_idx, length_src_idx. }
  rewrite Hb, Ht in *.
  eexists _, _. split; [done|]. split; [done|]. split; [done|].
  split; [done|].
  intros Heq. rewrite (get_src_permutation_idx_Some indices Hne).
  assert (Hsame : imap (λ i (a : assignment), replicate (length a.1) (Z.of_nat i)) indices
                  = imap (λ i (a : assignment), replicate (length a.2) (Z.of_nat i)) indices).
  { apply imap_ext. intros i a Ha. simpl.
    by rewrite (Forall_lookup_1 _ _ _ _ Heq Ha). }
  eexists. split; [by rewrite Hsame|].
  rewrite <-Hlen, <-Hsame. by rewrite length_batch_idx, length_src_idx.
Qed.

(** ** forward: the final layer's terms and the size of the result *)

Section forward_more.
Context {F : Type} `{!Arith F, !Transc F, !Geometry F}.

Lemma layer_terms_explicit (self : SetCriterion F) o targets nb l :
  layer_terms self o targets nb = Some l →
  ∃ c b g : F, l = <["loss_giou" := g]> (<["loss_bbox" := b]> ∅) ∪ {[ "loss_ce" := c ]}.
Proof.
  unfold layer_terms. intros H.
  apply bind_Some in H as (indices & _ & H).
  apply bind_Some in H as (lc & Hc & H).
  apply bind_Some in H as (lb & Hb & H).
  injection H as <-.
  apply loss_labels_keys in Hc as [c ->].
  apply loss_boxes_keys in Hb as (b & g & ->). by exists c, b, g.
Qed.

Lemma layer_terms_size (self : SetCriterion F) o targets nb l :
  layer_terms self o targets nb = Some l → size l = 3%nat.
Proof.
  intros Hl. apply layer_terms_explicit in Hl as (c & b & g & ->).
  rewrite map_size_disj_union.
  - rewrite !map_size_insert_None, map_size_empty, map_size_singleton; [done|done|].
    by rewrite lookup_insert_ne.
  - apply map_disjoint_singleton_r.
    rewrite !lookup_insert_ne by done. apply lookup_empty.
Qed.

Lemma suffix_keys_size (i : nat) (l : gmap string F) : size (suffix_keys i l) = size l.
Proof.
  unfold suffix_keys. induction l as [|k x l Hk _ IH] using map_first_key_ind.
  - by rewrite kmap_empty.
  - rewrite (kmap_insert (λ k : string, k +:+ "_" +:+ pretty i)).
    rewrite !map_size_insert_None; [by rewrite IH|done|].
    by rewrite (lookup_kmap (λ k : string, k +:+ "_" +:+ pretty i)).
Qed.

Lemma aux_loop_size (self : SetCriterion F) targets nb auxs i losses L :
  aux_loop self targets nb i auxs losses = Some L →
  (∀ key k name, is_Some (losses !! key) → name ∈ term_names → (i ≤ k)%nat →
                 key ≠ aux_name name k) →
  size L = (size losses + 3 * length auxs)%nat.
Proof.
  revert i losses. induction auxs as [|a auxs IH]; intros i losses HL Hfresh.
  - simpl in HL. injection HL as <-. simpl. lia.
  - rewrite aux_loop_cons in HL.
    destruct (layer_terms self a targets nb) as [l|] eqn:Hl; simpl in HL; [|done].
    pose proof (layer_terms_keys _ _ _ _ _ Hl) as Hkeys.
    rewrite (IH _ _ HL).
    + unfold dict_update. rewrite map_size_disj_union.
      * rewrite suffix_keys_size, (layer_terms_size _ _ _ _ _ Hl). simpl. lia.
      * apply map_disjoint_spec. intros key x y Hx Hy.
        unfold suffix_keys in Hx.
        apply (lookup_kmap_Some (λ k : string, k +:+ "_" +:+ pretty i)) in Hx
          as (name & -> & Hname).
        eapply (Hfresh _ i name); [by rewrite Hy|apply Hkeys; by rewrite Hname|lia|done].
    + intros key k name Hs Hname Hk.
      unfold dict_update in Hs. apply lookup_union_is_Some in Hs as [Hs|Hs].
      * unfold suffix_keys in Hs.
        apply (lookup_kmap_is_Some (λ k : string, k +:+ "_" +:+ pretty i)) in Hs
          as (name' & -> & Hname').
        intros Heq. apply aux_name_inj in Heq as [_ ?]; [lia|by apply Hkeys|done].
      * apply Hfresh; [done|done|lia].
Qed.

(** X2: a list of auxiliary outputs that is the first key of the prediction
    dict makes [forward] raise, even an empty list: the normalizer takes its
    device from the dict's first value. Listed after a tensor, an empty
    list gives the result of the dict without the key. Auxiliary outputs
    never change the final layer's terms: whenever [forward] returns with
    auxiliary outputs it also returns without them, and the result without
    them (exactly the three terms) is contained in the result with them. *)
Theorem forward_final_terms (self : SetCriterion F) (final : layer_outputs F)
    (auxs : list (layer_outputs F)) (first first' : bool) (targets : list (target F)) :
  forward self (Outputs final (Some auxs) true) targets = None
  ∧ forward self (Outputs final (Some []) false) targets
    = forward self (Outputs final None first') targets
  ∧ ∀ L, forward self (Outputs final (Some auxs) first) targets = Some L →
      ∃ L0, forward self (Outputs final None first') targets = Some L0
            ∧ L0 ⊆ L
            ∧ size L0 = 3%nat
            ∧ ∀ name, is_Some (L0 !! name) ↔ name ∈ term_names.
Proof.
  split; [by apply forward_aux_first; simpl; eauto|].
  split.
  { rewrite !forward_aux_not_first; [done|by intros []|done]. }
  intros L HL. apply forward_Some_layers in HL as [_ HL].
  rewrite forward_aux_not_first by by intros []. simpl in *.
  destruct (layer_terms self final targets _) as [fin|] eqn:Hfin; simpl in *; [|done].
  exists fin. split; [done|].
  pose proof (layer_terms_keys _ _ _ _ _ Hfin) as Hkeys.
  split; [|split; [by eapply layer_terms_size|done]].
  apply map_subseteq_spec. intros key x Hx.
  apply aux_loop_lookup in HL as [H1 _]. rewrite H1; [done|].
  intros k name _ Hname. symmetry. apply aux_name_not_term; [done|].
  apply Hkeys. by rewrite Hx.
Qed.

(** X3: the result of [forward] holds exactly one triple of terms for the
    final layer and one per auxiliary layer: three entries without
    auxiliary outputs, [3 * (1 + n)] with [n] auxiliary layers. *)
Theorem forward_size (self : SetCriterion F) (o : outputs F)
    (targets : list (target F)) (L : gmap string F) :
  forward self o targets = Some L →
  size L = (3 * (1 + length (default [] (aux_outputs o))))%nat.
Proof.
  intros HL. apply forward_Some_layers in HL as [_ HL].
  destruct (layer_terms self (out_final o) targets _) as [fin|] eqn:Hfin;
    simpl in HL; [|done].
  pose proof (layer_terms_keys _ _ _ _ _ Hfin) as Hkeys.
  pose proof (layer_terms_size _ _ _ _ _ Hfin) as Hsize.
  destruct (aux_outputs o) as [auxs|]; simpl.
  - rewrite (aux_loop_size _ _ _ _ _ _ _ HL); [lia|].
    intros key k name Hs Hname _ ->. apply Hkeys in Hs.
    by apply (aux_name_not_term name (aux_name name k) k Hname Hs).
  - injection HL as <-. lia.
Qed.

End forward_more.

Lemma forward_size_witness :
  ∃ L, forward ex_criterion (Outputs ex_layer (Some [ex_layer; ex_layer]) false) ex_targets = Some L
       ∧ size L = (3 * (1 + 2))%nat.
Proof.
  destruct (forward ex_criterion (Outputs ex_layer (Some [ex_layer; ex_layer]) false) ex_targets)
    as [L|] eqn:HL; [|by vm_compute in HL].
  exists L. split; [done|]. apply (forward_size _ _ _ _ HL).
Defined.

(** ** forward: what it reads, and when it raises *)

Section forward_reads.
Context {F : Type} `{!Arith F, !Transc F, !Geometry F}.

Lemma layer_terms_ext (s s' : SetCriterion F) o targets nb :
  num_classes s = num_classes s' → matcher s = matcher s' →
  empty_weight s = empty_weight s' →
  layer_terms s o targets nb = layer_terms s' o targets nb.
Proof.
  intros Hn Hm Hw. unfold layer_terms, loss_labels, loss_boxes.
  by rewrite Hn, Hm, Hw.
Qed.

Lemma aux_loop_ext (s s' : SetCriterion F) targets nb auxs i losses :
  num_classes s = num_classes s' → matcher s = matcher s' →
  empty_weight s = empty_weight s' →
  aux_loop s targets nb i auxs losses = aux_loop s' targets nb i auxs losses.
Proof.
  intros Hn Hm Hw. revert i losses.
  induction auxs as [|a auxs IH]; intros i losses; [done|].
  rewrite !aux_loop_cons, (layer_terms_ext s s') by done.
  destruct (layer_terms s' a targets nb); simpl; [apply IH|done].
Qed.

(** X4: [forward] never applies the weights: two criteria built with the
    same class count, matcher and no-object coefficient but any two
    [weight_dict]s return the same result, so the terms are unweighted. *)
Theorem forward_ignores_weight_dict (nc : nat)
    (m : layer_outputs F → list (target F) → option (list assignment))
    (wd wd' : gmap string F) (eos : F) (o : outputs F) (targets : list (target F)) :
  forward (init nc m wd eos) o targets = forward (init nc m wd' eos) o targets.
Proof.
  rewrite !forward_layers.
  destruct (first_value o ≫= device) as [[]|]; simpl; [|done].
  rewrite (layer_terms_ext (init nc m wd eos) (init nc m wd' eos)) by done.
  destruct (layer_terms _ (out_final o) targets _) as [fin|]; simpl; [|done].
  destruct (aux_outputs o) as [auxs|]; [|done].
  by apply aux_loop_ext.
Qed.

Lemma layer_terms_missing (self : SetCriterion F) (a : layer_outputs F) targets nb :
  pred_logits a = None ∨ pred_boxes a = None ∨ matcher self a targets = None →
  layer_terms self a targets nb = None.
Proof.
  unfold layer_terms. intros [Hk|[Hk|Hk]].
  - destruct (matcher self a targets) as [ind|]; simpl; [|done].
    unfold loss_labels. by rewrite Hk.
  - destruct (matcher self a targets) as [ind|]; simpl; [|done].
    destruct (loss_labels self a targets ind nb); simpl; [|done].
    unfold loss_boxes. by rewrite Hk.
  - by rewrite Hk.
Qed.

(** X5: [forward] raises as soon as one layer, the final one or any
    auxiliary one, lacks ['pred_logits'] or ['pred_boxes'] or makes the
    matcher raise. *)
Theorem forward_missing_key (self : SetCriterion F) (o : outputs F)
    (targets : list (target F)) (a : layer_outputs F) :
  a = out_final o ∨ a ∈ default [] (aux_outputs o) →
  pred_logits a = None ∨ pred_boxes a = None ∨ matcher self a targets = None →
  forward self o targets = None.
Proof.
  intros Ha Hmiss. rewrite forward_layers.
  destruct (first_value o ≫= device) as [[]|]; simpl; [|done].
  pose proof (layer_terms_missing self a targets (of_Z (count_boxes targets)) Hmiss) as Hl.
  destruct Ha as [->|Ha]; [by rewrite Hl|].
  destruct (layer_terms self (out_final o) targets _) as [fin|]; simpl; [|done].
  destruct (aux_outputs o) as [auxs|]; simpl in Ha; [|by apply elem_of_nil in Ha].
  apply eq_None_not_Some. rewrite aux_loop_iff_layers, Forall_forall.
  intros Hall. apply Hall in Ha. rewrite Hl in Ha. by destruct Ha.
Qed.

(** X6: when every target of every image is matched once, the normalizer of
    [forward] (the number of targets of the batch) is the number of matched
    pairs. *)
Theorem count_boxes_matched (targets : list (target F)) (indices : list assignment) :
  Forall2 (λ (t : target F) (a : assignment),
             length a.1 = length a.2 ∧ length a.2 = length (labels t)) targets indices →
  count_boxes targets = Z.of_nat (num_matched indices).
Proof.
  intros Hall. rewrite count_boxes_sum. f_equal. unfold num_matched.
  induction Hall as [|t a targets indices [H1 H2] _ IH]; csimpl; [done|].
  rewrite IH. lia.
Qed.

Lemma zip_dense_no_object (c : Z) (logits : list (list (list F))) :
  zip (concat logits) (concat ((λ row, replicate (length row) c) <$> logits))
  = (λ x, (x, c)) <$> concat logits.
Proof.
  induction logits as [|row logits IH]; csimpl; [done|].
  rewrite zip_with_app by by rewrite length_replicate.
  rewrite fmap_app, IH. f_equal.
  clear. induction row as [|x row IH]; simpl; [done|]. by rewrite IH.
Qed.

(** X7: on a batch without any match (every image's assignment is empty),
    [loss_labels] labels every slot as no-object: the classification term is
    the mean of the slots' negative log-likelihood of the no-object class,
    each weighted by the no-object coefficient. *)
Theorem loss_labels_no_matches (nc : nat) m wd (eos : F) (o : layer_outputs F)
    (targets : list (target F)) (indices : list assignment) (nb : F)
    (logits : list (list (list F))) :
  pred_logits o = Some logits →
  Forall (Forall (λ x, length x = (nc + 1)%nat)) logits →
  indices ≠ [] → targets ≠ [] →
  Forall (λ a, a = ([], [])) indices →
  loss_labels (init nc m wd eos) o targets indices nb
  = Some {[ "loss_ce" :=
             fdiv (fsum ((λ x, fmul eos (nll x (Z.of_nat nc))) <$> concat logits))
                  (fsum ((λ _, eos) <$> concat logits)) ]}.
Proof.
  intros Hpl Hshape Hi Ht Hno. unfold loss_labels. rewrite Hpl. simpl.
  rewrite get_src_permutation_idx_Some by done. simpl.
  destruct (no_matches_idx indices _ _ Hno (get_src_permutation_idx_Some _ Hi)) as [-> ->].
  match goal with |- (?m ≫= _) = _ => destruct m as [parts|] eqn:Hparts end.
  - simpl.
    assert (torch_cat parts = Some []) as ->.
    { pose proof (no_matches_parts labels _ _ _ Hno Hparts) as Hnil.
      destruct parts as [|p parts].
      - apply mapM_Some, Forall2_length in Hparts. by destruct targets, indices.
      - unfold torch_cat. by rewrite Hnil. }
    simpl. unfold index_put2. simpl.
    change (<[nc:=eos]> (replicate (nc + 1) (of_Q 1)))
      with (empty_weight (init nc m wd eos)).
    rewrite empty_weight_init, cross_entropy_valid.
    + simpl. do 3 f_equal. unfold weighted_mean_ce.
      rewrite zip_dense_no_object, <-!list_fmap_compose.
      f_equal; f_equal; apply list_fmap_ext; intros ? x _; simpl;
        unfold class_weight; by rewrite bool_decide_eq_true_2.
    + rewrite <-list_fmap_compose. apply list_fmap_ext. intros ? row _. simpl.
      by rewrite length_replicate.
    + done.
    + apply Forall_fmap, Forall_true. intros row. simpl.
      apply Forall_replicate. lia.
  - exfalso. apply mapM_None in Hparts.
    revert targets Ht Hparts. clear Hi.
    induction Hno as [|a indices -> _ IH]; intros [|t targets] _ Hex; simpl in Hex;
      try by apply Exists_nil in Hex.
    apply Exists_cons in Hex as [Hex|Hex]; [done|].
    destruct targets as [|t' targets]; [by apply Exists_nil in Hex|].
    by apply (IH (t' :: targets)).
Qed.

(** X8: [loss_boxes] raises when a matched query index of some image lies
    outside the image's [Q] predicted boxes, that is outside [-Q, Q). *)
Theorem loss_boxes_query_out_of_range (self : SetCriterion F) (o : layer_outputs F)
    (targets : list (target F)) (indices : list assignment) (nb : F)
    (all_boxes : list (list (box F))) (i : nat) (row : list (box F))
    (a : assignment) (q : Z) :
  pred_boxes o = Some all_boxes →
  all_boxes !! i = Some row → indices !! i = Some a → q ∈ a.1 →
  ¬ (- Z.of_nat (length row) ≤ q < Z.of_nat (length row)) →
  loss_boxes self o targets indices nb = None.
Proof.
  intros Hpb Hrow Ha Hq Hout. unfold loss_boxes. rewrite Hpb. simpl.
  assert (indices ≠ []) as Hne by (by intros ->).
  rewrite get_src_permutation_idx_Some by done. simpl.
  assert (index2 all_boxes
            (concat (imap (λ i (a : assignment), replicate (length a.1) (Z.of_nat i)) indices))
            (concat (fst <$> indices)) = None) as ->; [|done].
  unfold index2. rewrite zip_batch_src. apply mapM_None, Exists_exists.
  exists (Z.of_nat i, q). split.
  - apply list_elem_of_In, in_concat.
    exists ((λ q, (Z.of_nat i, q)) <$> a.1). split; apply list_elem_of_In.
    + apply list_elem_of_lookup. exists i. by rewrite list_lookup_imap, Ha.
    + by apply list_elem_of_fmap_2.
  - simpl. rewrite (py_index_valid all_boxes (Z.of_nat i)), Nat2Z.id, Hrow.
    + simpl. unfold py_index.
      rewrite !bool_decide_eq_false_2; [done|lia|lia].
    + apply lookup_lt_Some in Hrow. unfold valid_index. lia.
Qed.

End forward_reads.

Lemma forward_missing_key_witness :
  forward ex_criterion (Outputs ex_layer (Some [LayerOutputs (Some ex_logits) None]) false)
          ex_targets = None.
Proof.
  apply (forward_missing_key ex_criterion _ ex_targets (LayerOutputs (Some ex_logits) None)).
  - right. simpl. constructor.
  - right. left. reflexivity.
Defined.

Lemma count_boxes_matched_witness :
  count_boxes ex_targets = Z.of_nat (num_matched ex_indices).
Proof.
  apply (count_boxes_matched ex_targets ex_indices).
  repeat constructor.
Defined.

Lemma loss_labels_no_matches_witness :
  loss_labels (init 2 (λ _ _, Some [([], [])]) ∅ (v "eos")) empty_layer empty_targets
              [([], [])] (v "n")
  = Some {[ "loss_ce" :=
             fdiv (fsum ((λ x, fmul (v "eos") (nll x 2)) <$> [[v "a"; v "b"; v "c"]]))
                  (fsum ((λ _, v "eos") <$> [[v "a"; v "b"; v "c"]])) ]}.
Proof.
  apply (loss_labels_no_matches 2 (λ _ _, Some [([], [])]) ∅ (v "eos") empty_layer
           empty_targets [([], [])] (v "n") [[[v "a"; v "b"; v "c"]]]).
  - reflexivity.
  - repeat constructor.
  - discriminate.
  - discriminate.
  - repeat constructor.
Defined.

Lemma loss_boxes_query_out_of_range_witness :
  loss_boxes ex_criterion ex_layer ex_targets [([0; 2], [1; 0]); ([1], [0])] (v "n") = None.
Proof.
  apply (loss_boxes_query_out_of_range ex_criterion ex_layer ex_targets
           [([0; 2], [1; 0]); ([1], [0])] (v "n") ex_boxes 0%nat
           [Box (v "p0") (v "p1") (v "p2") (v "p3"); Box (v "q0") (v "q1") (v "q2") (v "q3")]
           ([0; 2], [1; 0]) 2).
  - reflexivity.
  - reflexivity.
  - reflexivity.
  - simpl. repeat constructor.
  - simpl. lia.
Defined.

(** ** PositionEmbeddingSine.forward: when it returns *)

Lemma slice_len_odd_differ (n : nat) :
  Nat.even n = false → slice_len n 0 2 ≠ slice_len n 1 2.
Proof.
  intros He. unfold slice_len. rewrite slice_start_0, slice_start_1.
  assert (Nat.odd n = true) as Ho by (by rewrite <-Nat.negb_even, He).
  apply Nat.odd_spec in Ho as [m ->].
  replace (2 * m + 1 - 0 + 2 - 1)%nat with ((m + 1) * 2)%nat by lia.
  replace (2 * m + 1 - 1 `min` (2 * m + 1) + 2 - 1)%nat with (1 + m * 2)%nat by lia.
  rewrite Nat.div_mul, Nat.div_add by lia.
  change (1 / 2)%nat with 0%nat. lia.
Qed.

Section sine_defined.
Context {F : Type} `{!Arith F, !Transc F}.

Lemma interleave_odd (pos : tensor F) (B H W n : nat) :
  shape pos = [B; H; W; n] → Nat.even n = false → interleave pos = None.
Proof.
  intros Hp He. unfold interleave, slice, stack2. rewrite Hp. simpl.
  rewrite bool_decide_eq_false_2; [done|].
  intros [Heq _]. injection Heq as Heq. by apply slice_len_odd_differ in Heq.
Qed.

Lemma sine_forward_shape (self : PositionEmbeddingSine F) (mask : tensor bool) (B H W : nat) :
  shape mask = [B; H; W] →
  0 ≤ num_pos_feats self → Z.even (num_pos_feats self) = true →
  ∃ out, sine_forward self mask = Some out
         ∧ shape out = [B; (2 * Z.to_nat (num_pos_feats self))%nat; H; W].
Proof.
  intros Hm Hn0 Hev. set (n := Z.to_nat (num_pos_feats self)).
  assert (Nat.even n = true) as Hevn by by apply even_to_nat.
  destruct (embed_coords_shape self mask B H W Hm) as (y & x & Hyx & Hy & Hx).
  unfold sine_forward. rewrite Hyx. simpl.
  unfold arange. decide_test ltac:(done). simpl. fold n.
  unfold unsqueeze, binop. rewrite Hx, Hy. simpl.
  rewrite broadcast_channels. simpl.
  lazymatch goal with
  | |- context [interleave ?t ≫= _] =>
      destruct (interleave_spec t B H W n eq_refl Hevn) as (ox & Hox & Hsx & _)
  end.
  rewrite Hox. simpl.
  lazymatch goal with
  | |- context [interleave ?t ≫= _] =>
      destruct (interleave_spec t B H W n eq_refl Hevn) as (oy & Hoy & Hsy & _)
  end.
  rewrite Hoy. simpl.
  unfold cat2, permute. rewrite Hsx, Hsy. simpl.
  decide_test ltac:(done). simpl.
  eexists. split; [reflexivity|]. simpl. f_equal; f_equal; lia.
Qed.

Lemma sine_forward_undefined (self : PositionEmbeddingSine F) (mask : tensor bool)
    (B H W : nat) :
  shape mask = [B; H; W] →
  num_pos_feats self < 0 ∨ Z.even (num_pos_feats self) = false →
  sine_forward self mask = None.
Proof.
  intros Hm Hbad.
  destruct (embed_coords_shape self mask B H W Hm) as (y & x & Hyx & Hy & Hx).
  unfold sine_forward. rewrite Hyx. simpl. unfold arange.
  destruct (decide (num_pos_feats self < 0)) as [Hneg|Hpos].
  { by rewrite bool_decide_eq_false_2 by lia. }
  destruct Hbad as [?|Hodd]; [done|].
  rewrite bool_decide_eq_true_2 by lia. simpl.
  unfold unsqueeze, binop. rewrite Hx. simpl.
  rewrite broadcast_channels. simpl.
  rewrite (interleave_odd _ B H W (Z.to_nat (num_pos_feats self)));
    [rewrite Hy; simpl; by rewrite broadcast_channels|done|].
  destruct (Nat.even (Z.to_nat (num_pos_feats self))) eqn:He; [|done].
  apply Nat.even_spec in He as [m Hm'].
  assert (num_pos_feats self = 2 * Z.of_nat m) as Hz by lia.
  rewrite Hz, Z.even_mul in Hodd. done.
Qed.

(** X9: on a [B, H, W] mask, [PositionEmbeddingSine.forward] returns a
    tensor exactly when [num_pos_feats] is non-negative and even; it then has
    [2 * num_pos_feats] channels. A negative value makes [torch.arange]
    raise, an odd one [torch.stack]. *)
Theorem sine_forward_defined (self : PositionEmbeddingSine F) (mask : tensor bool)
    (B H W : nat) :
  shape mask = [B; H; W] →
  (is_Some (sine_forward self mask)
   ↔ 0 ≤ num_pos_feats self ∧ Z.even (num_pos_feats self) = true)
  ∧ ∀ out, sine_forward self mask = Some out →
      shape out = [B; Z.to_nat (2 * num_pos_feats self); H; W].
Proof.
  intros Hm.
  destruct (decide (0 ≤ num_pos_feats self ∧ Z.even (num_pos_feats self) = true))
    as [[Hn0 Hev]|Hbad].
  - destruct (sine_forward_shape self mask B H W Hm Hn0 Hev) as (out & Hout & Hs).
    split; [by rewrite Hout|].
    intros out' Hout'. rewrite Hout in Hout'. injection Hout' as <-.
    rewrite Hs. do 2 f_equal. lia.
  - rewrite (sine_forward_undefined self mask B H W Hm).
    + split; [|done]. split; [by intros []|done].
    + destruct (decide (num_pos_feats self < 0)); [by left|right].
      destruct (Z.even (num_pos_feats self)); [|done].
      exfalso. apply Hbad. split; [lia|done].
Qed.

(** X10: a mask of rank below three is rejected: the cumulative sum along
    dimension 2 (or 1) raises. *)
Theorem sine_forward_low_rank (self : PositionEmbeddingSine F) (mask : tensor bool) :
  (length (shape mask) < 3)%nat → sine_forward self mask = None.
Proof.
  intros Hr. unfold sine_forward, embed_coords, cumsum. simpl.
  destruct (shape mask) as [|a [|b [|c s]]]; simpl in *; [done|done|done|lia].
Qed.

End sine_defined.

Lemma sine_forward_defined_witness :
  (is_Some (sine_forward odd_sine ex_mask)
   ↔ 0 ≤ num_pos_feats odd_sine ∧ Z.even (num_pos_feats odd_sine) = true)
  ∧ ∀ out, sine_forward odd_sine ex_mask = Some out →
      shape out = [1%nat; Z.to_nat (2 * num_pos_feats odd_sine); 2%nat; 3%nat].
Proof.
  apply (sine_forward_defined odd_sine ex_mask 1 2 3). reflexivity.
Defined.

Lemma sine_forward_low_rank_witness :
  sine_forward ex_sine (T [2; 3]%nat (λ _, false)) = None.
Proof.
  apply (sine_forward_low_rank ex_sine (T [2; 3]%nat (λ _, false))). simpl. lia.
Defined.

(** ** The coordinates of the sine encoding *)

Section raw_coords.
Context {F : Type} `{!Arith F}.

Lemma embed_coords_raw (self : PositionEmbeddingSine F) (mask : tensor bool) (B H W : nat) :
  shape mask = [B; H; W] → normalize self = false →
  ∃ y x, embed_coords self mask = Some (y, x)
    ∧ shape y = [B; H; W] ∧ shape x = [B; H; W]
    ∧ ∀ b h w,
        elem y [b; h; w] = valid_count (λ k, negb (elem mask [b; k; w])) (S h)
        ∧ elem x [b; h; w] = valid_count (λ k, negb (elem mask [b; h; k])) (S w).
Proof.
  intros Hm Hn. unfold valid_count, embed_coords, cumsum.
  simpl. rewrite Hm, Hn. simpl.
  eexists _, _. split; [reflexivity|]. done.
Qed.

End raw_coords.

Lemma count_filter (f : nat → bool) (P : nat → Prop) `{!∀ k, Decision (P k)} (n : nat) :
  (∀ k, f k = true ↔ P k) →
  (valid_count (F:=Q) f n == inject_Z (Z.of_nat (length (filter P (seq 0 n)))))%Q.
Proof.
  intros HP. induction n as [|n IH]; [done|].
  rewrite count_S, IH, seq_S, filter_app, length_app, Nat2Z.inj_add, inject_Z_plus.
  apply Qplus_inj_l. simpl.
  destruct (f n) eqn:Hf.
  - rewrite filter_cons_True by by apply HP. done.
  - rewrite filter_cons_False; [done|]. rewrite <-HP. by rewrite Hf.
Qed.

(** X11: without normalization the coordinates are the raw cumulative
    counts: the y-coordinate of a pixel is the number of unpadded pixels of
    its column at or above it, the x-coordinate the number of unpadded pixels
    of its row at or left of it. Coordinates so start at 1, not 0: a pixel
    with no padding at or above (left of) it has coordinate [h + 1]
    ([w + 1]). Scalars are exact rationals here. *)
Theorem raw_coords_count (self : PositionEmbeddingSine Q) (mask : tensor bool) (B H W : nat) :
  shape mask = [B; H; W] → normalize self = false →
  ∃ y x, embed_coords self mask = Some (y, x)
    ∧ shape y = [B; H; W] ∧ shape x = [B; H; W]
    ∧ ∀ b h w, (b < B)%nat → (h < H)%nat → (w < W)%nat →
        (elem y [b; h; w]
         == inject_Z (Z.of_nat (length (filter (λ k, elem mask [b; k; w] = false)
                                               (seq 0 (S h)))))
         ∧ elem x [b; h; w]
           == inject_Z (Z.of_nat (length (filter (λ k, elem mask [b; h; k] = false)
                                                 (seq 0 (S w)))))
         ∧ ((∀ k, (k ≤ h)%nat → elem mask [b; k; w] = false) →
              elem y [b; h; w] == inject_Z (Z.of_nat (h + 1)))
         ∧ ((∀ k, (k ≤ w)%nat → elem mask [b; h; k] = false) →
              elem x [b; h; w] == inject_Z (Z.of_nat (w + 1))))%Q.
Proof.
  intros Hm Hn.
  destruct (embed_coords_raw self mask B H W Hm Hn) as (y & x & Hyx & Hy & Hx & Hval).
  exists y, x. do 3 (split; [done|]).
  intros b h w _ _ _. destruct (Hval b h w) as [-> ->].
  assert (∀ m : bool, negb m = true ↔ m = false) as Hneg by (by intros []).
  split; [|split; [|split]].
  - apply count_filter. intros k. apply Hneg.
  - apply count_filter. intros k. apply Hneg.
  - intros Hall. rewrite count_all; [by rewrite Nat.add_1_r|].
    intros k Hk. rewrite Hall; [done|lia].
  - intros Hall. rewrite count_all; [by rewrite Nat.add_1_r|].
    intros k Hk. rewrite Hall; [done|lia].
Qed.

Lemma valid_pixels_mono (f : nat → bool) (n m : nat) :
  (n ≤ m)%nat → (valid_pixels f n ≤ valid_pixels f m)%nat.
Proof.
  induction 1 as [|m _ IH]; [done|]. rewrite valid_pixels_S. lia.
Qed.

Lemma range_checked :
  forallb (λ K, forallb (coord_in_range K) (seq 0 (S K))) (seq 0 (S range_extent)) = true.
Proof. vm_compute. reflexivity. Qed.

Lemma coord_in_range_spec (K c : nat) :
  (c ≤ K)%nat → (K ≤ range_extent)%nat →
  ∃ s, Float32.to_Q (fmul (of_Z 2) fpi : spec_float) = Some s
    ∧ Float32.to_Q (coord32 K c) = Some (coord_value K c)
    ∧ (0 <= coord_value K c)%Q ∧ (coord_value K c <= s)%Q
    ∧ ((c < K)%nat → (coord_value K c <= coord_value K (S c))%Q).
Proof.
  intros Hc HK.
  pose proof (forallb_seq _ _ K range_checked ltac:(lia)) as HcK. cbv beta in HcK.
  pose proof (forallb_seq _ _ c HcK ltac:(lia)) as Hr.
  unfold coord_in_range in Hr.
  destruct (Float32.to_Q (coord32 K c)) as [y|] eqn:Hy; [|discriminate Hr].
  assert (coord_value K c = y) as -> by (unfold coord_value; by rewrite Hy).
  destruct (Float32.to_Q (fmul (of_Z 2) fpi)) as [s|]; [|discriminate Hr].
  apply andb_prop in Hr as [Hr Hnext]. apply andb_prop in Hr as [H0 Hs].
  apply Qle_bool_iff in H0, Hs.
  exists s. split; [reflexivity|]. split; [reflexivity|].
  split; [exact H0|]. split; [exact Hs|].
  intros Hlt. rewrite bool_decide_eq_true_2 in Hnext by exact Hlt.
  by apply Qle_bool_iff in Hnext.
Qed.

Lemma coord_value_mono (K c c' : nat) :
  (c ≤ c')%nat → (c' ≤ K)%nat → (K ≤ range_extent)%nat →
  (coord_value K c <= coord_value K c')%Q.
Proof.
  intros Hcc Hc' HK. induction Hcc as [|c' Hcc IH]; [apply Qle_refl|].
  eapply Qle_trans; [apply IH; lia|].
  destruct (coord_in_range_spec K c' ltac:(lia) HK) as (s & _ & _ & _ & _ & Hnext).
  apply Hnext. lia.
Qed.

(** X12: with normalization and the default scale, on any mask of at most
    256 rows and columns, every float32 coordinate is a number between 0
    and the float32 scale (which is above [2 * math.pi]), and the
    coordinates do not decrease down a column (y) or along a row (x). *)
Theorem normalized_coords_range (self : PositionEmbeddingSine spec_float)
    (mask : tensor bool) (B H W : nat) :
  shape mask = [B; H; W] → normalize self = true → scale self = fmul (of_Z 2) fpi →
  (H ≤ range_extent)%nat → (W ≤ range_extent)%nat →
  ∃ y x s, embed_coords self mask = Some (y, x)
    ∧ Float32.to_Q (scale self) = Some s ∧ (two_pi < s)%Q
    ∧ ∀ b h w, (b < B)%nat → (h < H)%nat → (w < W)%nat →
        ∃ qy qx, Float32.to_Q (elem y [b; h; w]) = Some qy
          ∧ Float32.to_Q (elem x [b; h; w]) = Some qx
          ∧ (0 <= qy)%Q ∧ (qy <= s)%Q ∧ (0 <= qx)%Q ∧ (qx <= s)%Q
          ∧ (∀ h', (h ≤ h')%nat → (h' < H)%nat →
               ∃ qy', Float32.to_Q (elem y [b; h'; w]) = Some qy' ∧ (qy <= qy')%Q)
          ∧ (∀ w', (w ≤ w')%nat → (w' < W)%nat →
               ∃ qx', Float32.to_Q (elem x [b; h; w']) = Some qx' ∧ (qx <= qx')%Q).
Proof.
  intros Hm Hn Hscale HH HW.
  destruct (embed_coords_normalized self mask B H W Hm Hn)
    as (cy & cx & dy & dx & y & x & _ & _ & _ & _ & Hyx & Hval).
  destruct (coord_in_range_spec 0 0 ltac:(lia) ltac:(lia)) as (s & Hs & _).
  exists y, x, s. split; [exact Hyx|]. rewrite Hscale. split; [exact Hs|].
  split.
  { assert (Float32.to_Q (fmul (of_Z 2) fpi : spec_float) = Some (13176795 # 2097152))
      as Hlit by (vm_compute; reflexivity).
    rewrite Hlit in Hs. injection Hs as <-. vm_compute. reflexivity. }
  intros b h w Hb Hh Hw.
  assert (range_extent ≤ checked_extent)%nat as Hext by (vm_compute; lia).
  assert (S (H - 1) = H) as HH1 by lia. assert (S (W - 1) = W) as HW1 by lia.
  set (col k := negb (elem mask [b; k; w])). set (row k := negb (elem mask [b; h; k])).
  assert (Hy : ∀ h', (h' < H)%nat →
    elem y [b; h'; w] = coord32 (valid_pixels col H) (valid_pixels col (S h'))).
  { intros h' Hh'.
    destruct (Hval b h' w Hb Hh' Hw) as (Ecy & _ & Edy & _ & Ey & _).
    destruct (Hval b (H - 1)%nat w Hb ltac:(lia) Hw) as (Ecy' & _).
    rewrite Ey, Edy, Ecy, Ecy', HH1, Hscale. fold col.
    rewrite !float_count by lia. reflexivity. }
  assert (Hx : ∀ w', (w' < W)%nat →
    elem x [b; h; w'] = coord32 (valid_pixels row W) (valid_pixels row (S w'))).
  { intros w' Hw'.
    destruct (Hval b h w' Hb Hh Hw') as (_ & Ecx & _ & Edx & _ & Ex).
    destruct (Hval b h (W - 1)%nat Hb Hh ltac:(lia)) as (_ & Ecx' & _).
    rewrite Ex, Edx, Ecx, Ecx', HW1, Hscale. fold row.
    rewrite !float_count by lia. reflexivity. }
  pose proof (valid_pixels_le col H) as HKy. pose proof (valid_pixels_le row W) as HKx.
  assert (Hcy : ∀ h', (h' < H)%nat → (valid_pixels col (S h') ≤ valid_pixels col H)%nat)
    by (intros; apply valid_pixels_mono; lia).
  assert (Hcx : ∀ w', (w' < W)%nat → (valid_pixels row (S w') ≤ valid_pixels row W)%nat)
    by (intros; apply valid_pixels_mono; lia).
  destruct (coord_in_range_spec _ _ (Hcy h Hh) ltac:(lia)) as (s1 & Hs1 & Hqy & Hy0 & Hys & _).
  destruct (coord_in_range_spec _ _ (Hcx w Hw) ltac:(lia)) as (s2 & Hs2 & Hqx & Hx0 & Hxs & _).
  rewrite Hs in Hs1, Hs2. injection Hs1 as <-. injection Hs2 as <-.
  exists (coord_value (valid_pixels col H) (valid_pixels col (S h))),
         (coord_value (valid_pixels row W) (valid_pixels row (S w))).
  rewrite (Hy h Hh), (Hx w Hw).
  split; [exact Hqy|]. split; [exact Hqx|].
  split; [exact Hy0|]. split; [exact Hys|]. split; [exact Hx0|]. split; [exact Hxs|].
  split.
  - intros h' Hle Hh'.
    destruct (coord_in_range_spec _ _ (Hcy h' Hh') ltac:(lia)) as (_ & _ & Hq' & _).
    rewrite (Hy h' Hh'). eexists. split; [exact Hq'|].
    apply coord_value_mono; [apply valid_pixels_mono; lia|by apply Hcy|lia].
  - intros w' Hle Hw'.
    destruct (coord_in_range_spec _ _ (Hcx w' Hw') ltac:(lia)) as (_ & _ & Hq' & _).
    rewrite (Hx w' Hw'). eexists. split; [exact Hq'|].
    apply coord_value_mono; [apply valid_pixels_mono; lia|by apply Hcx|lia].
Qed.

Lemma raw_coords_count_witness :
  let self : PositionEmbeddingSine Q := sine_init 2 10000 false None in
  ∃ y x, embed_coords self ex_mask = Some (y, x)
    ∧ shape y = [1; 2; 3]%nat ∧ shape x = [1; 2; 3]%nat
    ∧ ∀ b h w, (b < 1)%nat → (h < 2)%nat → (w < 3)%nat →
        (elem y [b; h; w]
         == inject_Z (Z.of_nat (length (filter (λ k, elem ex_mask [b; k; w] = false)
                                               (seq 0 (S h)))))
         ∧ elem x [b; h; w]
           == inject_Z (Z.of_nat (length (filter (λ k, elem ex_mask [b; h; k] = false)
                                                 (seq 0 (S w)))))
         ∧ ((∀ k, (k ≤ h)%nat → elem ex_mask [b; k; w] = false) →
              elem y [b; h; w] == inject_Z (Z.of_nat (h + 1)))
         ∧ ((∀ k, (k ≤ w)%nat → elem ex_mask [b; h; k] = false) →
              elem x [b; h; w] == inject_Z (Z.of_nat (w + 1))))%Q.
Proof.
  apply (raw_coords_count (sine_init 2 10000 false None) ex_mask 1 2 3).
  - reflexivity.
  - reflexivity.
Defined.

Lemma normalized_coords_range_witness :
  ∃ y x s, embed_coords float_sine ex_mask = Some (y, x)
    ∧ Float32.to_Q (scale float_sine) = Some s ∧ (two_pi < s)%Q
    ∧ ∀ b h w, (b < 1)%nat → (h < 2)%nat → (w < 3)%nat →
        ∃ qy qx, Float32.to_Q (elem y [b; h; w]) = Some qy
          ∧ Float32.to_Q (elem x [b; h; w]) = Some qx
          ∧ (0 <= qy)%Q ∧ (qy <= s)%Q ∧ (0 <= qx)%Q ∧ (qx <= s)%Q
          ∧ (∀ h', (h ≤ h')%nat → (h' < 2)%nat →
               ∃ qy', Float32.to_Q (elem y [b; h'; w]) = Some qy' ∧ (qy <= qy')%Q)
          ∧ (∀ w', (w ≤ w')%nat → (w' < 3)%nat →
               ∃ qx', Float32.to_Q (elem x [b; h; w']) = Some qx' ∧ (qx <= qx')%Q).
Proof.
  apply (normalized_coords_range float_sine ex_mask 1 2 3).
  - reflexivity.
  - reflexivity.
  - reflexivity.
  - unfold range_extent. lia.
  - unfold range_extent. lia.
Defined.

(** ** PositionEmbeddingLearned.forward: the table size *)

Lemma arange_indices_bad (k n : nat) :
  (n < k)%nat →
  ¬ Forall (λ i : list nat, 0 ≤ Z.of_nat (i !!! 0%nat) < Z.of_nat n) (all_indices [k]).
Proof.
  intros Hk. rewrite all_indices_1, Forall_fmap, Forall_forall. intros Hall.
  specialize (Hall n). simpl in Hall.
  assert (n ∈ seq 0 k) as Hin by (apply elem_of_seq; lia).
  apply Hall in Hin. lia.
Qed.

Section learned_defined.
Context {F : Type} `{!Arith F}.

Lemma learned_forward_map {A} (self : PositionEmbeddingLearned F) (mask : tensor A)
    (B H W C : nat) :
  shape mask = [B; H; W] →
  shape (row_embed self) = [max_extent; C] → shape (col_embed self) = [max_extent; C] →
  (H ≤ max_extent)%nat → (W ≤ max_extent)%nat →
  ∃ out, learned_forward self mask = Some out
    ∧ shape out = [B; (2 * C)%nat; H; W]
    ∧ ∀ b c i j, (b < B)%nat → (c < 2 * C)%nat → (i < H)%nat → (j < W)%nat →
        elem out [b; c; i; j] = elem (learned_map self C H W) [c; i; j].
Proof.
  intros Hm Hr Hc HH HW. unfold max_extent in *.
  unfold learned_forward. rewrite Hm. simpl.
  unfold arange. rewrite !bool_decide_eq_true_2 by lia. simpl.
  unfold embedding. rewrite Hr, Hc. simpl shape. rewrite !Nat2Z.id.
  do 2 decide_test ltac:(by apply arange_indices_ok). simpl.
  unfold Tensor.repeat, unsqueeze, cat2, permute. simpl.
  rewrite !Nat.mul_1_r, !Nat.add_0_r.
  decide_test ltac:(done). simpl.
  eexists. split; [reflexivity|]. simpl. split.
  { f_equal; [lia|]. f_equal; [lia|]. f_equal; [lia|]. f_equal; lia. }
  intros b c i j Hb Hc' Hi Hj. rewrite !Nat2Z.id.
  rewrite (Nat.mod_small c), (Nat.mod_small j), (Nat.mod_small i) by lia.
  case_bool_decide; by rewrite !Nat.mod_small by lia.
Qed.

Lemma learned_forward_too_large {A} (self : PositionEmbeddingLearned F) (mask : tensor A)
    (B H W C : nat) :
  shape mask = [B; H; W] →
  shape (row_embed self) = [max_extent; C] → shape (col_embed self) = [max_extent; C] →
  (max_extent < H)%nat ∨ (max_extent < W)%nat →
  learned_forward self mask = None.
Proof.
  intros Hm Hr Hc Hbig. unfold max_extent in *.
  unfold learned_forward. rewrite Hm. simpl.
  unfold arange. rewrite !bool_decide_eq_true_2 by lia. simpl.
  unfold embedding. rewrite Hr, Hc. simpl shape. rewrite !Nat2Z.id.
  destruct (decide (50 < W)%nat) as [HW|HW].
  - rewrite (bool_decide_eq_false_2 (Forall _ (all_indices [W])));
      [done|by apply arange_indices_bad].
  - destruct Hbig as [HH|?]; [|done].
    rewrite (bool_decide_eq_false_2 (Forall _ (all_indices [H])))
      by by apply arange_indices_bad.
    rewrite (bool_decide_eq_true_2 (Forall _ (all_indices [W])))
      by (apply arange_indices_ok; lia).
    done.
Qed.

(** X13: on a [B, H, W] mask, with tables of 50 rows,
    [PositionEmbeddingLearned.forward] returns a tensor exactly when neither
    [H] nor [W] exceeds 50; beyond, the embedding lookup raises. *)
Theorem learned_forward_defined {A} (self : PositionEmbeddingLearned F) (mask : tensor A)
    (B H W C : nat) :
  shape mask = [B; H; W] →
  shape (row_embed self) = [max_extent; C] → shape (col_embed self) = [max_extent; C] →
  is_Some (learned_forward self mask) ↔ (H ≤ 50)%nat ∧ (W ≤ 50)%nat.
Proof.
  intros Hm Hr Hc. split.
  - intros Hsome.
    destruct (decide (H ≤ 50 ∧ W ≤ 50)%nat) as [?|Hbig]; [done|].
    rewrite (learned_forward_too_large self mask B H W C) in Hsome;
      [by destruct Hsome|done|done|done|unfold max_extent; lia].
  - intros [HH HW].
    destruct (learned_forward_map self mask B H W C Hm Hr Hc HH HW) as (out & -> & _).
    done.
Qed.

End learned_defined.

Lemma learned_forward_defined_witness :
  is_Some (learned_forward ex_learned (T [1; 51; 3]%nat (λ _, false)))
  ↔ (51 ≤ 50)%nat ∧ (3 ≤ 50)%nat.
Proof.
  apply (learned_forward_defined ex_learned (T [1; 51; 3]%nat (λ _, false)) 1 51 3 2).
  - reflexivity.
  - reflexivity.
  - reflexivity.
Defined.

(** ** build_position_encoding, and the encodings it builds *)

Lemma half_even (h : Z) : Z.even (h `div` 2) = true ↔ h `mod` 4 < 2.
Proof.
  split.
  - intros He. apply Z.even_spec in He as [k Hk].
    Z.to_euclidean_division_equations. lia.
  - intros Hm. apply Z.even_spec. exists (h `div` 4).
    Z.to_euclidean_division_equations. lia.
Qed.

Section built.
Context {F : Type} `{!Arith F, !Transc F}.

(** X14: the two errors of [build_position_encoding]: the configuration
    error is raised exactly for an option value outside the four known ones
    and carries that value; the constructor of the learned tables fails
    exactly for a learned-type option with a negative [hidden_dim]. A
    sine-type option never fails in the builder. *)
Theorem build_position_encoding_errors (rows cols : nat → nat → F) (args : Args F) :
  (∀ value, build_position_encoding rows cols args = inl (ValueError value)
            ↔ value = position_embedding args
              ∧ position_embedding args ∉ ["sine"; "v2"; "learned"; "v3"])
  ∧ (build_position_encoding rows cols args = inl RuntimeError
     ↔ position_embedding args ∈ ["learned"; "v3"] ∧ hidden_dim args < 0)
  ∧ (position_embedding args ∈ ["sine"; "v2"] →
     ∃ m, build_position_encoding rows cols args = inr (Sine m)).
Proof.
  assert (hidden_dim args `div` 2 < 0 ↔ hidden_dim args < 0) as Hneg
    by (Z.to_euclidean_division_equations; lia).
  assert ((position_embedding args ∉ ["sine"; "v2"; "learned"; "v3"])
          ↔ (position_embedding args ∉ ["v2"; "sine"])
            ∧ (position_embedding args ∉ ["v3"; "learned"])) as Hfour
    by (rewrite !elem_of_cons, !elem_of_nil; tauto).
  assert (position_embedding args ∈ ["learned"; "v3"]
          ↔ position_embedding args ∈ ["v3"; "learned"]) as Hl2
    by (rewrite !elem_of_cons, !elem_of_nil; tauto).
  assert (position_embedding args ∈ ["sine"; "v2"]
          ↔ position_embedding args ∈ ["v2"; "sine"]) as Hs2
    by (rewrite !elem_of_cons, !elem_of_nil; tauto).
  assert (position_embedding args ∈ ["v2"; "sine"] →
          position_embedding args ∈ ["v3"; "learned"] → False) as Hdisj.
  { rewrite !elem_of_cons, !elem_of_nil.
    intros [Hs|[Hs|[]]] [Hl|[Hl|[]]]; rewrite Hs in Hl; discriminate. }
  unfold build_position_encoding, learned_init.
  case_bool_decide as Hs; [|case_bool_decide as Hl; [case_bool_decide as Hn|]].
  - split; [|split].
    + intros value. split; [done|]. intros [_ Hno]. apply Hfour in Hno. tauto.
    + split; [done|]. intros [Hl _]. apply Hl2 in Hl. by destruct (Hdisj Hs Hl).
    + intros _. by eexists.
  - split; [|split].
    + intros value. split; [done|]. intros [_ Hno]. apply Hfour in Hno. tauto.
    + split; [done|]. intros [_ ?]. lia.
    + intros Hs'. by apply Hs2 in Hs'.
  - split; [|split].
    + intros value. split; [done|]. intros [_ Hno]. apply Hfour in Hno. tauto.
    + split; [|done]. intros _. split; [by apply Hl2|lia].
    + intros Hs'. by apply Hs2 in Hs'.
  - split; [|split].
    + intros value. split.
      * intros [= <-]. split; [done|]. by apply Hfour.
      * by intros [-> _].
    + split; [done|]. intros [Hl' _]. by apply Hl2 in Hl'.
    + intros Hs'. by apply Hs2 in Hs'.
Qed.

(** X15: the sine encoding the builder makes for a given [hidden_dim]
    returns, on a [B, H, W] mask, a tensor exactly when [hidden_dim] is
    non-negative and leaves remainder 0 or 1 modulo 4 (its half must be
    even); the tensor has [2 * (hidden_dim // 2)] channels, which is
    [hidden_dim] when [hidden_dim] is a multiple of 4. *)
Theorem build_sine_forward (rows cols : nat → nat → F) (args : Args F)
    (mask : tensor bool) (B H W : nat) :
  position_embedding args ∈ ["sine"; "v2"] → shape mask = [B; H; W] →
  ∃ m, build_position_encoding rows cols args = inr (Sine m)
    ∧ (is_Some (sine_forward m mask) ↔ 0 ≤ hidden_dim args ∧ hidden_dim args `mod` 4 < 2)
    ∧ ∀ out, sine_forward m mask = Some out →
        shape out = [B; Z.to_nat (2 * (hidden_dim args `div` 2)); H; W]
        ∧ (hidden_dim args `mod` 4 = 0 →
             shape out = [B; Z.to_nat (hidden_dim args); H; W]).
Proof.
  intros Hopt Hm.
  assert (position_embedding args ∈ ["v2"; "sine"]) as Hopt'
    by (revert Hopt; rewrite !elem_of_cons; tauto).
  eexists. split; [by apply build_sine|].
  set (m := {| num_pos_feats := hidden_dim args `div` 2 |}).
  assert (0 ≤ hidden_dim args `div` 2 ↔ 0 ≤ hidden_dim args) as Hpos
    by (Z.to_euclidean_division_equations; lia).
  split.
  - split.
    + intros Hsome.
      destruct (decide (0 ≤ num_pos_feats m ∧ Z.even (num_pos_feats m) = true))
        as [[Hn0 Hev]|Hbad].
      * simpl in Hn0, Hev. by rewrite <-Hpos, <-half_even.
      * rewrite (sine_forward_undefined m mask B H W Hm) in Hsome; [by destruct Hsome|].
        destruct (decide (num_pos_feats m < 0)); [by left|right].
        destruct (Z.even (num_pos_feats m)); [|done].
        exfalso. apply Hbad. split; [lia|done].
    + intros [Hn0 Hmod].
      destruct (sine_forward_shape m mask B H W Hm) as (out & -> & _);
        simpl; [by apply Hpos|by apply half_even|done].
  - intros out Hout.
    destruct (decide (0 ≤ num_pos_feats m ∧ Z.even (num_pos_feats m) = true))
      as [[Hn0 Hev]|Hbad].
    + destruct (sine_forward_shape m mask B H W Hm Hn0 Hev) as (out' & Hout' & Hs).
      rewrite Hout in Hout'. injection Hout' as <-. rewrite Hs. simpl.
      split; [do 2 f_equal; lia|].
      intros Hmod. do 2 f_equal. simpl in Hn0.
      Z.to_euclidean_division_equations. lia.
    + rewrite (sine_forward_undefined m mask B H W Hm) in Hout; [done|].
      destruct (decide (num_pos_feats m < 0)); [by left|right].
      destruct (Z.even (num_pos_feats m)); [|done].
      exfalso. apply Hbad. split; [lia|done].
Qed.

(** X16: the learned encoding the builder makes returns, on a [B, H, W] mask
    with [H] and [W] at most 50, a tensor with [2 * (hidden_dim // 2)]
    channels ([hidden_dim] for an even [hidden_dim]); the encoding of pixel
    [(i, j)] is the initial vector of column [j] followed by the initial
    vector of row [i], the same at every batch index. *)
Theorem build_learned_forward {A} (rows cols : nat → nat → F) (args : Args F)
    (mask : tensor A) (B H W : nat) :
  position_embedding args ∈ ["learned"; "v3"] → 0 ≤ hidden_dim args →
  shape mask = [B; H; W] → (H ≤ 50)%nat → (W ≤ 50)%nat →
  let C := Z.to_nat (hidden_dim args `div` 2) in
  ∃ m out, build_position_encoding rows cols args = inr (Learned m)
    ∧ learned_forward m mask = Some out
    ∧ shape out = [B; (2 * C)%nat; H; W]
    ∧ (Z.even (hidden_dim args) = true → (2 * C)%nat = Z.to_nat (hidden_dim args))
    ∧ ∀ b c i j, (b < B)%nat → (c < 2 * C)%nat → (i < H)%nat → (j < W)%nat →
        elem out [b; c; i; j]
        = if bool_decide (c < C)%nat then cols j c else rows i (c - C)%nat.
Proof.
  intros Hopt Hdim Hm HH HW C.
  unfold build_position_encoding.
  rewrite bool_decide_eq_false_2.
  2:{ revert Hopt. rewrite !elem_of_cons, !elem_of_nil.
      intros [->|[->|[]]] [?|[?|[]]]; discriminate. }
  rewrite bool_decide_eq_true_2 by (revert Hopt; rewrite !elem_of_cons; tauto).
  unfold learned_init.
  rewrite bool_decide_eq_true_2 by (by apply Z.div_pos).
  eexists. 
  lazymatch goal with
  | |- ∃ out, inr (Learned ?m) = _ ∧ _ =>
      destruct (learned_forward_map m mask B H W C Hm eq_refl eq_refl HH HW)
        as (out & Hout & Hs & Hval)
  end.
  exists out. split; [done|]. split; [done|]. split; [done|]. split.
  - intros Heven. subst C. apply Zeven_bool_iff, Zeven_div2 in Heven.
    rewrite Z.div2_div in Heven. lia.
  - intros b c i j Hb Hc Hi Hj. rewrite Hval by done. simpl.
    by case_bool_decide.
Qed.

End built.

Lemma build_sine_forward_witness :
  let args := ex_args "sine" 6 in
  ∃ m, build_position_encoding ex_rows ex_cols args = inr (Sine m)
    ∧ (is_Some (sine_forward m ex_mask) ↔ 0 ≤ hidden_dim args ∧ hidden_dim args `mod` 4 < 2)
    ∧ ∀ out, sine_forward m ex_mask = Some out →
        shape out = [1%nat; Z.to_nat (2 * (hidden_dim args `div` 2)); 2%nat; 3%nat]
        ∧ (hidden_dim args `mod` 4 = 0 →
             shape out = [1%nat; Z.to_nat (hidden_dim args); 2%nat; 3%nat]).
Proof.
  apply (build_sine_forward ex_rows ex_cols (ex_args "sine" 6) ex_mask 1 2 3).
  - simpl. rewrite !elem_of_cons. by left.
  - reflexivity.
Defined.

Lemma build_learned_forward_witness :
  let args := ex_args "v3" 4 in
  let C := Z.to_nat (hidden_dim args `div` 2) in
  ∃ m out, build_position_encoding ex_rows ex_cols args = inr (Learned m)
    ∧ learned_forward m ex_mask = Some out
    ∧ shape out = [1; 2 * C; 2; 3]%nat
    ∧ (Z.even (hidden_dim args) = true → (2 * C)%nat = Z.to_nat (hidden_dim args))
    ∧ ∀ b c i j, (b < 1)%nat → (c < 2 * C)%nat → (i < 2)%nat → (j < 3)%nat →
        elem out [b; c; i; j]
        = if bool_decide (c < C)%nat then ex_cols j c else ex_rows i (c - C)%nat.
Proof.
  apply (build_learned_forward ex_rows ex_cols (ex_args "v3" 4) ex_mask 1 2 3).
  - simpl. rewrite !elem_of_cons. right. by left.
  - simpl. lia.
  - reflexivity.
  - lia.
  - lia.
Defined.

(** ** PositionEmbeddingSine.forward: one image at a time *)

Section sine_local.
Context {F : Type} `{!Arith F, !Transc F}.

Lemma valid_count_ext (f g : nat → bool) (n : nat) :
  (∀ k, (k < n)%nat → f k = g k) → valid_count (F:=F) f n = valid_count g n.
Proof.
  intros Hfg. unfold valid_count. f_equal. apply list_fmap_ext.
  intros i k Hk. apply lookup_seq in Hk as [-> ?]. by rewrite Hfg.
Qed.

Lemma coord_of_ext (self : PositionEmbeddingSine F) (f g : nat → bool) (n i : nat) :
  (i < n)%nat → (∀ k, (k < n)%nat → f k = g k) → coord_of self f n i = coord_of self g n i.
Proof.
  intros Hi Hfg. unfold coord_of.
  rewrite (valid_count_ext f g n), (valid_count_ext f g (S i)); [done| |done].
  intros k Hk. apply Hfg. lia.
Qed.

Lemma embed_coords_elems (self : PositionEmbeddingSine F) (mask : tensor bool) (B H W : nat) :
  shape mask = [B; H; W] →
  ∃ y x, embed_coords self mask = Some (y, x)
    ∧ shape y = [B; H; W] ∧ shape x = [B; H; W]
    ∧ ∀ b h w, (b < B)%nat → (h < H)%nat → (w < W)%nat →
        elem y [b; h; w] = coord_of self (λ k, negb (elem mask [b; k; w])) H h
        ∧ elem x [b; h; w] = coord_of self (λ k, negb (elem mask [b; h; k])) W w.
Proof.
  intros Hm. unfold coord_of.
  destruct (embed_coords_shape self mask B H W Hm) as (y & x & Hyx & Hy & Hx).
  exists y, x. do 3 (split; [done|]). intros b h w Hb Hh Hw.
  destruct (normalize self) eqn:Hn.
  - destruct (embed_coords_normalized self mask B H W Hm Hn)
      as (cy & cx & dy & dx & y' & x' & _ & _ & _ & _ & Hyx' & Hval).
    rewrite Hyx in Hyx'. injection Hyx' as <- <-.
    destruct (Hval b h w Hb Hh Hw) as (Ecy & Ecx & Edy & Edx & Ey & Ex).
    destruct (Hval b (H - 1)%nat w Hb ltac:(lia) Hw) as (Ecy' & _).
    destruct (Hval b h (W - 1)%nat Hb Hh ltac:(lia)) as (_ & Ecx' & _).
    replace (S (H - 1)) with H in Ecy' by lia.
    replace (S (W - 1)) with W in Ecx' by lia.
    by rewrite Ey, Ex, Edy, Edx, Ecy, Ecx, Ecy', Ecx'.
  - destruct (embed_coords_raw self mask B H W Hm Hn) as (y' & x' & Hyx' & _ & _ & Hval).
    rewrite Hyx in Hyx'. injection Hyx' as <- <-. apply Hval.
Qed.

Lemma sine_forward_elems (self : PositionEmbeddingSine F) (mask : tensor bool) (B H W : nat) :
  shape mask = [B; H; W] →
  0 ≤ num_pos_feats self → Z.even (num_pos_feats self) = true →
  let n := Z.to_nat (num_pos_feats self) in
  ∃ out, sine_forward self mask = Some out
    ∧ shape out = [B; (2 * n)%nat; H; W]
    ∧ ∀ b c h w, (b < B)%nat → (c < 2 * n)%nat → (h < H)%nat → (w < W)%nat →
        elem out [b; c; h; w]
        = if bool_decide (c < n)%nat
          then channel_value self (coord_of self (λ k, negb (elem mask [b; k; w])) H h) c
          else channel_value self (coord_of self (λ k, negb (elem mask [b; h; k])) W w)
                             (c - n).
Proof.
  intros Hm Hn0 Hev n.
  assert (Nat.even n = true) as Hevn by by apply even_to_nat.
  destruct (embed_coords_elems self mask B H W Hm) as (y & x & Hyx & Hy & Hx & Hcoord).
  unfold sine_forward. rewrite Hyx. simpl.
  unfold arange. decide_test ltac:(done). simpl. fold n.
  unfold unsqueeze, binop. rewrite Hx, Hy. simpl.
  rewrite broadcast_channels. simpl.
  lazymatch goal with
  | |- context [interleave ?t ≫= _] =>
      destruct (interleave_spec t B H W n eq_refl Hevn) as (ox & Hox & Hsx & Hvx)
  end.
  rewrite Hox. simpl.
  lazymatch goal with
  | |- context [interleave ?t ≫= _] =>
      destruct (interleave_spec t B H W n eq_refl Hevn) as (oy & Hoy & Hsy & Hvy)
  end.
  rewrite Hoy. simpl.
  unfold cat2, permute. rewrite Hsx, Hsy. simpl.
  decide_test ltac:(done). simpl.
  eexists. split; [reflexivity|]. simpl.
  split; [f_equal; f_equal; lia|].
  intros b c h w Hb Hc Hh Hw.
  destruct (Hcoord b h w Hb Hh Hw) as [<- <-].
  unfold channel_value, wavelength.
  case_bool_decide.
  - rewrite Hvy by done. unfold bidx. simpl.
    by rewrite !bidx_entry by done.
  - rewrite Hvx by lia. unfold bidx. simpl.
    by rewrite !bidx_entry by lia.
Qed.

(** X17: the sine encoding of an image depends on that image's mask alone:
    two batches (of any sizes) whose masks agree on one image each get the
    same encoding for it. Within an image, the first [num_pos_feats] channels
    of a pixel depend on its column of the mask only, the others on its
    row only. *)
Theorem sine_forward_local (self : PositionEmbeddingSine F) (mask mask' : tensor bool)
    (B B' H W b b' : nat) :
  shape mask = [B; H; W] → shape mask' = [B'; H; W] →
  0 ≤ num_pos_feats self → Z.even (num_pos_feats self) = true →
  (b < B)%nat → (b' < B')%nat →
  let n := Z.to_nat (num_pos_feats self) in
  ∃ out out', sine_forward self mask = Some out ∧ sine_forward self mask' = Some out'
    ∧ ∀ c h w, (c < 2 * n)%nat → (h < H)%nat → (w < W)%nat →
        ((∀ i j, (i < H)%nat → (j < W)%nat → elem mask [b; i; j] = elem mask' [b'; i; j]) →
           elem out [b; c; h; w] = elem out' [b'; c; h; w])
        ∧ ((c < n)%nat →
           (∀ i, (i < H)%nat → elem mask [b; i; w] = elem mask' [b'; i; w]) →
           elem out [b; c; h; w] = elem out' [b'; c; h; w])
        ∧ ((n ≤ c)%nat →
           (∀ j, (j < W)%nat → elem mask [b; h; j] = elem mask' [b'; h; j]) →
           elem out [b; c; h; w] = elem out' [b'; c; h; w]).
Proof.
  intros Hm Hm' Hn0 Hev Hb Hb' n.
  destruct (sine_forward_elems self mask B H W Hm Hn0 Hev) as (out & Hout & _ & Hval).
  destruct (sine_forward_elems self mask' B' H W Hm' Hn0 Hev) as (out' & Hout' & _ & Hval').
  exists out, out'. do 2 (split; [done|]).
  intros c h w Hc Hh Hw. fold n in Hval, Hval'.
  rewrite Hval, Hval' by done.
  assert (Hcol : (∀ i, (i < H)%nat → elem mask [b; i; w] = elem mask' [b'; i; w]) →
            coord_of self (λ k, negb (elem mask [b; k; w])) H h
            = coord_of self (λ k, negb (elem mask' [b'; k; w])) H h).
  { intros Hagree. apply coord_of_ext; [done|]. intros k Hk. by rewrite Hagree. }
  assert (Hrow : (∀ j, (j < W)%nat → elem mask [b; h; j] = elem mask' [b'; h; j]) →
            coord_of self (λ k, negb (elem mask [b; h; k])) W w
            = coord_of self (λ k, negb (elem mask' [b'; h; k])) W w).
  { intros Hagree. apply coord_of_ext; [done|]. intros k Hk. by rewrite Hagree. }
  split; [|split].
  - intros Hagree. rewrite Hcol, Hrow; [done| |]; intros; by apply Hagree.
  - intros Hlt Hagree. rewrite !bool_decide_eq_true_2 by done. by rewrite Hcol.
  - intros Hge Hagree. rewrite !bool_decide_eq_false_2 by lia. by rewrite Hrow.
Qed.

End sine_local.

Lemma sine_forward_local_witness :
  let mask' : tensor bool := T [2; 2; 3]%nat (λ idx, bool_decide (idx !!! 2%nat = 2%nat)) in
  let n := Z.to_nat (num_pos_feats ex_sine) in
  ∃ out out', sine_forward ex_sine ex_mask = Some out ∧ sine_forward ex_sine mask' = Some out'
    ∧ ∀ c h w, (c < 2 * n)%nat → (h < 2)%nat → (w < 3)%nat →
        ((∀ i j, (i < 2)%nat → (j < 3)%nat →
            elem ex_mask [0; i; j]%nat = elem mask' [1; i; j]%nat) →
           elem out [0; c; h; w]%nat = elem out' [1; c; h; w]%nat)
        ∧ ((c < n)%nat →
           (∀ i, (i < 2)%nat → elem ex_mask [0; i; w]%nat = elem mask' [1; i; w]%nat) →
           elem out [0; c; h; w]%nat = elem out' [1; c; h; w]%nat)
        ∧ ((n ≤ c)%nat →
           (∀ j, (j < 3)%nat → elem ex_mask [0; h; j]%nat = elem mask' [1; h; j]%nat) →
           elem out [0; c; h; w]%nat = elem out' [1; c; h; w]%nat).
Proof.
  apply (sine_forward_local ex_sine ex_mask
           (T [2; 2; 3]%nat (λ idx, bool_decide (idx !!! 2%nat = 2%nat))) 1 2 2 3 0 1).
  - reflexivity.
  - reflexivity.
  - simpl. lia.
  - reflexivity.
  - lia.
  - lia.
Defined.
